(** * rwlock-promise: Mutex and RwLock over a promise runtime

    A shallow embedding of [src/index.ts].  The two classes are state
    machines driven by the JavaScript job queue, so the embedding is a
    state-passing one:

    - the closures of the source are defunctionalised ([Handler],
      [Runnable], [AsyncRunnable], [callback]);
    - promises live in stores partitioned by allocation site, the [fxList]
      arrays live in a heap of their own and are compared by address, as
      [===] does;
    - every public call and every promise reaction is one atomic job
      ([step]); the environment decides when the promise of a caller's
      handler settles and in which order enabled reactions run, so every
      order the microtask queue can produce is covered.

    Callers' handlers are opaque: calling one runs its synchronous prefix
    (recorded in the trace) and returns a pending promise, as its type
    [(value: T) => Promise<R>] says.  A handler that throws before it
    returns a promise is not represented.  The wrappers of [write] and
    [read] turn such an exception into a rejection; [Mutex.run] does not
    catch it, so that it leaves [next] at line 110 with the mutex marked
    running and no completion callback registered.  This is why the
    theorems on the progress of the lock (a busy lock is never stuck, the
    lock finishes its work, an idle lock has finished, each promise is
    settled once) are stated for programs that only call a read-write
    lock.

    What a handler does to the lock is a call event of its own, placed
    after the job that started the handler.  For a call made from a
    synchronous prefix this is exact when the job calls one handler; the
    member loop of a batch (lines 196-210) calls several, and a read made
    from the prefix of one member joins the batch at once (lines 219-222):
    the code calls its handler before the handlers of the members that
    follow in the list, the model after them.  So in the model the
    handlers of one batch are called in the order of the calls, while in
    the code a handler that joins during the loop overtakes the members
    not yet started.

    The protected value is only ever passed to handlers, so it is not
    represented.  [Ref], the mutable cell a caller may keep in a lock, is
    modelled on its own, in module [Ref]. *)

From stdpp Require Import list strings.
From Stdlib Require Import ZArith Lia.

Local Open Scope Z_scope.
Local Open Scope nat_scope.

(** ** Values and promise outcomes *)

Inductive jsval :=
| VUndef
| VData (z : Z)
| VStr (s : string).

Inductive outcome :=
| Fulfilled (v : jsval)
| Rejected (e : jsval).

(** ** Closures of the source, defunctionalised *)

(** The function a [Mutex] work item calls at line 83: a caller's handler
    given to [Mutex.run], the wrapper [async () => await handler(this.value)]
    built by [RwLock.write] (line 166), or the batch executor
    [() => new Promise(batchDone => ...)] built by [RwLock.read] (line 192),
    which captures the address of its [fxList]. *)
Inductive Handler :=
| HUser (h : nat)
| HWrite (h : nat)
| HBatch (fxList : nat).

(** [type Runnable]: the arrow function pushed on [Mutex.queue] at line 82;
    it captures [handler] and the [resolve]/[reject] pair of the promise
    that [run] returns. *)
Record Runnable := { r_handler : Handler; r_promise : nat }.

(** [type AsyncRunnable]: [vvvHandler] (line 179); it captures the caller's
    [handler] and the [resolve]/[reject] pair of the promise [read] returns. *)
Record AsyncRunnable := { v_handler : nat; v_promise : nat }.

(** What a registered reaction waits for. *)
Inductive source :=
| OnHandler (hp : nat)   (* promise returned by a caller's handler *)
| OnWrapper (wp : nat)   (* promise of the async wrapper of [write] *)
| OnBatch (bp : nat)     (* promise built by a batch executor *)
| OnVvv (vp : nat).      (* promise of [vvvHandler()] *)

(** The reactions the source registers. *)
Inductive callback :=
| RunSettled (p : nat)            (* [.then(..).catch(..)], lines 84-93 *)
| WriteAwait (wp : nat)           (* rest of the wrapper after [await], line 167 *)
| ReadAwait (p vp : nat)          (* rest of [vvvHandler] after [await], lines 180-184 *)
| BatchMemberDone (fxList : nat)  (* [.then(..)], lines 197-209 *)
| JoinedMemberDone (fxList : nat). (* [.then(..)], lines 223-236 *)

(** ** Objects *)

Record Mutex := { running : bool; queue : list Runnable }.

Record RwLock := {
  mutex : Mutex;
  remaining : Z;
  tailFxList : option nat;
  batchDone : option nat }.

(** Ghost trace of what happened, oldest first. *)
Inductive obs :=
| ObsEnqueue (h : Handler)         (* [this.queue.push], line 82 *)
| ObsEnter (h : Handler)           (* [handler(this.value)] at line 83 *)
| ObsInvoke (h : nat) (hp : nat)   (* a caller's handler is called and returns promise [hp] *)
| ObsSettle (p : nat) (o : outcome) (* [resolve]/[reject] of a caller's promise is called *)
| ObsRelease (bp : nat)            (* [this.batchDone()] is called *)
| ObsThrow (e : jsval)             (* a [throw] statement runs *)
| ObsUnhandled (e : jsval).        (* a reaction threw and nothing catches it *)

(** The state of a program: one read-write lock with its private mutex,
    the promise stores, the registered reactions and the arrays.  A
    program that only uses a [Mutex] calls [run] on the mutex and leaves
    the other fields of the lock alone; a program that uses the [RwLock]
    never calls [run] itself.  Handlers are named by numbers the caller
    chooses; promises and arrays by their address in their store. *)
Record World := {
  lock : RwLock;
  callers : list (option outcome);   (* promises returned by run / read *)
  handlers : list (option outcome);  (* promises returned by callers' handlers *)
  wrappers : list (option outcome);  (* promises of the write wrapper *)
  batches : list bool;               (* promises of batch executors: resolved? *)
  vvvs : list bool;                  (* promises of vvvHandler(): resolved? *)
  reactions : list (source * callback);
  heap : list (list AsyncRunnable);  (* the fxList arrays, by address *)
  trace : list obs }.

Definition init : World :=
  {| lock := {| mutex := {| running := false; queue := [] |};
                remaining := 0; tailFxList := None; batchDone := None |};
     callers := []; handlers := []; wrappers := []; batches := []; vvvs := [];
     reactions := []; heap := []; trace := [] |}.

(** *** Field updates *)

Definition set_lock (l : RwLock) (w : World) : World :=
  {| lock := l; callers := callers w; handlers := handlers w;
     wrappers := wrappers w; batches := batches w; vvvs := vvvs w;
     reactions := reactions w; heap := heap w; trace := trace w |}.

Definition set_mutex (m : Mutex) (w : World) : World :=
  set_lock {| mutex := m; remaining := remaining (lock w);
              tailFxList := tailFxList (lock w);
              batchDone := batchDone (lock w) |} w.

Definition set_running (b : bool) (w : World) : World :=
  set_mutex {| running := b; queue := queue (mutex (lock w)) |} w.

Definition set_queue (q : list Runnable) (w : World) : World :=
  set_mutex {| running := running (mutex (lock w)); queue := q |} w.

Definition set_remaining (n : Z) (w : World) : World :=
  set_lock {| mutex := mutex (lock w); remaining := n;
              tailFxList := tailFxList (lock w);
              batchDone := batchDone (lock w) |} w.

Definition set_tailFxList (t : option nat) (w : World) : World :=
  set_lock {| mutex := mutex (lock w); remaining := remaining (lock w);
              tailFxList := t; batchDone := batchDone (lock w) |} w.

Definition set_batchDone (b : option nat) (w : World) : World :=
  set_lock {| mutex := mutex (lock w); remaining := remaining (lock w);
              tailFxList := tailFxList (lock w); batchDone := b |} w.

Definition set_callers (x : list (option outcome)) (w : World) : World :=
  {| lock := lock w; callers := x; handlers := handlers w;
     wrappers := wrappers w; batches := batches w; vvvs := vvvs w;
     reactions := reactions w; heap := heap w; trace := trace w |}.

Definition set_handlers (x : list (option outcome)) (w : World) : World :=
  {| lock := lock w; callers := callers w; handlers := x;
     wrappers := wrappers w; batches := batches w; vvvs := vvvs w;
     reactions := reactions w; heap := heap w; trace := trace w |}.

Definition set_wrappers (x : list (option outcome)) (w : World) : World :=
  {| lock := lock w; callers := callers w; handlers := handlers w;
     wrappers := x; batches := batches w; vvvs := vvvs w;
     reactions := reactions w; heap := heap w; trace := trace w |}.

Definition set_batches (x : list bool) (w : World) : World :=
  {| lock := lock w; callers := callers w; handlers := handlers w;
     wrappers := wrappers w; batches := x; vvvs := vvvs w;
     reactions := reactions w; heap := heap w; trace := trace w |}.

Definition set_vvvs (x : list bool) (w : World) : World :=
  {| lock := lock w; callers := callers w; handlers := handlers w;
     wrappers := wrappers w; batches := batches w; vvvs := x;
     reactions := reactions w; heap := heap w; trace := trace w |}.

Definition set_reactions (x : list (source * callback)) (w : World) : World :=
  {| lock := lock w; callers := callers w; handlers := handlers w;
     wrappers := wrappers w; batches := batches w; vvvs := vvvs w;
     reactions := x; heap := heap w; trace := trace w |}.

Definition set_heap (x : list (list AsyncRunnable)) (w : World) : World :=
  {| lock := lock w; callers := callers w; handlers := handlers w;
     wrappers := wrappers w; batches := batches w; vvvs := vvvs w;
     reactions := reactions w; heap := x; trace := trace w |}.

Definition log (o : obs) (w : World) : World :=
  {| lock := lock w; callers := callers w; handlers := handlers w;
     wrappers := wrappers w; batches := batches w; vvvs := vvvs w;
     reactions := reactions w; heap := heap w; trace := trace w ++ [o] |}.

(** ** The promise runtime *)

(** A throwing statement either completes or throws; the state reached at
    the throw is kept, since whatever catches the exception continues
    from it. *)
Inductive completion :=
| Normal (w : World)
| Throw (e : jsval) (w : World).

(** [new Promise(..)] in [run] / [read]: a fresh pending caller promise. *)
Definition new_caller (w : World) : nat * World :=
  (length (callers w), set_callers (callers w ++ [None]) w).

(** [resolve(v)] / [reject(e)] of a caller promise: settles it if it is
    still pending, does nothing otherwise. *)
Definition settle (p : nat) (o : outcome) (w : World) : World :=
  let w := log (ObsSettle p o) w in
  match callers w !! p with
  | Some None => set_callers (<[p := Some o]> (callers w)) w
  | _ => w
  end.

(** [.then(..)] / [await]: registers a reaction. *)
Definition add_reaction (s : source) (cb : callback) (w : World) : World :=
  set_reactions (reactions w ++ [(s, cb)]) w.

(** [handler(this.value)] for a caller's handler. *)
Definition call_handler (h : nat) (w : World) : nat * World :=
  let hp := length (handlers w) in
  (hp, log (ObsInvoke h hp) (set_handlers (handlers w ++ [None]) w)).

(** [vvvHandler()], lines 179-185: an async function; it calls the
    caller's handler at once, suspends at [await], and returns its own
    promise [vp]. *)
Definition call_vvv (fx : AsyncRunnable) (w : World) : nat * World :=
  let vp := length (vvvs w) in
  let w := set_vvvs (vvvs w ++ [false]) w in
  let '(hp, w) := call_handler (v_handler fx) w in
  (vp, add_reaction (OnHandler hp) (ReadAwait (v_promise fx) vp) w).

(** The promise of [vvvHandler()] resolves when its body returns. *)
Definition fulfil_vvv (vp : nat) (w : World) : World :=
  set_vvvs (<[vp := true]> (vvvs w)) w.

(** [this.batchDone()]: the [resolve] function of a batch promise. *)
Definition release (bp : nat) (w : World) : World :=
  log (ObsRelease bp) (set_batches (<[bp := true]> (batches w)) w).

(** ** RwLock: the batch executor, lines 192-211 *)

Definition start_member (fxList : nat) (w : World) (fx : AsyncRunnable) : World :=
  let '(vp, w) := call_vvv fx w in
  add_reaction (OnVvv vp) (BatchMemberDone fxList) w.

Definition batch_executor (fxList bp : nat) (w : World) : World :=
  let w := set_batchDone (Some bp) w in
  let members := default [] (heap w !! fxList) in
  let w := set_remaining (Z.of_nat (length members)) w in
  foldl (start_member fxList) w members.

(** ** Mutex *)

(** [handler(this.value)] at line 83, by kind of handler; returns what the
    [.then] of line 84 is attached to. *)
Definition call_work (h : Handler) (w : World) : source * World :=
  let w := log (ObsEnter h) w in
  match h with
  | HUser h =>
      let '(hp, w) := call_handler h w in (OnHandler hp, w)
  | HWrite h =>
      let wp := length (wrappers w) in
      let w := set_wrappers (wrappers w ++ [None]) w in
      let '(hp, w) := call_handler h w in
      (OnWrapper wp, add_reaction (OnHandler hp) (WriteAwait wp) w)
  | HBatch fxList =>
      let bp := length (batches w) in
      let w := set_batches (batches w ++ [false]) w in
      (OnBatch bp, batch_executor fxList bp w)
  end.

(** The body of the arrow function of lines 82-94. *)
Definition call_runnable (fx : Runnable) (w : World) : World :=
  let '(s, w) := call_work (r_handler fx) w in
  add_reaction s (RunSettled (r_promise fx)) w.

Definition next (w : World) : completion :=
  if running (mutex (lock w)) then
    let e := VStr "call to next() while still running" in
    Throw e (log (ObsThrow e) w)
  else
    match queue (mutex (lock w)) with
    | [] => Normal w
    | fx :: rest =>
        let w := set_queue rest w in
        let w := set_running true w in
        Normal (call_runnable fx w)
    end.

(** [run]: an exception in the executor of [new Promise] rejects the
    promise being built. *)
Definition run (handler : Handler) (w : World) : nat * World :=
  let '(p, w) := new_caller w in
  let w := set_queue (queue (mutex (lock w)) ++
                      [{| r_handler := handler; r_promise := p |}]) w in
  let w := log (ObsEnqueue handler) w in
  let c := if negb (running (mutex (lock w))) then next w else Normal w in
  (p, match c with
      | Normal w => w
      | Throw e w => settle p (Rejected e) w
      end).

(** The [.then] callback of lines 84-88. *)
Definition run_then (p : nat) (ret : jsval) (w : World) : completion :=
  let w := settle p (Fulfilled ret) w in
  let w := set_running false w in
  next w.

(** The [.catch] callback of lines 89-93. *)
Definition run_catch (p : nat) (err : jsval) (w : World) : completion :=
  let w := settle p (Rejected err) w in
  let w := set_running false w in
  next w.

Definition unhandled (c : completion) : World :=
  match c with
  | Normal w => w
  | Throw e w => log (ObsUnhandled e) w
  end.

(** [handler(..).then(A).catch(B)]: [B] also catches what [A] throws. *)
Definition run_settled (p : nat) (o : outcome) (w : World) : World :=
  match o with
  | Fulfilled ret =>
      match run_then p ret w with
      | Normal w => w
      | Throw e w => unhandled (run_catch p e w)
      end
  | Rejected err => unhandled (run_catch p err w)
  end.

Definition isIdle (w : World) : bool := negb (running (mutex (lock w))).

Definition getQueueLength (w : World) : nat := length (queue (mutex (lock w))).

(** ** RwLock *)

Definition write (handler : nat) (w : World) : nat * World :=
  let w := set_tailFxList None w in
  run (HWrite handler) w.

(** The [.then] callback of lines 197-209. *)
Definition batch_member_done (fxList : nat) (w : World) : completion :=
  let w := set_remaining (remaining (lock w) - 1)%Z w in
  if (remaining (lock w) =? 0)%Z then
    let w := if decide (tailFxList (lock w) = Some fxList)
             then set_tailFxList None w else w in
    match batchDone (lock w) with
    | None =>
        let e := VStr "batchDone() should be set during mutex lock by read batch" in
        Throw e (log (ObsThrow e) w)
    | Some bd => Normal (release bd w)
    end
  else Normal w.

(** The [.then] callback of lines 223-236. *)
Definition joined_member_done (fxList : nat) (w : World) : completion :=
  let w := set_remaining (remaining (lock w) - 1)%Z w in
  if (remaining (lock w) =? 0)%Z then
    let w := if decide (tailFxList (lock w) = Some fxList)
             then set_tailFxList None w else w in
    match batchDone (lock w) with
    | None =>
        let e := VStr "batchDone() should be set during mutex lock by read batch" in
        Throw e (log (ObsThrow e) w)
    | Some bd => Normal (release bd w)
    end
  else Normal w.

Definition read (handler : nat) (w : World) : nat * World :=
  let '(p, w) := new_caller w in
  let vvvHandler := {| v_handler := handler; v_promise := p |} in
  (p, match tailFxList (lock w) with
      | None =>
          let fxList := length (heap w) in
          let w := set_heap (heap w ++ [[vvvHandler]]) w in
          let w := set_tailFxList (Some fxList) w in
          snd (run (HBatch fxList) w)
      | Some tail =>
          if 0 <? getQueueLength w then
            set_heap (alter (λ l, l ++ [vvvHandler]) tail (heap w)) w
          else
            let w := set_remaining (remaining (lock w) + 1)%Z w in
            let fxList := tail in
            let '(vp, w) := call_vvv vvvHandler w in
            add_reaction (OnVvv vp) (JoinedMemberDone fxList) w
      end).

(** ** Jobs *)

Inductive call :=
| CRun (h : nat)
| CWrite (h : nat)
| CRead (h : nat).

Inductive event :=
| ECall (c : call)                  (* a caller calls a public method *)
| ESettle (hp : nat) (o : outcome)  (* a handler's promise settles *)
| EFire (i : nat).                  (* the i-th registered reaction runs *)

Definition do_call (c : call) (w : World) : nat * World :=
  match c with
  | CRun h => run (HUser h) w
  | CWrite h => write h w
  | CRead h => read h w
  end.

Definition resolved (b : option bool) : option outcome :=
  match b with
  | Some true => Some (Fulfilled VUndef)
  | _ => None
  end.

(** The outcome a reaction's source has settled with, if any. *)
Definition source_state (s : source) (w : World) : option outcome :=
  match s with
  | OnHandler hp => mjoin (handlers w !! hp)
  | OnWrapper wp => mjoin (wrappers w !! wp)
  | OnBatch bp => resolved (batches w !! bp)
  | OnVvv vp => resolved (vvvs w !! vp)
  end.

(** A [.then(f)] without a rejection handler passes a rejection on. *)
Definition on_fulfilled (f : World → completion) (o : outcome) (w : World) : World :=
  match o with
  | Fulfilled _ => unhandled (f w)
  | Rejected e => log (ObsUnhandled e) w
  end.

Definition fire (cb : callback) (o : outcome) (w : World) : World :=
  match cb with
  | RunSettled p => run_settled p o w
  | WriteAwait wp => set_wrappers (<[wp := Some o]> (wrappers w)) w
  | ReadAwait p vp => fulfil_vvv vp (settle p o w)
  | BatchMemberDone fxList => on_fulfilled (batch_member_done fxList) o w
  | JoinedMemberDone fxList => on_fulfilled (joined_member_done fxList) o w
  end.

Definition step (e : event) (w : World) : option World :=
  match e with
  | ECall c => Some (snd (do_call c w))
  | ESettle hp o =>
      match handlers w !! hp with
      | Some None => Some (set_handlers (<[hp := Some o]> (handlers w)) w)
      | _ => None
      end
  | EFire i =>
      match reactions w !! i with
      | Some (s, cb) =>
          match source_state s w with
          | Some o => Some (fire cb o (set_reactions (delete i (reactions w)) w))
          | None => None
          end
      | None => None
      end
  end.

Fixpoint exec (evs : list event) (w : World) : option World :=
  match evs with
  | [] => Some w
  | e :: evs =>
      match step e w with
      | Some w => exec evs w
      | None => None
      end
  end.

(** Events of a program that only uses the [RwLock] interface: the inner
    mutex is private, so nobody calls its [run] directly. *)
Definition rw_event (e : event) : bool :=
  match e with
  | ECall (CRun _) => false
  | _ => true
  end.

#[global] Arguments settle : simpl never.
#[global] Arguments call_work : simpl never.
#[global] Arguments call_runnable : simpl never.
#[global] Arguments next : simpl never.
#[global] Arguments run : simpl never.
#[global] Arguments run_settled : simpl never.
#[global] Arguments write : simpl never.
#[global] Arguments read : simpl never.
#[global] Arguments batch_member_done : simpl never.
#[global] Arguments joined_member_done : simpl never.
#[global] Arguments fire : simpl never.

(** * Observations *)

(** ** On the trace *)

(** Work items whose handler the mutex has called, oldest first. *)
Definition entered (t : list obs) : list Handler :=
  omap (λ o, match o with ObsEnter h => Some h | _ => None end) t.

(** Work items pushed on the queue of the mutex, oldest first. *)
Definition enqueued (t : list obs) : list Handler :=
  omap (λ o, match o with ObsEnqueue h => Some h | _ => None end) t.

(** Callers' handlers that have been called, oldest first. *)
Definition invoked (t : list obs) : list nat :=
  omap (λ o, match o with ObsInvoke h _ => Some h | _ => None end) t.

(** The caller promises whose [resolve] or [reject] has been called. *)
Definition settles (t : list obs) : list nat :=
  omap (λ o, match o with ObsSettle p _ => Some p | _ => None end) t.

(** Exceptions: [throw] statements that ran and reactions that failed. *)
Definition thrown (t : list obs) : list jsval :=
  omap (λ o, match o with
             | ObsThrow e | ObsUnhandled e => Some e
             | _ => None
             end) t.

(** The trace with the values of settlements forgotten. *)
Definition erase (t : list obs) : list obs :=
  (λ o, match o with
        | ObsSettle p _ => ObsSettle p (Fulfilled VUndef)
        | _ => o
        end) <$> t.

(** The addresses of the batches among some work items. *)
Definition batch_ids (hs : list Handler) : list nat :=
  omap (λ h, match h with HBatch b => Some b | _ => None end) hs.

#[global] Arguments entered : simpl never.
#[global] Arguments enqueued : simpl never.
#[global] Arguments invoked : simpl never.
#[global] Arguments settles : simpl never.
#[global] Arguments thrown : simpl never.
#[global] Arguments erase : simpl never.

(** ** On the registered reactions *)

Definition is_run_settled (r : source * callback) : bool :=
  match r.2 with RunSettled _ => true | _ => false end.

Definition is_member_done (r : source * callback) : bool :=
  match r.2 with BatchMemberDone _ | JoinedMemberDone _ => true | _ => false end.

(** The [fxList] a member's bookkeeping callback has captured. *)
Definition captured (cb : callback) : option nat :=
  match cb with
  | BatchMemberDone b | JoinedMemberDone b => Some b
  | _ => None
  end.

(** Work items whose handler has been called and whose completion
    callback has not run yet. *)
Definition in_flight (w : World) : list (source * callback) :=
  List.filter is_run_settled (reactions w).

(** Read members whose bookkeeping callback has not run yet. *)
Definition members_in_flight (w : World) : nat :=
  length (List.filter is_member_done (reactions w)).

#[global] Arguments in_flight : simpl never.
#[global] Arguments members_in_flight : simpl never.

(** ** On calls *)

(** Events of a program that only uses a [Mutex]. *)
Definition mutex_event (e : event) : bool :=
  match e with
  | ECall (CWrite _) | ECall (CRead _) => false
  | _ => true
  end.

(** The handlers passed to [Mutex.run], in call order. *)
Definition run_calls (evs : list event) : list nat :=
  omap (λ e, match e with ECall (CRun h) => Some h | _ => None end) evs.

(** What a job pushes on the queue of the mutex. *)
Definition submitted (e : event) (w : World) : list Handler :=
  match e with
  | ECall (CRun h) => [HUser h]
  | ECall (CWrite h) => [HWrite h]
  | ECall (CRead h) =>
      match tailFxList (lock w) with
      | None => [HBatch (length (heap w))]
      | Some _ => []
      end
  | _ => []
  end.

Definition handler_of (c : call) : nat :=
  match c with CRun h | CWrite h | CRead h => h end.

(** The callers' handlers a work item calls when it starts. *)
Definition work_handlers (hp : list (list AsyncRunnable)) (h : Handler) : list nat :=
  match h with
  | HUser h | HWrite h => [h]
  | HBatch b => v_handler <$> default [] (hp !! b)
  end.

(** Whether a call finds the lock ready to call its handler at once. *)
Definition starts_now (c : call) (w : World) : bool :=
  match c with
  | CRun _ | CWrite _ => isIdle w
  | CRead _ =>
      match tailFxList (lock w) with
      | None => isIdle w
      | Some _ => negb (0 <? getQueueLength w)
      end
  end.

(** Where the work of a call waits when it cannot start at once: at the
    back of the queue of the mutex, or at the back of the member list of
    the batch being formed. *)
Definition waits (c : call) (w w' : World) : Prop :=
  match c with
  | CRun h =>
      queue (mutex (lock w')) = queue (mutex (lock w)) ++
        [{| r_handler := HUser h; r_promise := length (callers w) |}]
  | CWrite h =>
      queue (mutex (lock w')) = queue (mutex (lock w)) ++
        [{| r_handler := HWrite h; r_promise := length (callers w) |}]
  | CRead h =>
      let vvvHandler := {| v_handler := h; v_promise := length (callers w) |} in
      match tailFxList (lock w) with
      | Some tail =>
          queue (mutex (lock w')) = queue (mutex (lock w)) ∧
          heap w' = alter (λ l, l ++ [vvvHandler]) tail (heap w)
      | None =>
          queue (mutex (lock w')) = queue (mutex (lock w)) ++
            [{| r_handler := HBatch (length (heap w));
                r_promise := S (length (callers w)) |}] ∧
          heap w' = heap w ++ [[vvvHandler]]
      end
  end.

(** C9 as the specification states it: a call defers all execution of
    its handler, so no handler has been called when the call returns. *)
Definition defers_execution (c : call) (w : World) : Prop :=
  invoked (trace (do_call c w).2) = invoked (trace w).

(** The descriptor a read issued in state [w] becomes a member of. *)
Definition joins (w : World) : nat :=
  match tailFxList (lock w) with
  | Some b => b
  | None => length (heap w)
  end.

(** A read issued in state [w] has become a member of the descriptor
    [joins w]: its closure is the last element of the descriptor's list,
    or its bookkeeping callback, which captures the descriptor, is the
    last reaction registered. *)
Definition attached (h : nat) (w : World) : Prop :=
  let vvvHandler := {| v_handler := h; v_promise := length (callers w) |} in
  (∃ ms, heap (read h w).2 !! joins w = Some (ms ++ [vvvHandler])) ∨
  last (reactions (read h w).2)
  = Some (OnVvv (length (vvvs w)), JoinedMemberDone (joins w)).

(** Descriptors created from state [w] on have an address of at least [n]. *)
Definition newer (n : nat) (w : World) : Prop :=
  n ≤ length (heap w) ∧ ∀ b, tailFxList (lock w) = Some b → n ≤ b.

(** Two states that differ at most in the values callers' promises were
    settled with: the lock, the queue, the registered reactions, the
    other promises and the order of everything that happened agree. *)
Definition same_progress (w1 w2 : World) : Prop :=
  lock w1 = lock w2 ∧ handlers w1 = handlers w2 ∧ wrappers w1 = wrappers w2 ∧
  batches w1 = batches w2 ∧ vvvs w1 = vvvs w2 ∧ reactions w1 = reactions w2 ∧
  heap w1 = heap w2 ∧ length (callers w1) = length (callers w2) ∧
  erase (trace w1) = erase (trace w2).

(** * Code in closed form *)

(** What [next] does when the lock is not marked running. *)
Definition next_idle (w : World) : World :=
  match queue (mutex (lock w)) with
  | [] => w
  | fx :: rest => call_runnable fx (set_running true (set_queue rest w))
  end.

(** The state [run] reaches after [this.queue.push]. *)
Definition pushed (h : Handler) (w : World) : World :=
  log (ObsEnqueue h)
    (set_queue (queue (mutex (lock w)) ++
                [{| r_handler := h; r_promise := length (callers w) |}])
       (set_callers (callers w ++ [None]) w)).

(** The reactions and the trace entries the member loop of a batch adds,
    given the next free addresses of the two stores it allocates in. *)
Fixpoint member_reactions (b h0 v0 : nat) (ms : list AsyncRunnable)
  : list (source * callback) :=
  match ms with
  | [] => []
  | fx :: ms =>
      (OnHandler h0, ReadAwait (v_promise fx) v0)
        :: (OnVvv v0, BatchMemberDone b)
        :: member_reactions b (S h0) (S v0) ms
  end.

Fixpoint member_invokes (h0 : nat) (ms : list AsyncRunnable) : list obs :=
  match ms with
  | [] => []
  | fx :: ms => ObsInvoke (v_handler fx) h0 :: member_invokes (S h0) ms
  end.

(** * Invariants *)

(** ** Of the mutex, in every program

    An idle lock has an empty queue; exactly one work item is in flight
    when the lock is marked running and none otherwise; the work items
    begun, followed by those queued, are the work items pushed. *)
Record MInv (w : World) : Prop := {
  m_idle : running (mutex (lock w)) = false → queue (mutex (lock w)) = [];
  m_flight : length (in_flight w) = if running (mutex (lock w)) then 1 else 0;
  m_fifo : entered (trace w) ++ map r_handler (queue (mutex (lock w)))
           = enqueued (trace w) }.

(** ** Of a program that only uses a mutex

    Every work item wraps a caller's handler and begins by calling it,
    every reaction is a completion callback, and each work item that has
    begun has either completed or is in flight. *)
Record UInv (w : World) : Prop := {
  u_queue : Forall (λ fx, ∃ h, r_handler fx = HUser h) (queue (mutex (lock w)));
  u_called : HUser <$> invoked (trace w) = entered (trace w);
  u_reactions : Forall (λ x, is_run_settled x = true) (reactions w);
  u_begun : length (entered (trace w))
            = length (settles (trace w)) + length (reactions w) }.

(** ** Of a program that only uses a read-write lock

    - [r_count]: the counter is the number of members in flight;
    - [r_batch]: while members are in flight the lock is marked running,
      [batchDone] resolves a promise that is still pending, and the
      completion callback of the mutex waits for that promise;
    - [r_tail]: the current descriptor belongs to the work item pushed
      last, which is still queued or has members in flight;
    - [r_heap], [r_fresh]: descriptors are never empty, and the batches
      pushed have distinct, allocated addresses;
    - [r_captured]: a bookkeeping callback waits for the promise of a
      member's closure and has captured the list of the batch begun last. *)
Record RInv (w : World) : Prop := {
  r_count : remaining (lock w) = Z.of_nat (members_in_flight w);
  r_batch : 0 < members_in_flight w →
    running (mutex (lock w)) = true ∧
    ∃ bp, batchDone (lock w) = Some bp ∧ batches w !! bp = Some false ∧
          ∀ x, In x (in_flight w) → x.1 = OnBatch bp;
  r_tail : ∀ b, tailFxList (lock w) = Some b →
    last (enqueued (trace w)) = Some (HBatch b) ∧
    (queue (mutex (lock w)) = [] → 0 < members_in_flight w);
  r_heap : Forall (λ l, l ≠ []) (heap w);
  r_fresh : NoDup (batch_ids (enqueued (trace w))) ∧
            Forall (λ b, b < length (heap w)) (batch_ids (enqueued (trace w)));
  r_captured : ∀ x b, In x (reactions w) → captured x.2 = Some b →
    last (entered (trace w)) = Some (HBatch b) ∧ ∃ vp, x.1 = OnVvv vp }.

(** ** Of every program

    The caller promises a queued work item, a queued member or a pending
    reaction will settle. *)
Definition qref (hp : list (list AsyncRunnable)) (fx : Runnable) : list nat :=
  r_promise fx ::
  match r_handler fx with
  | HBatch b => v_promise <$> default [] (hp !! b)
  | _ => []
  end.

Definition rref (x : source * callback) : list nat :=
  match x.2 with
  | RunSettled p | ReadAwait p _ => [p]
  | _ => []
  end.

Definition refs (w : World) : list nat :=
  (queue (mutex (lock w)) ≫= qref (heap w)) ++ (reactions w ≫= rref).

#[global] Arguments refs : simpl never.

(** - [g_fresh]: the batches pushed have distinct, allocated addresses;
    - [g_done]: [batchDone] is set once a member is in flight, and once
      the work item of the current descriptor has left the queue;
    - [g_valid]: the promises reactions refer to are allocated, and a
      bookkeeping callback waits for the promise of a member's closure;
    - [g_refs]: every caller promise is settled by one closure only, and
      is pending as long as that closure has not run. *)
Record GInv (w : World) : Prop := {
  g_fresh : NoDup (batch_ids (enqueued (trace w))) ∧
            Forall (λ b, b < length (heap w)) (batch_ids (enqueued (trace w)));
  g_done : (0 < members_in_flight w → is_Some (batchDone (lock w))) ∧
           ∀ b, tailFxList (lock w) = Some b →
                In (HBatch b) (map r_handler (queue (mutex (lock w)))) ∨
                is_Some (batchDone (lock w));
  g_valid : (∀ s cb, In (s, cb) (reactions w) →
               match cb with
               | ReadAwait _ vp => vp < length (vvvs w)
               | WriteAwait wp => wp < length (wrappers w)
               | BatchMemberDone _ | JoinedMemberDone _ => ∃ vp, s = OnVvv vp
               | RunSettled _ => True
               end) ∧
            ∀ bp, batchDone (lock w) = Some bp → bp < length (batches w);
  g_refs : NoDup (refs w) ∧ ∀ p, p ∈ refs w → callers w !! p = Some None }.

(** ** Frames *)

(** The part of the state the invariant of the mutex reads. *)
Definition same_mutex_view (w w' : World) : Prop :=
  mutex (lock w') = mutex (lock w) ∧
  in_flight w' = in_flight w ∧
  entered (trace w') = entered (trace w) ∧
  enqueued (trace w') = enqueued (trace w).

(** The part of the state the invariant of the read-write lock reads. *)
Definition same_rw_view (w w' : World) : Prop :=
  lock w' = lock w ∧ batches w' = batches w ∧ reactions w' = reactions w ∧
  heap w' = heap w ∧ entered (trace w') = entered (trace w) ∧
  enqueued (trace w') = enqueued (trace w).

(** A weaker frame: reactions may be deleted as long as neither kind of
    counted reaction is. *)
Definition rw_view_sub (w w' : World) : Prop :=
  lock w' = lock w ∧ batches w' = batches w ∧ heap w' = heap w ∧
  entered (trace w') = entered (trace w) ∧
  enqueued (trace w') = enqueued (trace w) ∧
  in_flight w' = in_flight w ∧
  members_in_flight w' = members_in_flight w ∧
  ∀ x, In x (reactions w') → In x (reactions w).

(** * Further observations *)

(** The handlers passed to [run], [write] and [read], in call order. *)
Definition call_handlers (evs : list event) : list nat :=
  omap (λ e, match e with ECall c => Some (handler_of c) | _ => None end) evs.

(** The callers' handlers the queued work items will call, in the order
    in which they will call them. *)
Definition waiting (w : World) : list nat :=
  queue (mutex (lock w)) ≫= (λ fx, work_handlers (heap w) (r_handler fx)).

#[global] Arguments waiting : simpl never.

(** The handlers passed to [write], in call order. *)
Definition write_calls (evs : list event) : list nat :=
  omap (λ e, match e with ECall (CWrite h) => Some h | _ => None end) evs.

(** The handlers of the writes among some work items. *)
Definition writes_of (hs : list Handler) : list nat :=
  omap (λ h, match h with HWrite h => Some h | _ => None end) hs.

(** A program uses a lock through its interface when it only calls the
    methods of a read-write lock, or only those of a mutex. *)
Definition lock_program (evs : list event) : bool :=
  forallb rw_event evs || forallb mutex_event evs.

(** The jobs such a program may run in a given state: [run] is called on
    a mutex that belongs to no read-write lock, so no batch is being
    formed. *)
Definition permits (e : event) (w : World) : Prop :=
  rw_event e = true ∨ (mutex_event e = true ∧ tailFxList (lock w) = None).

(** A handler is executing from the moment it is called until the promise
    it returned settles. *)
Definition executing (w : World) : Prop :=
  ∃ hp, handlers w !! hp = Some None.

(** C8 as the specification states it: [isIdle()] is false exactly while
    a handler is executing. *)
Definition busy_exactly_while_executing (w : World) : Prop :=
  isIdle w = false ↔ executing w.

(** ** No caller is forgotten

    Every caller promise that is still pending is one that a queued work
    item, a queued member or a registered reaction will settle. *)
Definition PInv (w : World) : Prop :=
  ∀ p, callers w !! p = Some None → p ∈ refs w.

(** ** Every continuation has what it waits for

    The promise of the lock's own that a continuation settles when it
    runs: the promise of the wrapper of a write, or the promise of the
    closure of a read. *)
Definition resolves (x : source * callback) : option source :=
  match x.2 with
  | WriteAwait wp => Some (OnWrapper wp)
  | ReadAwait _ vp => Some (OnVvv vp)
  | _ => None
  end.

(** A registered reaction is well formed when the promise it waits for
    exists and will be settled: a handler's promise by the handler; the
    promise of a wrapper or of a closure, unless it has settled already,
    by the continuation that awaits the handler inside it; the promise of
    a batch, unless it is resolved already, by the last of the members in
    flight.  A continuation that awaits the handler inside a wrapper or a
    closure has a pending promise to settle, and somebody waits for it. *)
Definition well_formed (w : World) (x : source * callback) : Prop :=
  match x with
  | (OnHandler hp, RunSettled _) => hp < length (handlers w)
  | (OnHandler hp, WriteAwait wp) =>
      hp < length (handlers w) ∧ wrappers w !! wp = Some None ∧
      ∃ p, In (OnWrapper wp, RunSettled p) (reactions w)
  | (OnHandler hp, ReadAwait _ vp) =>
      hp < length (handlers w) ∧ vvvs w !! vp = Some false ∧
      ∃ cb, In (OnVvv vp, cb) (reactions w)
  | (OnWrapper wp, RunSettled _) =>
      (∃ o, wrappers w !! wp = Some (Some o)) ∨
      ∃ hp, In (OnHandler hp, WriteAwait wp) (reactions w)
  | (OnBatch bp, RunSettled _) =>
      batches w !! bp = Some true ∨
      (batches w !! bp = Some false ∧ 0 < members_in_flight w)
  | (OnVvv vp, (BatchMemberDone _ | JoinedMemberDone _)) =>
      vvvs w !! vp = Some true ∨
      ∃ hp p, In (OnHandler hp, ReadAwait p vp) (reactions w)
  | _ => False
  end.

(** - [l_reactions]: every registered reaction is well formed;
    - [l_resolves]: no two continuations settle the same promise;
    - [l_pending]: somebody waits for every handler that is still
      running. *)
Record LInv (w : World) : Prop := {
  l_reactions : ∀ x, In x (reactions w) → well_formed w x;
  l_resolves : NoDup (omap resolves (reactions w));
  l_pending : ∀ hp, handlers w !! hp = Some None →
                    ∃ cb, In (OnHandler hp, cb) (reactions w) }.

(** ** Work left

    The jobs that run when no caller makes a call. *)
Definition call_free (e : event) : bool :=
  match e with ECall _ => false | _ => true end.

(** The number of promises of a store that have not settled. *)
Definition unsettled {A} (ps : list (option A)) : nat :=
  length (List.filter (λ o, match o with None => true | Some _ => false end) ps).

(** The jobs a queued work item stands for.  A caller's handler: its
    settlement and the completion callback.  A write: the continuation of
    the wrapper as well.  A batch: the completion callback and, for each
    member, the settlement of its handler, the continuation of its closure
    and its bookkeeping callback. *)
Definition weight (hp : list (list AsyncRunnable)) (fx : Runnable) : nat :=
  match r_handler fx with
  | HUser _ => 2
  | HWrite _ => 3
  | HBatch b => 1 + 3 * length (default [] (hp !! b))
  end.

(** The number of jobs left to run if no further call is made: one for
    each registered reaction, one for each handler still running, and
    those of the queued work items. *)
Definition jobs_left (w : World) : nat :=
  length (reactions w) + unsettled (handlers w)
  + sum_list (weight (heap w) <$> queue (mutex (lock w))).

#[global] Arguments jobs_left : simpl never.
#[global] Arguments unsettled : simpl never.
#[global] Arguments weight : simpl never.

(** ** Settlements

    The caller promises that have settled are those whose [resolve] or
    [reject] the lock has called. *)
Definition SInv (w : World) : Prop :=
  NoDup (settles (trace w)) ∧
  ∀ p, p ∈ settles (trace w) ↔ ∃ o, callers w !! p = Some (Some o).

(** ** Results

    The handlers called, each with the promise it returned, oldest
    first. *)
Definition invocations (t : list obs) : list (nat * nat) :=
  omap (λ o, match o with ObsInvoke h hp => Some (h, hp) | _ => None end) t.

#[global] Arguments invocations : simpl never.

(** The promises the calls of a program return, in call order. *)
Fixpoint returned (evs : list event) (w : World) : list nat :=
  match evs with
  | [] => []
  | e :: evs =>
      match e with ECall c => [(do_call c w).1] | _ => [] end ++
      match step e w with Some w' => returned evs w' | None => [] end
  end.

(** The promises handed to the callers whose work waits in the queue, in
    the order in which the lock will call their handlers. *)
Definition waiting_promises (w : World) : list nat :=
  queue (mutex (lock w)) ≫= (λ fx,
    match r_handler fx with
    | HBatch b => v_promise <$> default [] (heap w !! b)
    | _ => [r_promise fx]
    end).

#[global] Arguments waiting_promises : simpl never.

(** The caller promise a callback settles with the outcome it receives. *)
Definition settled_by (cb : callback) : option nat :=
  match cb with
  | RunSettled p | ReadAwait p _ => Some p
  | _ => None
  end.

(** The promises [P] returned by the calls made so far, in call order,
    and the state of the lock:
    - [res_started]: the handlers of the first calls have been called,
      one handler promise each, and the other calls wait in the queue;
    - [res_direct]: a callback that waits for the [k]-th handler promise
      and settles a caller promise settles the promise of the [k]-th call;
    - [res_wrapped]: the completion callback of a write settles the
      promise of the call whose handler the wrapper awaits, and the
      wrapper settles as that handler did;
    - [res_internal]: the promise [run] returns for a batch is handed to
      no caller;
    - [res_bound]: the promises returned are distinct and allocated;
    - [res_result]: the promise of the [k]-th call, once settled, holds
      the outcome of the [k]-th handler promise. *)
Record Res (P : list nat) (w : World) : Prop := {
  res_started : ∃ st, P = st ++ waiting_promises w ∧
                      length st = length (handlers w);
  res_direct : ∀ hp cb p, In (OnHandler hp, cb) (reactions w) →
                          settled_by cb = Some p → P !! hp = Some p;
  res_wrapped : ∀ wp p, In (OnWrapper wp, RunSettled p) (reactions w) →
    ∃ hp, P !! hp = Some p ∧
      (In (OnHandler hp, WriteAwait wp) (reactions w) ∨
       ∃ o, wrappers w !! wp = Some (Some o) ∧ handlers w !! hp = Some (Some o));
  res_internal :
    (∀ bp p, In (OnBatch bp, RunSettled p) (reactions w) → p ∉ P) ∧
    (∀ fx b, fx ∈ queue (mutex (lock w)) → r_handler fx = HBatch b →
             r_promise fx ∉ P);
  res_bound : NoDup P ∧ ∀ p, p ∈ P → p < length (callers w);
  res_result : ∀ k p o, P !! k = Some p → callers w !! p = Some (Some o) →
                        handlers w !! k = Some (Some o) }.

(** * Ref

    [Ref<T>] objects are mutable and passed by reference, so they live in
    a store and are named by their address: two holders of one address
    see each other's updates.  [setValue] returns [this]. *)
Module Ref.
Section Ref.
Context {T : Type}.

Record Ref := { value : T }.

Definition store := list Ref.

(** [new Ref(value)] *)
Definition new (v : T) (s : store) : nat * store :=
  (length s, s ++ [{| value := v |}]).

Definition getValue (this : nat) (s : store) : option T :=
  value <$> s !! this.

Definition setValue (this : nat) (v : T) (s : store) : nat * store :=
  (this, <[this := {| value := v |}]> s).

End Ref.
End Ref.

(** * The descriptor of the batch pushed last

    The batch pushed last is the current one until a write supersedes it
    or its last member completes. *)
Definition TInv (w : World) : Prop :=
  ∀ b, last (enqueued (trace w)) = Some (HBatch b) →
       tailFxList (lock w) = Some b ∨
       (In (HBatch b) (entered (trace w)) ∧ members_in_flight w = 0).

(** * Proofs *)

(** ** Lists *)

Lemma filter_delete_false {A} (f : A → bool) (l : list A) i x :
  l !! i = Some x → f x = false →
  List.filter f (delete i l) = List.filter f l.
Proof.
  intros Hi Hf. rewrite <- (take_drop_middle l i x Hi) at 2.
  rewrite delete_take_drop, !List.filter_app. cbn. by rewrite Hf.
Qed.

Lemma filter_delete_true {A} (f : A → bool) (l : list A) i x :
  l !! i = Some x → f x = true →
  ∃ l1 l2, List.filter f l = l1 ++ x :: l2 ∧
           List.filter f (delete i l) = l1 ++ l2.
Proof.
  intros Hi Hf. exists (List.filter f (take i l)), (List.filter f (drop (S i) l)).
  rewrite <- (take_drop_middle l i x Hi) at 1.
  rewrite delete_take_drop, !List.filter_app. cbn. by rewrite Hf.
Qed.

(** ** The member loop of a batch, in closed form *)

Lemma start_members_eq b ms w :
  foldl (start_member b) w ms =
  {| lock := lock w; callers := callers w;
     handlers := handlers w ++ replicate (length ms) None;
     wrappers := wrappers w; batches := batches w;
     vvvs := vvvs w ++ replicate (length ms) false;
     reactions := reactions w ++
       member_reactions b (length (handlers w)) (length (vvvs w)) ms;
     heap := heap w;
     trace := trace w ++ member_invokes (length (handlers w)) ms |}.
Proof.
  revert w. induction ms as [|fx ms IH]; intros w.
  - destruct w; cbn. by rewrite !app_nil_r.
  - cbn [foldl]. rewrite IH. destruct w; cbn.
    rewrite !length_app, !Nat.add_1_r. cbn. by rewrite <- !app_assoc.
Qed.

Lemma member_reactions_run_settled b h0 v0 ms :
  List.filter is_run_settled (member_reactions b h0 v0 ms) = [].
Proof. revert h0 v0. induction ms; intros; cbn; auto. Qed.

Lemma member_reactions_member_done b h0 v0 ms :
  length (List.filter is_member_done (member_reactions b h0 v0 ms)) = length ms.
Proof. revert h0 v0. induction ms; intros; cbn; auto. Qed.

Lemma member_invokes_entered h0 ms : entered (member_invokes h0 ms) = [].
Proof. unfold entered. revert h0. induction ms; intros; cbn; auto. Qed.

Lemma member_invokes_enqueued h0 ms : enqueued (member_invokes h0 ms) = [].
Proof. unfold enqueued. revert h0. induction ms; intros; cbn; auto. Qed.

Lemma member_invokes_thrown h0 ms : thrown (member_invokes h0 ms) = [].
Proof. unfold thrown. revert h0. induction ms; intros; cbn; auto. Qed.

Lemma entered_app t1 t2 : entered (t1 ++ t2) = entered t1 ++ entered t2.
Proof. apply omap_app. Qed.

Lemma enqueued_app t1 t2 : enqueued (t1 ++ t2) = enqueued t1 ++ enqueued t2.
Proof. apply omap_app. Qed.

Lemma thrown_app t1 t2 : thrown (t1 ++ t2) = thrown t1 ++ thrown t2.
Proof. apply omap_app. Qed.

Lemma invoked_app t1 t2 : invoked (t1 ++ t2) = invoked t1 ++ invoked t2.
Proof. apply omap_app. Qed.

Lemma member_invokes_invoked h0 ms :
  invoked (member_invokes h0 ms) = v_handler <$> ms.
Proof.
  unfold invoked. revert h0. induction ms as [|fx ms IH]; intros; cbn; [done|].
  by rewrite IH.
Qed.

Lemma invoked_cons o t :
  invoked (o :: t) =
  match o with ObsInvoke h _ => h :: invoked t | _ => invoked t end.
Proof. by destruct o. Qed.

Lemma invoked_nil : invoked [] = [].
Proof. done. Qed.

Lemma settles_app t1 t2 : settles (t1 ++ t2) = settles t1 ++ settles t2.
Proof. apply omap_app. Qed.

Lemma settles_cons o t :
  settles (o :: t) =
  match o with ObsSettle p _ => p :: settles t | _ => settles t end.
Proof. by destruct o. Qed.

Lemma settles_nil : settles [] = [].
Proof. done. Qed.

Lemma entered_cons o t :
  entered (o :: t) =
  match o with ObsEnter h => h :: entered t | _ => entered t end.
Proof. by destruct o. Qed.

Lemma enqueued_cons o t :
  enqueued (o :: t) =
  match o with ObsEnqueue h => h :: enqueued t | _ => enqueued t end.
Proof. by destruct o. Qed.

Lemma thrown_cons o t :
  thrown (o :: t) =
  match o with
  | ObsThrow e | ObsUnhandled e => e :: thrown t
  | _ => thrown t
  end.
Proof. by destruct o. Qed.

Lemma entered_nil : entered [] = [].
Proof. done. Qed.
Lemma enqueued_nil : enqueued [] = [].
Proof. done. Qed.
Lemma thrown_nil : thrown [] = [].
Proof. done. Qed.

Create Rewrite HintDb trace_db.
#[global] Hint Rewrite entered_app enqueued_app thrown_app
  entered_cons enqueued_cons thrown_cons entered_nil enqueued_nil thrown_nil
  member_invokes_entered member_invokes_enqueued member_invokes_thrown
  invoked_app invoked_cons invoked_nil member_invokes_invoked
  settles_app settles_cons settles_nil
  : trace_db.

Ltac simpl_trace := autorewrite with trace_db in *; cbn [app] in *;
  rewrite ?app_nil_r in *.

(** ** Mutex: effect of starting a work item *)

Lemma call_runnable_mutex fx w :
  let w' := call_runnable fx w in
  mutex (lock w') = mutex (lock w) ∧
  in_flight w' = in_flight w ++ [((call_work (r_handler fx) w).1, RunSettled (r_promise fx))] ∧
  entered (trace w') = entered (trace w) ++ [r_handler fx] ∧
  enqueued (trace w') = enqueued (trace w).
Proof.
  destruct fx as [[h|h|b] p]; unfold call_runnable, call_work, in_flight; cbn.
  - rewrite !List.filter_app. simpl_trace. cbn.
    by rewrite ?app_nil_r, <- ?app_assoc.
  - rewrite !List.filter_app. simpl_trace. cbn.
    by rewrite ?app_nil_r, <- ?app_assoc.
  - unfold batch_executor. rewrite start_members_eq. cbn.
    rewrite !List.filter_app, member_reactions_run_settled. simpl_trace.
    cbn. by rewrite ?app_nil_r.
Qed.

(** ** Frame lemmas for [settle] *)

Lemma settle_lock p o w : lock (settle p o w) = lock w.
Proof. unfold settle. by repeat case_match. Qed.
Lemma settle_handlers p o w : handlers (settle p o w) = handlers w.
Proof. unfold settle. by repeat case_match. Qed.
Lemma settle_wrappers p o w : wrappers (settle p o w) = wrappers w.
Proof. unfold settle. by repeat case_match. Qed.
Lemma settle_batches p o w : batches (settle p o w) = batches w.
Proof. unfold settle. by repeat case_match. Qed.
Lemma settle_vvvs p o w : vvvs (settle p o w) = vvvs w.
Proof. unfold settle. by repeat case_match. Qed.
Lemma settle_reactions p o w : reactions (settle p o w) = reactions w.
Proof. unfold settle. by repeat case_match. Qed.
Lemma settle_heap p o w : heap (settle p o w) = heap w.
Proof. unfold settle. by repeat case_match. Qed.
Lemma settle_trace p o w : trace (settle p o w) = trace w ++ [ObsSettle p o].
Proof. unfold settle. by repeat case_match. Qed.
Lemma settle_callers_length p o w :
  length (callers (settle p o w)) = length (callers w).
Proof. unfold settle. repeat case_match; cbn; by rewrite ?length_insert. Qed.

(** ** The mutex invariant is preserved by every job *)

Lemma MInv_frame w w' : same_mutex_view w w' → MInv w → MInv w'.
Proof.
  intros (Hm & Hf & He & Hq) [H1 H2 H3].
  split; rewrite ?Hm, ?Hf, ?He, ?Hq; auto.
Qed.

Lemma same_mutex_view_settle p o w : same_mutex_view w (settle p o w).
Proof.
  unfold same_mutex_view, in_flight.
  rewrite settle_lock, settle_reactions, settle_trace. by simpl_trace.
Qed.

Lemma next_MInv w :
  running (mutex (lock w)) = false →
  in_flight w = [] →
  entered (trace w) ++ map r_handler (queue (mutex (lock w))) = enqueued (trace w) →
  ∃ w', next w = Normal w' ∧ MInv w'.
Proof.
  intros Hr Hf Hq. unfold next. rewrite Hr.
  destruct (queue (mutex (lock w))) as [|fx rest] eqn:Eq.
  - eexists; split; [done|]. split; rewrite ?Hr, ?Hf, ?Eq; auto.
  - eexists; split; [done|].
    destruct (call_runnable_mutex fx (set_running true (set_queue rest w)))
      as (Hm & Hfl & He & Hen).
    unfold in_flight in *. cbn in Hm, Hfl, He, Hen. rewrite Hf in Hfl.
    split; unfold in_flight; rewrite ?Hm, ?Hfl, ?He, ?Hen; cbn; try done.
    rewrite <- Hq. cbn. by rewrite <- app_assoc.
Qed.

Lemma run_MInv h w : MInv w → MInv (run h w).2.
Proof.
  intros [H1 H2 H3]. unfold run. cbn.
  destruct (running (mutex (lock w))) eqn:Hr; cbn.
  - split; cbn; rewrite ?Hr; try done.
    simpl_trace. rewrite map_app, app_assoc, H3. done.
  - rewrite (H1 eq_refl) in *. cbn in *.
    edestruct (next_MInv (log (ObsEnqueue h)
       (set_queue [{| r_handler := h; r_promise := length (callers w) |}]
          (set_callers (callers w ++ [None]) w)))) as (w' & Hn & Hinv).
    + cbn. done.
    + unfold in_flight in *. cbn. by destruct (List.filter _ _).
    + cbn. simpl_trace. by rewrite H3.
    + unfold next in Hn |- *. cbn in Hn |- *. rewrite Hr in Hn |- *.
      cbn in Hn |- *. injection Hn as <-. done.
Qed.

Ltac solve_mview :=
  unfold same_mutex_view, in_flight; cbn;
  rewrite ?List.filter_app; simpl_trace; cbn; rewrite ?app_nil_r; auto.

Lemma same_mutex_view_trans w1 w2 w3 :
  same_mutex_view w1 w2 → same_mutex_view w2 w3 → same_mutex_view w1 w3.
Proof.
  intros (A1 & A2 & A3 & A4) (B1 & B2 & B3 & B4).
  repeat split; congruence.
Qed.

Lemma same_mutex_view_member_done f b o w :
  f = batch_member_done ∨ f = joined_member_done →
  same_mutex_view w (on_fulfilled (f b) o w).
Proof.
  intros [-> | ->];
    unfold on_fulfilled, batch_member_done, joined_member_done, unhandled, release;
    repeat case_match; simplify_eq; solve_mview.
Qed.

Lemma run_settled_MInv p o w :
  in_flight w = [] →
  entered (trace w) ++ map r_handler (queue (mutex (lock w))) = enqueued (trace w) →
  MInv (run_settled p o w).
Proof.
  intros Hf Hq.
  assert (∀ o', ∃ w', next (set_running false (settle p o' w)) = Normal w' ∧ MInv w')
    as Hnext.
  { intros o'. apply next_MInv.
    - done.
    - unfold in_flight in *. cbn. by rewrite settle_reactions.
    - cbn. rewrite settle_lock, settle_trace. simpl_trace. done. }
  unfold run_settled, run_then, run_catch.
  destruct o as [v|e].
  - destruct (Hnext (Fulfilled v)) as (w' & -> & Hinv). done.
  - destruct (Hnext (Rejected e)) as (w' & -> & Hinv). done.
Qed.

Lemma in_flight_singleton w i x :
  MInv w → reactions w !! i = Some x → is_run_settled x = true →
  running (mutex (lock w)) = true ∧ in_flight w = [x] ∧
  List.filter is_run_settled (delete i (reactions w)) = [].
Proof.
  intros [_ H2 _] Hi Hx.
  destruct (filter_delete_true _ _ _ _ Hi Hx) as (l1 & l2 & E1 & E2).
  unfold in_flight in *. rewrite E1, length_app in H2. cbn in H2.
  destruct (running (mutex (lock w))); [|lia].
  destruct l1, l2; cbn in H2; try lia.
  rewrite E1, E2. done.
Qed.

Lemma fire_MInv w i s cb o :
  MInv w → reactions w !! i = Some (s, cb) →
  MInv (fire cb o (set_reactions (delete i (reactions w)) w)).
Proof.
  intros Hinv Hi.
  destruct (is_run_settled (s, cb)) eqn:Hrs.
  - destruct cb; try discriminate. unfold fire.
    destruct (in_flight_singleton _ _ _ Hinv Hi Hrs) as (Hr & Hfl & Hdel).
    apply run_settled_MInv.
    + done.
    + cbn. apply Hinv.
  - assert (same_mutex_view w (set_reactions (delete i (reactions w)) w)) as Hfr.
    { unfold same_mutex_view, in_flight. cbn.
      by rewrite (filter_delete_false _ _ _ _ Hi Hrs). }
    eapply MInv_frame; [|exact Hinv].
    eapply same_mutex_view_trans; [exact Hfr|].
    destruct cb; try discriminate; unfold fire.
    + solve_mview.
    + unfold fulfil_vvv. unfold same_mutex_view, in_flight. cbn.
      rewrite settle_lock, settle_reactions, settle_trace. by simpl_trace.
    + apply same_mutex_view_member_done. auto.
    + apply same_mutex_view_member_done. auto.
Qed.

Lemma read_MInv h w : MInv w → MInv (read h w).2.
Proof.
  intros Hinv. unfold read. cbn.
  destruct (tailFxList (lock w)) as [tail|] eqn:Ht; cbn [snd].
  - unfold getQueueLength. cbn. case_match.
    + eapply MInv_frame; [|exact Hinv]. solve_mview.
    + eapply MInv_frame; [|exact Hinv]. solve_mview.
  - apply run_MInv. eapply MInv_frame; [|exact Hinv]. solve_mview.
Qed.

Lemma write_MInv h w : MInv w → MInv (write h w).2.
Proof.
  intros Hinv. unfold write. apply run_MInv.
  eapply MInv_frame; [|exact Hinv]. solve_mview.
Qed.

Lemma step_MInv e w w' : step e w = Some w' → MInv w → MInv w'.
Proof.
  intros Hstep Hinv. destruct e as [[h|h|h]|hp o|i]; cbn in Hstep.
  - injection Hstep as <-. by apply run_MInv.
  - injection Hstep as <-. by apply write_MInv.
  - injection Hstep as <-. by apply read_MInv.
  - repeat case_match; simplify_eq.
    eapply MInv_frame; [|exact Hinv]. solve_mview.
  - repeat case_match; simplify_eq. by eapply fire_MInv.
Qed.

Lemma init_MInv : MInv init.
Proof. by split. Qed.

Lemma exec_MInv evs w w' : exec evs w = Some w' → MInv w → MInv w'.
Proof.
  revert w. induction evs as [|e evs IH]; intros w Hex Hinv; cbn in Hex.
  - by simplify_eq.
  - destruct (step e w) as [w1|] eqn:Hs; [|done].
    eapply IH; [exact Hex|]. by eapply step_MInv.
Qed.

(** ** [run] and [next], unfolded *)

Lemma next_idle_eq w :
  running (mutex (lock w)) = false → next w = Normal (next_idle w).
Proof. intros Hr. unfold next, next_idle. rewrite Hr. by case_match. Qed.

Lemma run_eq h w :
  run h w = (length (callers w),
             if running (mutex (lock w)) then pushed h w
             else next_idle (pushed h w)).
Proof.
  unfold run. cbn. fold (pushed h w).
  destruct (running (mutex (lock w))) eqn:Hr; cbn; [done|].
  by rewrite next_idle_eq.
Qed.

(** ** Members in flight *)

Lemma is_member_done_captured x :
  is_member_done x = true ↔ ∃ b, captured x.2 = Some b.
Proof.
  destruct x as [s []]; cbn; split; try done; try (intros [? ?]; done); eauto.
Qed.

Lemma no_members_no_captured w x b :
  members_in_flight w = 0 → In x (reactions w) → captured x.2 = Some b → False.
Proof.
  unfold members_in_flight. intros H0 Hin Hc.
  assert (In x (List.filter is_member_done (reactions w))) as Hf.
  { apply filter_In. split; [done|]. apply is_member_done_captured. eauto. }
  destruct (List.filter _ _); [done|]. cbn in H0. lia.
Qed.

Lemma idle_no_members w :
  RInv w → running (mutex (lock w)) = false → members_in_flight w = 0.
Proof.
  intros HR Hr. destruct (members_in_flight w) eqn:E; [done|].
  destruct (r_batch w HR) as [Hr' _]; [lia|congruence].
Qed.

Lemma member_reactions_in b h0 v0 ms x b' :
  In x (member_reactions b h0 v0 ms) → captured x.2 = Some b' →
  b' = b ∧ ∃ vp, x.1 = OnVvv vp.
Proof.
  revert h0 v0. induction ms as [|fx ms IH]; intros h0 v0; cbn; [done|].
  intros [<- | [<- | Hin]] Hc; cbn in *; simplify_eq; eauto.
Qed.

(** ** [next] preserves the invariant of the read-write lock *)

Lemma fifo_last_queue w fx :
  entered (trace w) ++ map r_handler [fx] = enqueued (trace w) →
  last (enqueued (trace w)) = Some (r_handler fx).
Proof. intros <-. cbn. apply last_snoc. Qed.

Lemma batch_ids_in hs b : In (HBatch b) hs → In b (batch_ids hs).
Proof.
  intros Hin. apply list_elem_of_In, list_elem_of_omap.
  exists (HBatch b). split; [by apply list_elem_of_In|done].
Qed.

Lemma last_in {A} (l : list A) x : last l = Some x → In x l.
Proof.
  intros Hl. apply last_Some in Hl as [l' ->]. apply in_or_app. right. by left.
Qed.

Lemma batch_members_nonempty w b :
  RInv w → In (HBatch b) (enqueued (trace w)) →
  0 < length (default [] (heap w !! b)).
Proof.
  intros HR Hin. destruct (r_fresh w HR) as [_ Hb].
  rewrite Forall_forall in Hb.
  specialize (Hb b (proj2 (list_elem_of_In _ _) (batch_ids_in _ _ Hin))).
  destruct (lookup_lt_is_Some_2 _ _ Hb) as [l Hl]. rewrite Hl. cbn.
  pose proof (r_heap w HR) as Hne. rewrite Forall_forall in Hne.
  specialize (Hne l (list_elem_of_lookup_2 _ _ _ Hl)).
  destruct l; [done|cbn; lia].
Qed.

Lemma next_idle_RInv w :
  RInv w → running (mutex (lock w)) = false → in_flight w = [] →
  entered (trace w) ++ map r_handler (queue (mutex (lock w))) = enqueued (trace w) →
  RInv (next_idle w).
Proof.
  intros HR Hr Hfl Hq. pose proof (idle_no_members w HR Hr) as H0.
  unfold next_idle. destruct (queue (mutex (lock w))) as [|fx rest] eqn:Eq; [done|].
  pose proof (r_count w HR) as R1. rewrite H0 in R1.
  assert (∀ b, tailFxList (lock w) = Some b → rest = [] → r_handler fx = HBatch b) as Hlast.
  { intros b Hb ->. destruct (r_tail w HR b Hb) as [Hl _].
    rewrite (fifo_last_queue w fx Hq) in Hl. by simplify_eq. }
  assert (In (r_handler fx) (enqueued (trace w))) as Hin.
  { rewrite <- Hq. apply in_or_app. right. cbn. auto. }
  destruct fx as [[h|h|b0] p]; unfold call_runnable, call_work; cbn in *.
  - split; unfold in_flight, members_in_flight in *; cbn.
    + rewrite List.filter_app, length_app. cbn. rewrite H0. done.
    + rewrite List.filter_app, length_app. cbn. lia.
    + intros b Hb. simpl_trace. split; [by apply (r_tail w HR)|].
      intros ->. by specialize (Hlast b Hb eq_refl).
    + apply HR.
    + simpl_trace. apply HR.
    + intros x b [Hin'|[<-|[]]]%in_app_or Hc; [|done].
      by destruct (no_members_no_captured w x b).
  - split; unfold in_flight, members_in_flight in *; cbn.
    + rewrite !List.filter_app, !length_app. cbn. rewrite H0. done.
    + rewrite !List.filter_app, !length_app. cbn. lia.
    + intros b Hb. simpl_trace. split; [by apply (r_tail w HR)|].
      intros ->. by specialize (Hlast b Hb eq_refl).
    + apply HR.
    + simpl_trace. apply HR.
    + intros x b [[Hin'|[<-|[]]]%in_app_or|[<-|[]]]%in_app_or Hc; try done.
      by destruct (no_members_no_captured w x b).
  - pose proof (batch_members_nonempty w b0 HR Hin) as Hne.
    unfold batch_executor. rewrite start_members_eq. cbn.
    split; unfold in_flight, members_in_flight in *; cbn.
    + rewrite !List.filter_app, !length_app, member_reactions_member_done.
      cbn. rewrite H0. f_equal. lia.
    + intros _. split; [done|]. eexists; split; [done|]. split.
      * by rewrite lookup_app_r, Nat.sub_diag.
      * rewrite !List.filter_app, member_reactions_run_settled, Hfl. cbn.
        intros x [<-|[]]. done.
    + intros b Hb. simpl_trace. split; [by apply (r_tail w HR)|].
      intros ->. specialize (Hlast b Hb eq_refl). simplify_eq.
      rewrite !List.filter_app, !length_app, member_reactions_member_done. lia.
    + apply HR.
    + simpl_trace. apply HR.
    + simpl_trace. rewrite last_snoc.
      intros x b [[Hin'|Hin']%in_app_or|[<-|[]]]%in_app_or Hc; try done.
      * by destruct (no_members_no_captured w x b).
      * destruct (member_reactions_in _ _ _ _ _ _ Hin' Hc) as [-> ?]. done.
Qed.

(** ** Every job of a read-write lock program preserves the invariant *)

Lemma RInv_frame w w' : same_rw_view w w' → RInv w → RInv w'.
Proof.
  intros (Hl & Hb & Hr & Hh & He & Hq) [R1 R2 R3 R4 R5 R6].
  split; unfold in_flight, members_in_flight in *;
    rewrite ?Hl, ?Hb, ?Hr, ?Hh, ?He, ?Hq; auto.
Qed.

Lemma batch_ids_app l1 l2 : batch_ids (l1 ++ l2) = batch_ids l1 ++ batch_ids l2.
Proof. apply omap_app. Qed.

Lemma pushed_write_RInv h w :
  RInv w → RInv (pushed (HWrite h) (set_tailFxList None w)).
Proof.
  intros [R1 R2 R3 R4 R5 R6].
  split; unfold pushed, in_flight, members_in_flight in *; cbn; simpl_trace;
    rewrite ?batch_ids_app, ?app_nil_r; cbn; rewrite ?app_nil_r; auto.
  done.
Qed.

Lemma pushed_read_RInv fx cs w :
  RInv w →
  RInv (pushed (HBatch (length (heap w)))
          (set_tailFxList (Some (length (heap w)))
             (set_heap (heap w ++ [[fx]]) (set_callers cs w)))).
Proof.
  intros [R1 R2 R3 R4 R5 R6].
  split; unfold pushed, in_flight, members_in_flight in *; cbn; simpl_trace;
    rewrite ?batch_ids_app, ?app_nil_r; cbn; auto.
  - intros b [= <-]. rewrite last_snoc. split; [done|].
    by destruct (queue _).
  - apply Forall_app. split; [done|]. by apply Forall_singleton.
  - destruct R5 as [Hnd Hlt]. rewrite Forall_forall in Hlt. split.
    + apply NoDup_app. split; [done|]. split; [|apply NoDup_singleton].
      intros x Hx%Hlt Hx'%list_elem_of_singleton. lia.
    + apply Forall_app. rewrite length_app. cbn. split.
      * apply Forall_forall. intros x Hx%Hlt. lia.
      * apply Forall_singleton. lia.
Qed.

Lemma fifo_pushed h w :
  entered (trace w) ++ map r_handler (queue (mutex (lock w))) = enqueued (trace w) →
  entered (trace (pushed h w)) ++ map r_handler (queue (mutex (lock (pushed h w))))
  = enqueued (trace (pushed h w)).
Proof.
  intros Hq. unfold pushed. cbn. simpl_trace.
  by rewrite map_app, app_assoc, Hq.
Qed.

Lemma run_RInv h w :
  MInv w → RInv (pushed h w) → RInv (run h w).2.
Proof.
  intros HM HR. rewrite run_eq. cbn.
  destruct (running (mutex (lock w))) eqn:Hr; [done|].
  apply next_idle_RInv; [done|done| |].
  - pose proof (m_flight w HM) as Hf. rewrite Hr in Hf.
    unfold pushed, in_flight in *. cbn. by destruct (List.filter _ _).
  - apply fifo_pushed, HM.
Qed.

Lemma write_RInv h w : MInv w → RInv w → RInv (write h w).2.
Proof.
  intros HM HR. unfold write. apply run_RInv.
  - eapply MInv_frame; [|exact HM]. solve_mview.
  - by apply pushed_write_RInv.
Qed.

Lemma fifo_idle_queue w :
  MInv w → queue (mutex (lock w)) = [] → entered (trace w) = enqueued (trace w).
Proof. intros HM Hq. rewrite <- (m_fifo w HM), Hq. cbn. by rewrite app_nil_r. Qed.

Lemma read_RInv h w : MInv w → RInv w → RInv (read h w).2.
Proof.
  intros HM HR. unfold read. cbn.
  destruct (tailFxList (lock w)) as [tail|] eqn:Ht; cbn [snd].
  - unfold getQueueLength. cbn.
    destruct (queue (mutex (lock w))) as [|q0 qs] eqn:Eq; cbn.
    + destruct (r_tail w HR tail Ht) as [Hlast Hpos].
      specialize (Hpos Eq).
      destruct (r_batch w HR Hpos) as (Hr & bp & Hbd & Hbp & Hfl).
      pose proof (fifo_idle_queue w HM Eq) as Hfifo.
      destruct HR as [R1 R2 R3 R4 R5 R6].
      split; unfold in_flight, members_in_flight in *; cbn; simpl_trace;
        rewrite ?List.filter_app, ?length_app; cbn; rewrite ?app_nil_r; auto.
      * rewrite R1. lia.
      * intros b Hb. split; [by apply R3|]. lia.
      * intros x b [[Hin|[<-|[]]]%in_app_or|[<-|[]]]%in_app_or Hc;
          [by eapply R6|done|].
        cbn in *. simplify_eq. rewrite Hfifo. eauto.
    + destruct HR as [R1 R2 R3 R4 R5 R6].
      split; unfold in_flight, members_in_flight in *; cbn; auto.
      * apply Forall_forall. intros l [i Hi]%list_elem_of_lookup.
        rewrite Forall_forall in R4.
        rewrite list_lookup_alter in Hi. case_decide.
        -- apply fmap_Some in Hi as (l0 & E & ->). destruct l0; cbn; done.
        -- apply R4. by eapply list_elem_of_lookup_2.
      * by rewrite length_alter.
  - apply run_RInv.
    + eapply MInv_frame; [|exact HM]. solve_mview.
    + by apply pushed_read_RInv.
Qed.

Lemma RInv_sub w w' : rw_view_sub w w' → RInv w → RInv w'.
Proof.
  intros (Hl & Hb & Hh & He & Hq & Hf & Hm & Hin) [R1 R2 R3 R4 R5 R6].
  split; rewrite ?Hl, ?Hb, ?Hh, ?He, ?Hq, ?Hf, ?Hm; auto.
Qed.

Lemma in_delete {A} (l : list A) i x : In x (delete i l) → In x l.
Proof. rewrite <- !list_elem_of_In. apply list_elem_of_delete_inv. Qed.

Lemma rw_view_sub_delete w i x :
  reactions w !! i = Some x → is_run_settled x = false →
  is_member_done x = false →
  rw_view_sub w (set_reactions (delete i (reactions w)) w).
Proof.
  intros Hi H1 H2. unfold rw_view_sub, in_flight, members_in_flight. cbn.
  rewrite (filter_delete_false _ _ _ _ Hi H1), (filter_delete_false _ _ _ _ Hi H2).
  repeat split; auto. intros y. apply in_delete.
Qed.

Lemma rw_view_sub_trans w1 w2 w3 :
  rw_view_sub w1 w2 → rw_view_sub w2 w3 → rw_view_sub w1 w3.
Proof.
  intros (A1 & A2 & A3 & A4 & A5 & A6 & A7 & A8) (B1 & B2 & B3 & B4 & B5 & B6 & B7 & B8).
  repeat split; try congruence. auto.
Qed.

Lemma run_settled_eq p o w :
  run_settled p o w = next_idle (set_running false (settle p o w)).
Proof.
  unfold run_settled, run_then, run_catch.
  destruct o; rewrite next_idle_eq; done.
Qed.

Lemma source_pending_batch w bp :
  batches w !! bp = Some false → source_state (OnBatch bp) w = None.
Proof. intros H. cbn. by rewrite H. Qed.

Lemma fire_run_settled_RInv w i s p o :
  MInv w → RInv w → reactions w !! i = Some (s, RunSettled p) →
  source_state s w = Some o →
  RInv (run_settled p o (set_reactions (delete i (reactions w)) w)).
Proof.
  intros HM HR Hi Hs.
  destruct (in_flight_singleton w i _ HM Hi eq_refl) as (Hr & Hfl & Hdel).
  assert (members_in_flight w = 0) as H0.
  { destruct (members_in_flight w) eqn:E; [done|].
    destruct (r_batch w HR) as (_ & bp & _ & Hbp & Hall); [lia|].
    specialize (Hall (s, RunSettled p)). rewrite Hfl in Hall.
    cbn in Hall. rewrite Hall in Hs by auto.
    by rewrite (source_pending_batch w bp Hbp) in Hs. }
  assert (List.filter is_member_done (delete i (reactions w))
          = List.filter is_member_done (reactions w)) as Hmd.
  { by apply (filter_delete_false _ _ _ _ Hi). }
  rewrite run_settled_eq. apply next_idle_RInv.
  - destruct HR as [R1 R2 R3 R4 R5 R6].
    split; unfold in_flight, members_in_flight in *; cbn;
      rewrite ?settle_lock, ?settle_reactions, ?settle_trace, ?settle_batches,
        ?settle_heap; cbn; simpl_trace; rewrite ?Hmd; auto.
    + rewrite H0. lia.
    + intros x b Hin%in_delete. by apply R6.
  - done.
  - unfold in_flight. cbn. by rewrite settle_reactions.
  - cbn. rewrite settle_lock, settle_trace. cbn. simpl_trace. apply HM.
Qed.

Lemma joined_member_done_eq : joined_member_done = batch_member_done.
Proof. reflexivity. Qed.

Lemma source_vvv_fulfilled vp w o :
  source_state (OnVvv vp) w = Some o → o = Fulfilled VUndef.
Proof. cbn. unfold resolved. repeat case_match; congruence. Qed.

Lemma fire_member_done_RInv w i s cb b o :
  MInv w → RInv w → reactions w !! i = Some (s, cb) →
  captured cb = Some b → source_state s w = Some o →
  RInv (on_fulfilled (batch_member_done b) o
          (set_reactions (delete i (reactions w)) w)).
Proof.
  intros HM HR Hi Hc Hs.
  assert (In (s, cb) (reactions w)) as Hin.
  { apply list_elem_of_In. by eapply list_elem_of_lookup_2. }
  destruct (r_captured w HR _ b Hin Hc) as (Hlast & vp & Hvp).
  cbn in Hvp. subst s. apply source_vvv_fulfilled in Hs as ->.
  assert (is_member_done (OnVvv vp, cb) = true) as Hmd.
  { apply is_member_done_captured. eauto. }
  assert (is_run_settled (OnVvv vp, cb) = false) as Hrs.
  { by destruct cb. }
  destruct (filter_delete_true _ _ _ _ Hi Hmd) as (l1 & l2 & E1 & E2).
  pose proof (filter_delete_false _ _ _ _ Hi Hrs) as E3.
  assert (0 < members_in_flight w) as Hpos.
  { unfold members_in_flight. rewrite E1, length_app. cbn. lia. }
  destruct (r_batch w HR Hpos) as (Hr & bp & Hbd & Hbp & Hall).
  pose proof (r_count w HR) as R1.
  unfold on_fulfilled, batch_member_done, unhandled. cbn.
  unfold members_in_flight in R1, Hpos. rewrite E1 in R1.
  rewrite length_app in R1. cbn in R1.
  destruct (remaining (lock w) - 1 =? 0)%Z eqn:Ez.
  - apply Z.eqb_eq in Ez.
    assert (length (l1 ++ l2) = 0) as Hz by (rewrite length_app; lia).
    destruct (decide (tailFxList (lock w) = Some b)) as [Ht|Ht]; cbn;
      rewrite Hbd; unfold release; cbn.
    + destruct HR as [_ R2 R3 R4 R5 R6].
      split; unfold in_flight, members_in_flight in *; cbn; simpl_trace;
        rewrite ?E2, ?E3, ?Hz; auto; try lia; try done.
      intros x b' Hx%in_delete. by apply R6.
    + destruct HR as [_ R2 R3 R4 R5 R6].
      split; unfold in_flight, members_in_flight in *; cbn; simpl_trace;
        rewrite ?E2, ?E3, ?Hz; auto; try lia.
      * intros b' Hb'. split; [by apply R3|]. intros Hq.
        destruct (R3 b' Hb') as [Hl _].
        rewrite <- (fifo_idle_queue w HM Hq), Hlast in Hl. by simplify_eq.
      * intros x b' Hx%in_delete. by apply R6.
  - apply Z.eqb_neq in Ez.
    destruct HR as [_ R2 R3 R4 R5 R6].
    split; unfold in_flight, members_in_flight in *; cbn;
      rewrite ?E2, ?E3; auto.
    + rewrite length_app in *. lia.
    + intros b' Hb'. split; [by apply R3|]. intros _.
      rewrite length_app in *. lia.
    + intros x b' Hx%in_delete. by apply R6.
Qed.

Lemma fire_RInv w i s cb o :
  MInv w → RInv w → reactions w !! i = Some (s, cb) →
  source_state s w = Some o →
  RInv (fire cb o (set_reactions (delete i (reactions w)) w)).
Proof.
  intros HM HR Hi Hs. destruct cb as [p|wp|p vp|b|b]; unfold fire.
  - by eapply fire_run_settled_RInv.
  - eapply RInv_sub; [|exact HR].
    eapply rw_view_sub_trans; [by eapply rw_view_sub_delete|].
    unfold rw_view_sub, in_flight, members_in_flight. cbn. repeat split; auto.
  - eapply RInv_sub; [|exact HR].
    eapply rw_view_sub_trans; [by eapply rw_view_sub_delete|].
    unfold rw_view_sub, in_flight, members_in_flight, fulfil_vvv. cbn.
    rewrite settle_lock, settle_batches, settle_heap, settle_trace,
      settle_reactions. cbn. simpl_trace. repeat split; auto.
  - by eapply fire_member_done_RInv.
  - rewrite joined_member_done_eq. by eapply fire_member_done_RInv.
Qed.

Lemma step_RInv e w w' :
  step e w = Some w' → rw_event e = true → MInv w → RInv w → RInv w'.
Proof.
  intros Hstep Hrw HM HR. destruct e as [[h|h|h]|hp o|i]; cbn in Hstep; try done.
  - injection Hstep as <-. by apply write_RInv.
  - injection Hstep as <-. by apply read_RInv.
  - repeat case_match; simplify_eq.
    eapply RInv_frame; [|exact HR]. unfold same_rw_view. cbn. done.
  - repeat case_match; simplify_eq. by eapply fire_RInv.
Qed.

Lemma init_RInv : RInv init.
Proof.
  split; cbn; try done.
  - unfold members_in_flight. cbn. lia.
  - split; [apply NoDup_nil_2|apply Forall_nil_2].
Qed.

Lemma exec_RInv evs w w' :
  exec evs w = Some w' → forallb rw_event evs = true →
  MInv w → RInv w → MInv w' ∧ RInv w'.
Proof.
  revert w. induction evs as [|e evs IH]; intros w Hex Hrw HM HR; cbn in Hex.
  - by simplify_eq.
  - destruct (step e w) as [w1|] eqn:Hs; [|done].
    cbn in Hrw. apply andb_prop in Hrw as [Hrw1 Hrw2].
    eapply IH; [exact Hex|done| |].
    + by eapply step_MInv.
    + by eapply step_RInv.
Qed.

(** ** The invariant of every program is preserved by every job *)

Lemma member_reactions_rref b h0 v0 ms :
  member_reactions b h0 v0 ms ≫= rref = v_promise <$> ms.
Proof. revert h0 v0. induction ms as [|fx ms IH]; intros; cbn; [done|]. by rewrite IH. Qed.

Lemma member_reactions_valid b h0 v0 ms s cb :
  In (s, cb) (member_reactions b h0 v0 ms) →
  match cb with
  | ReadAwait _ vp => vp < v0 + length ms
  | WriteAwait _ => False
  | BatchMemberDone _ | JoinedMemberDone _ => ∃ vp, s = OnVvv vp
  | RunSettled _ => True
  end.
Proof.
  revert h0 v0. induction ms as [|fx ms IH]; intros h0 v0; cbn; [done|].
  intros [[= <- <-]|[[= <- <-]|Hin]]; [lia|eauto|].
  specialize (IH _ _ Hin). destruct cb; auto. lia.
Qed.

Lemma next_idle_GInv w : GInv w → GInv (next_idle w).
Proof.
  intros HG. unfold next_idle.
  destruct (queue (mutex (lock w))) as [|fx rest] eqn:Eq; [done|].
  destruct HG as [G1 [G2a G2b] [G3a G3b] [G4a G4b]].
  destruct fx as [[h|h|b0] p]; unfold call_runnable, call_work; cbn in *.
  - split; unfold members_in_flight, refs in *; cbn; simpl_trace; auto.
    + rewrite Eq in G2b. cbn in G2b. split.
      * rewrite List.filter_app, length_app. cbn. rewrite Nat.add_0_r. done.
      * intros b Hb. destruct (G2b b Hb) as [[?|?]|?]; auto; done.
    + split; [|done]. intros s cb [Hin|[[= <- <-]|[]]]%in_app_or; [|done].
      specialize (G3a s cb Hin). destruct cb; auto.
    + rewrite Eq in *. rewrite bind_cons, bind_app in *. cbn in *.
      assert ((rest ≫= qref (heap w)) ++ (reactions w ≫= rref) ++ [p]
              ≡ₚ p :: (rest ≫= qref (heap w)) ++ reactions w ≫= rref) as Hp.
      { solve_Permutation. }
      split; [by rewrite Hp|]. intros q Hq. apply G4b.
      rewrite Hp in Hq. done.
  - split; unfold members_in_flight, refs in *; cbn; simpl_trace; auto.
    + rewrite Eq in G2b. cbn in G2b. split.
      * rewrite !List.filter_app, !length_app. cbn. rewrite !Nat.add_0_r. done.
      * intros b Hb. destruct (G2b b Hb) as [[?|?]|?]; auto; done.
    + split; [|done].
      intros s cb [[Hin|[[= <- <-]|[]]]%in_app_or|[[= <- <-]|[]]]%in_app_or;
        [| rewrite length_app; cbn; lia |done].
      specialize (G3a s cb Hin). destruct cb; auto. rewrite length_app. lia.
    + rewrite Eq in *. rewrite bind_cons, !bind_app in *. cbn in *.
      rewrite app_nil_r.
      assert ((rest ≫= qref (heap w)) ++ (reactions w ≫= rref) ++ [p]
              ≡ₚ p :: (rest ≫= qref (heap w)) ++ reactions w ≫= rref) as Hp.
      { solve_Permutation. }
      split; [by rewrite Hp|]. intros q Hq. apply G4b.
      rewrite Hp in Hq. done.
  - unfold batch_executor. rewrite start_members_eq. cbn.
    split; unfold members_in_flight, refs in *; cbn; simpl_trace; auto.
    + split.
      * intros s cb [[Hin|Hin]%in_app_or|[[= <- <-]|[]]]%in_app_or; [| |done].
        -- specialize (G3a s cb Hin). destruct cb; auto. rewrite length_app. lia.
        -- apply member_reactions_valid in Hin. destruct cb; auto; try done.
           rewrite length_app, length_replicate. lia.
      * intros bp [= <-]. rewrite length_app. cbn. lia.
    + rewrite Eq in *. rewrite bind_cons, !bind_app, member_reactions_rref in *.
      cbn in *.
      set (ms := v_promise <$> default [] (heap w !! b0)) in *.
      assert ((rest ≫= qref (heap w)) ++ ((reactions w ≫= rref) ++ ms) ++ [p]
              ≡ₚ p :: (ms ++ rest ≫= qref (heap w)) ++ reactions w ≫= rref) as Hp.
      { solve_Permutation. }
      split; [by rewrite Hp|]. intros q Hq. apply G4b.
      rewrite Hp in Hq. done.
Qed.

Lemma settle_callers_pending p o w :
  callers w !! p = Some None →
  callers (settle p o w) = <[p := Some o]> (callers w).
Proof. intros H. unfold settle. cbn. by rewrite H. Qed.

Lemma queue_handlers_enqueued w fx :
  MInv w → fx ∈ queue (mutex (lock w)) → In (r_handler fx) (enqueued (trace w)).
Proof.
  intros HM Hin. rewrite <- (m_fifo w HM). apply in_or_app. right.
  apply in_map. by apply list_elem_of_In.
Qed.

Lemma queue_batches_bounded w fx b :
  MInv w → GInv w → fx ∈ queue (mutex (lock w)) → r_handler fx = HBatch b →
  b < length (heap w).
Proof.
  intros HM HG Hin Hb. destruct (g_fresh w HG) as [_ Hlt].
  rewrite Forall_forall in Hlt. apply Hlt. apply list_elem_of_In, batch_ids_in.
  rewrite <- Hb. by apply queue_handlers_enqueued.
Qed.

Lemma queue_batches_NoDup w :
  MInv w → GInv w → NoDup (batch_ids (r_handler <$> queue (mutex (lock w)))).
Proof.
  intros HM HG. destruct (g_fresh w HG) as [Hnd _].
  rewrite <- (m_fifo w HM), batch_ids_app in Hnd.
  apply NoDup_app in Hnd as (_ & _ & Hnd). done.
Qed.

Lemma qrefs_heap_app q hp ext :
  (∀ fx b, fx ∈ q → r_handler fx = HBatch b → b < length hp) →
  q ≫= qref (hp ++ ext) = q ≫= qref hp.
Proof.
  induction q as [|fx q IH]; intros Hb; [done|].
  rewrite !bind_cons, IH.
  - f_equal. unfold qref. destruct (r_handler fx) as [| |b] eqn:E; try done.
    rewrite lookup_app_l; [done|]. eapply Hb; [left|done].
  - intros fx' b Hin. apply Hb. by right.
Qed.

Lemma qrefs_alter_notin q hp b (f : list AsyncRunnable → list AsyncRunnable) :
  b ∉ batch_ids (r_handler <$> q) →
  q ≫= qref (alter f b hp) = q ≫= qref hp.
Proof.
  induction q as [|fx q IH]; intros Hb; [done|].
  rewrite !bind_cons. cbn in Hb. unfold batch_ids in Hb, IH. cbn in Hb.
  unfold qref at 1 3.
  destruct (r_handler fx) as [| |b'] eqn:E; cbn in Hb.
  - rewrite IH; done.
  - rewrite IH; done.
  - apply not_elem_of_cons in Hb as [Hne Hb].
    rewrite IH by done. by rewrite list_lookup_alter_ne.
Qed.

Lemma qrefs_alter q hp b m :
  NoDup (batch_ids (r_handler <$> q)) →
  ∃ extra, (extra = [] ∨ extra = [v_promise m]) ∧
    q ≫= qref (alter (λ l, l ++ [m]) b hp) ≡ₚ (q ≫= qref hp) ++ extra.
Proof.
  induction q as [|fx q IH]; intros Hnd.
  - exists []. split; [by left|done].
  - rewrite !bind_cons. unfold batch_ids in *. cbn in Hnd.
    unfold qref at 1 3.
    destruct (r_handler fx) as [| |b'] eqn:E; cbn in Hnd.
    + destruct (IH Hnd) as (extra & He & Hp). exists extra. split; [done|].
      cbn. by rewrite Hp.
    + destruct (IH Hnd) as (extra & He & Hp). exists extra. split; [done|].
      cbn. by rewrite Hp.
    + apply NoDup_cons in Hnd as [Hnotin Hnd].
      destruct (decide (b = b')) as [<-|Hne].
      * rewrite (qrefs_alter_notin q hp b) by done.
        rewrite list_lookup_alter_eq.
        destruct (hp !! b) as [l|] eqn:El; cbn.
        -- exists [v_promise m]. split; [by right|].
           rewrite fmap_app. cbn. solve_Permutation.
        -- exists []. split; [by left|]. by rewrite app_nil_r.
      * destruct (IH Hnd) as (extra & He & Hp). exists extra. split; [done|].
        rewrite list_lookup_alter_ne by done. cbn. rewrite Hp.
        by rewrite app_assoc.
Qed.

Lemma refs_fresh w p :
  GInv w → p ∈ refs w → p < length (callers w).
Proof.
  intros HG Hin. apply (g_refs w HG) in Hin. by eapply lookup_lt_Some.
Qed.

Lemma fresh_not_ref w : GInv w → length (callers w) ∉ refs w.
Proof. intros HG Hin%(refs_fresh w _ HG). lia. Qed.

(** Pushing a work item that is not a batch. *)
Lemma pushed_GInv h t w :
  (∀ b, h ≠ HBatch b) →
  (t = None ∨ t = tailFxList (lock w)) →
  GInv w → GInv (pushed h (set_tailFxList t w)).
Proof.
  intros Hh Ht HG. pose proof (fresh_not_ref w HG) as Hfresh.
  destruct HG as [G1 [G2a G2b] [G3a G3b] [G4a G4b]].
  split; unfold pushed, members_in_flight, refs in *; cbn; simpl_trace.
  - rewrite batch_ids_app. destruct h; try (by destruct (Hh fxList));
      cbn; by rewrite app_nil_r.
  - split; [done|]. intros b Hb. destruct Ht as [->| ->]; [done|].
    destruct (G2b b Hb) as [Hin|?]; auto. left.
    rewrite map_app. apply in_or_app. by left.
  - done.
  - rewrite bind_app, bind_singleton. unfold qref at 2 4. cbn.
    assert (match h with
            | HBatch b => v_promise <$> default [] (heap w !! b)
            | _ => []
            end = []) as -> by (destruct h; try done; by destruct (Hh fxList)).
    assert (((queue (mutex (lock w)) ≫= qref (heap w)) ++ [length (callers w)]) ++
            reactions w ≫= rref
            ≡ₚ length (callers w) ::
               (queue (mutex (lock w)) ≫= qref (heap w)) ++ reactions w ≫= rref)
      as Hp by solve_Permutation.
    split.
    + rewrite Hp. apply NoDup_cons. done.
    + intros p Hin. rewrite Hp in Hin. apply elem_of_cons in Hin as [->|Hin].
      * by rewrite lookup_app_r, Nat.sub_diag.
      * rewrite lookup_app_l; [by apply G4b|].
        eapply lookup_lt_Some. by apply G4b.
Qed.

(** Pushing the work item of a fresh batch. *)
Lemma pushed_batch_GInv h w :
  MInv w → GInv w →
  GInv (pushed (HBatch (length (heap w)))
          (set_tailFxList (Some (length (heap w)))
             (set_heap (heap w ++ [[{| v_handler := h;
                                       v_promise := length (callers w) |}]])
                (set_callers (callers w ++ [None]) w)))).
Proof.
  intros HM HG. pose proof (fresh_not_ref w HG) as Hfresh.
  pose proof (λ fx b, queue_batches_bounded w fx b HM HG) as Hbound.
  pose proof (refs_fresh w) as Hlt.
  destruct HG as [G1 [G2a G2b] [G3a G3b] [G4a G4b]].
  split; unfold pushed, members_in_flight, refs in *; cbn; simpl_trace.
  - rewrite batch_ids_app. cbn. destruct G1 as [Hnd Hb].
    rewrite Forall_forall in Hb. split.
    + apply NoDup_app. split; [done|]. split; [|apply NoDup_singleton].
      intros x Hx%Hb Hx'%list_elem_of_singleton. lia.
    + apply Forall_app. rewrite length_app. cbn. split.
      * apply Forall_forall. intros x Hx%Hb. lia.
      * apply Forall_singleton. lia.
  - split; [done|]. intros b [= <-]. left. rewrite map_app.
    apply in_or_app. right. by left.
  - done.
  - rewrite bind_app, bind_singleton, qrefs_heap_app by done.
    unfold qref at 2 4. cbn. rewrite !length_app. cbn.
    rewrite lookup_app_r, Nat.sub_diag by done. cbn.
    set (n := length (callers w)) in *.
    assert (((queue (mutex (lock w)) ≫= qref (heap w)) ++ [n + 1; n]) ++
            reactions w ≫= rref
            ≡ₚ (n + 1) :: n ::
               (queue (mutex (lock w)) ≫= qref (heap w)) ++ reactions w ≫= rref)
      as Hp by solve_Permutation.
    split.
    + rewrite Hp. apply NoDup_cons. split.
      * intros [?|Hin%Hlt]%elem_of_cons; [lia| |by split]. lia.
      * apply NoDup_cons. done.
    + intros p Hin. rewrite Hp in Hin.
      apply elem_of_cons in Hin as [->|[->|Hin]%elem_of_cons].
      * rewrite lookup_app_r; rewrite length_app; cbn; fold n; [|lia].
        by replace (n + 1 - (n + 1)) with 0 by lia.
      * rewrite <- app_assoc. by rewrite lookup_app_r, Nat.sub_diag.
      * rewrite <- app_assoc. rewrite lookup_app_l; [by apply G4b|].
        eapply lookup_lt_Some. by apply G4b.
Qed.

Lemma run_GInv h t w :
  (∀ b, h ≠ HBatch b) → (t = None ∨ t = tailFxList (lock w)) →
  GInv w → GInv (run h (set_tailFxList t w)).2.
Proof.
  intros Hh Ht HG. rewrite run_eq. cbn.
  destruct (running (mutex (lock w))).
  - by apply pushed_GInv.
  - by apply next_idle_GInv, pushed_GInv.
Qed.

Lemma write_GInv h w : GInv w → GInv (write h w).2.
Proof. intros HG. unfold write. apply run_GInv; auto. Qed.

Lemma set_tail_same w : set_tailFxList (tailFxList (lock w)) w = w.
Proof. by destruct w as [[] ?]. Qed.

Lemma run_user_GInv h w : GInv w → GInv (run (HUser h) w).2.
Proof.
  intros HG. rewrite <- (set_tail_same w) at 1. apply run_GInv; auto.
Qed.

Lemma refs_push_member w tail m cs :
  MInv w → GInv w →
  ∃ extra, (extra = [] ∨ extra = [v_promise m]) ∧
    refs (set_heap (alter (λ l, l ++ [m]) tail (heap w)) (set_callers cs w))
    ≡ₚ extra ++ refs w.
Proof.
  intros HM HG. pose proof (queue_batches_NoDup w HM HG) as Hnd.
  destruct (qrefs_alter (queue (mutex (lock w))) (heap w) tail m Hnd)
    as (extra & He & Hp).
  exists extra. split; [done|]. unfold refs. cbn. rewrite Hp.
  solve_Permutation.
Qed.

Lemma read_GInv h w : MInv w → GInv w → GInv (read h w).2.
Proof.
  intros HM HG. unfold read. cbn.
  destruct (tailFxList (lock w)) as [tail|] eqn:Ht; cbn [snd].
  - unfold getQueueLength. cbn.
    pose proof (fresh_not_ref w HG) as Hfresh.
    destruct (refs_push_member w tail
                {| v_handler := h; v_promise := length (callers w) |}
                (callers w ++ [None]) HM HG) as (extra & Hex & Hpush).
    destruct HG as [G1 [G2a G2b] [G3a G3b] [G4a G4b]].
    destruct (queue (mutex (lock w))) as [|q0 qs] eqn:Eq; cbn.
    + clear Hpush.
      split; unfold members_in_flight, refs in *; cbn; simpl_trace; try done.
      * split; intros; destruct (G2b tail Ht) as [[]|?]; auto.
      * split; [|done].
        intros s cb [[Hin|[[= <- <-]|[]]]%in_app_or|[[= <- <-]|[]]]%in_app_or;
          [| rewrite length_app; cbn; lia |eauto].
        specialize (G3a s cb Hin). destruct cb; auto. rewrite length_app. lia.
      * rewrite Eq in *. rewrite !bind_app. cbn in *. rewrite app_nil_r.
        assert ((reactions w ≫= rref) ++ [length (callers w)]
                ≡ₚ length (callers w) :: reactions w ≫= rref)
          as Hp by solve_Permutation.
        split.
        -- rewrite Hp. apply NoDup_cons. done.
        -- intros p Hin. rewrite Hp in Hin. apply elem_of_cons in Hin as [->|Hin].
           ++ by rewrite lookup_app_r, Nat.sub_diag.
           ++ rewrite lookup_app_l; [by apply G4b|].
              eapply lookup_lt_Some. by apply G4b.
    + split; unfold members_in_flight in *; cbn; simpl_trace.
      * by rewrite length_alter.
      * rewrite Eq. by split.
      * by split.
      * unfold refs at 1 in Hpush. cbn in Hpush. unfold refs at 1 2. cbn.
        cbn in Hex. split.
        -- rewrite Hpush.
           destruct Hex as [->| ->]; [done|]. cbn. apply NoDup_cons. done.
        -- intros p Hin. rewrite Hpush in Hin.
           apply elem_of_app in Hin as [Hin|Hin].
           ++ destruct Hex as [->| ->]; [by apply elem_of_nil in Hin|].
              apply list_elem_of_singleton in Hin as ->.
              by rewrite lookup_app_r, Nat.sub_diag.
           ++ rewrite lookup_app_l; [by apply G4b|].
              eapply lookup_lt_Some. by apply G4b.
  - rewrite run_eq. cbn. destruct (running (mutex (lock w))).
    + by apply pushed_batch_GInv.
    + by apply next_idle_GInv, pushed_batch_GInv.
Qed.

Lemma refs_delete w i x :
  reactions w !! i = Some x →
  refs w ≡ₚ rref x ++ refs (set_reactions (delete i (reactions w)) w).
Proof.
  intros Hi. unfold refs. cbn.
  rewrite (delete_Permutation _ _ _ Hi) at 1. rewrite bind_cons.
  solve_Permutation.
Qed.

Lemma GInv_delete w i x :
  reactions w !! i = Some x → GInv w →
  ∀ w', queue (mutex (lock w')) = queue (mutex (lock w)) →
        batchDone (lock w') = batchDone (lock w) →
        (tailFxList (lock w') = None ∨
         tailFxList (lock w') = tailFxList (lock w)) →
        heap w' = heap w →
        reactions w' = delete i (reactions w) →
        length (vvvs w') = length (vvvs w) →
        length (wrappers w') = length (wrappers w) →
        length (batches w') = length (batches w) →
        enqueued (trace w') = enqueued (trace w) →
        (∀ p, p ∈ refs w' → callers w' !! p = Some None) →
        GInv w'.
Proof.
  intros Hi HG w' Hl Hbd Ht Hh Hr Hv Hw Hb Hq Hc.
  pose proof (refs_delete w i x Hi) as Hp.
  destruct HG as [G1 [G2a G2b] [G3a G3b] [G4a G4b]].
  split; unfold members_in_flight in *;
    rewrite ?Hl, ?Hbd, ?Hh, ?Hr, ?Hv, ?Hw, ?Hb, ?Hq; try done.
  - split.
    + intros Hpos. apply G2a.
      destruct (is_member_done x) eqn:E.
      * destruct (filter_delete_true _ _ _ _ Hi E) as (l1 & l2 & E1 & E2).
        rewrite E1, length_app. cbn. lia.
      * by rewrite <- (filter_delete_false _ _ _ _ Hi E).
    + intros b Hb'. destruct Ht as [Ht|Ht]; rewrite Ht in Hb'; [done|].
      by apply G2b.
  - split; [|done]. intros s cb Hin%in_delete. by apply (G3a s cb).
  - split; [|done]. rewrite Hp in G4a. apply NoDup_app in G4a as (_ & _ & Hnd).
    unfold refs in *. cbn in *. by rewrite Hl, Hh, Hr.
Qed.

Lemma refs_delete_in w i x w' p :
  reactions w !! i = Some x →
  queue (mutex (lock w')) = queue (mutex (lock w)) → heap w' = heap w →
  reactions w' = delete i (reactions w) →
  p ∈ refs w' → p ∈ refs w.
Proof.
  intros Hi Hq Hh Hr Hin. rewrite (refs_delete w i x Hi).
  apply elem_of_app. right. unfold refs in *. cbn. by rewrite <- Hq, <- Hh, <- Hr.
Qed.

Lemma refs_delete_settled w i x w' p q :
  reactions w !! i = Some x → rref x = [p] → NoDup (refs w) →
  queue (mutex (lock w')) = queue (mutex (lock w)) → heap w' = heap w →
  reactions w' = delete i (reactions w) →
  q ∈ refs w' → q ≠ p.
Proof.
  intros Hi Hx Hnd Hq Hh Hr Hin ->. rewrite (refs_delete w i x Hi), Hx in Hnd.
  cbn in Hnd. apply NoDup_cons in Hnd as [Hnotin _]. apply Hnotin.
  unfold refs in *. cbn. by rewrite <- Hq, <- Hh, <- Hr.
Qed.

Lemma settled_refs_GInv w i s cb p o w1 :
  GInv w → reactions w !! i = Some (s, cb) → rref (s, cb) = [p] →
  queue (mutex (lock w1)) = queue (mutex (lock w)) →
  batchDone (lock w1) = batchDone (lock w) →
  tailFxList (lock w1) = tailFxList (lock w) →
  heap w1 = heap w → reactions w1 = delete i (reactions w) →
  length (vvvs w1) = length (vvvs w) → wrappers w1 = wrappers w →
  batches w1 = batches w → enqueued (trace w1) = enqueued (trace w) →
  callers w1 = <[p := Some o]> (callers w) →
  GInv w1.
Proof.
  intros HG Hi Hx Hq Hbd Ht Hh Hr Hv Hw Hb He Hc.
  eapply (GInv_delete w i _ Hi HG); auto; try congruence.
  intros q Hin. rewrite Hc, list_lookup_insert_ne.
  - apply (g_refs w HG). by eapply refs_delete_in.
  - intros ->. eapply refs_delete_settled; try done. apply (g_refs w HG).
Qed.

Lemma ref_pending w i s cb p :
  GInv w → reactions w !! i = Some (s, cb) → rref (s, cb) = [p] →
  callers w !! p = Some None.
Proof.
  intros HG Hi Hx. apply (g_refs w HG). rewrite (refs_delete w i _ Hi), Hx.
  by left.
Qed.

Lemma member_done_frame b o w :
  let w' := on_fulfilled (batch_member_done b) o w in
  queue (mutex (lock w')) = queue (mutex (lock w)) ∧
  running (mutex (lock w')) = running (mutex (lock w)) ∧
  batchDone (lock w') = batchDone (lock w) ∧
  (tailFxList (lock w') = None ∨ tailFxList (lock w') = tailFxList (lock w)) ∧
  heap w' = heap w ∧ reactions w' = reactions w ∧ vvvs w' = vvvs w ∧
  wrappers w' = wrappers w ∧ handlers w' = handlers w ∧
  length (batches w') = length (batches w) ∧
  enqueued (trace w') = enqueued (trace w) ∧
  entered (trace w') = entered (trace w) ∧
  callers w' = callers w.
Proof.
  unfold on_fulfilled, batch_member_done, unhandled, release.
  destruct o; cbn; [|simpl_trace; repeat split; auto].
  destruct (remaining (lock w) - 1 =? 0)%Z; cbn; [|repeat split; auto].
  destruct (decide (tailFxList (lock w) = Some b)); cbn;
    destruct (batchDone (lock w)) eqn:Ebd; cbn; simpl_trace;
    rewrite ?length_insert; repeat split; auto.
Qed.

Lemma fire_GInv w i s cb o :
  GInv w → reactions w !! i = Some (s, cb) →
  GInv (fire cb o (set_reactions (delete i (reactions w)) w)).
Proof.
  intros HG Hi. destruct cb as [p|wp|p vp|b|b]; unfold fire.
  - rewrite run_settled_eq. apply next_idle_GInv.
    pose proof (ref_pending w i _ _ p HG Hi eq_refl) as Hpend.
    eapply (settled_refs_GInv w i _ _ p o); try done; cbn;
      rewrite ?settle_lock, ?settle_heap, ?settle_reactions, ?settle_vvvs,
        ?settle_wrappers, ?settle_batches, ?settle_trace; try done.
    + by simpl_trace.
    + by rewrite settle_callers_pending.
  - eapply (GInv_delete w i _ Hi HG); cbn; auto.
    + by rewrite length_insert.
    + intros q Hin. apply (g_refs w HG).
      by eapply (refs_delete_in w i _ _ _ Hi); [..|exact Hin].
  - pose proof (ref_pending w i _ _ p HG Hi eq_refl) as Hpend.
    eapply (settled_refs_GInv w i _ _ p o); try done; unfold fulfil_vvv; cbn;
      rewrite ?settle_lock, ?settle_heap, ?settle_reactions, ?settle_vvvs,
        ?settle_wrappers, ?settle_batches, ?settle_trace; try done.
    + by rewrite length_insert.
    + by simpl_trace.
    + by rewrite settle_callers_pending.
  - destruct (member_done_frame b o (set_reactions (delete i (reactions w)) w))
      as (F1 & F2 & F3 & F4 & F5 & F6 & F7 & F8 & F9 & F10 & F11 & F12 & F13).
    eapply (GInv_delete w i _ Hi HG); try done; try congruence;
      [by rewrite F7|by rewrite F8|].
    intros q Hin. rewrite F13. apply (g_refs w HG).
    by eapply (refs_delete_in w i _ _ _ Hi); [..|exact Hin].
  - rewrite joined_member_done_eq.
    destruct (member_done_frame b o (set_reactions (delete i (reactions w)) w))
      as (F1 & F2 & F3 & F4 & F5 & F6 & F7 & F8 & F9 & F10 & F11 & F12 & F13).
    eapply (GInv_delete w i _ Hi HG); try done; try congruence;
      [by rewrite F7|by rewrite F8|].
    intros q Hin. rewrite F13. apply (g_refs w HG).
    by eapply (refs_delete_in w i _ _ _ Hi); [..|exact Hin].
Qed.

Lemma init_GInv : GInv init.
Proof.
  split; cbn; try done.
  - split; [apply NoDup_nil_2|apply Forall_nil_2].
  - split; [|done]. unfold members_in_flight. cbn. lia.
  - split; [apply NoDup_nil_2|]. intros p Hp. by apply elem_of_nil in Hp.
Qed.

Lemma step_GInv e w w' : step e w = Some w' → MInv w → GInv w → GInv w'.
Proof.
  intros Hstep HM HG. destruct e as [[h|h|h]|hp o|i]; cbn in Hstep.
  - injection Hstep as <-. by apply run_user_GInv.
  - injection Hstep as <-. by apply write_GInv.
  - injection Hstep as <-. by apply read_GInv.
  - repeat case_match; simplify_eq.
    destruct HG as [G1 G2 G3 G4]. split; done.
  - repeat case_match; simplify_eq. by eapply fire_GInv.
Qed.

Lemma exec_GInv evs w w' :
  exec evs w = Some w' → MInv w → GInv w → GInv w'.
Proof.
  revert w. induction evs as [|e evs IH]; intros w Hex HM HG; cbn in Hex.
  - by simplify_eq.
  - destruct (step e w) as [w1|] eqn:Hs; [|done].
    eapply IH; [exact Hex| |].
    + by eapply step_MInv.
    + by eapply step_GInv.
Qed.

(** ** No exception is ever raised *)

Lemma next_idle_thrown w : thrown (trace (next_idle w)) = thrown (trace w).
Proof.
  unfold next_idle. destruct (queue (mutex (lock w))) as [|[[h|h|b] p] rest]; [done|..];
    unfold call_runnable, call_work, batch_executor;
    cbn; rewrite ?start_members_eq; cbn; by simpl_trace.
Qed.

Lemma run_thrown h w : thrown (trace (run h w).2) = thrown (trace w).
Proof.
  rewrite run_eq. cbn. destruct (running (mutex (lock w)));
    rewrite ?next_idle_thrown; unfold pushed; cbn; by simpl_trace.
Qed.

Lemma read_thrown h w : thrown (trace (read h w).2) = thrown (trace w).
Proof.
  unfold read. cbn. destruct (tailFxList (lock w)); cbn [snd].
  - case_match; cbn; by simpl_trace.
  - by rewrite run_thrown.
Qed.

Lemma member_done_thrown b v w :
  is_Some (batchDone (lock w)) →
  thrown (trace (on_fulfilled (batch_member_done b) (Fulfilled v) w))
  = thrown (trace w).
Proof.
  intros [bp Hbp]. unfold on_fulfilled, batch_member_done, unhandled, release.
  cbn. destruct (remaining (lock w) - 1 =? 0)%Z; cbn; [|done].
  destruct (decide (tailFxList (lock w) = Some b)); cbn; rewrite Hbp; cbn;
    by simpl_trace.
Qed.

Lemma fire_thrown w i s cb o :
  GInv w → reactions w !! i = Some (s, cb) → source_state s w = Some o →
  thrown (trace (fire cb o (set_reactions (delete i (reactions w)) w)))
  = thrown (trace w).
Proof.
  intros HG Hi Hs.
  assert (In (s, cb) (reactions w)) as Hin.
  { apply list_elem_of_In. by eapply list_elem_of_lookup_2. }
  pose proof (proj1 (g_valid w HG) s cb Hin) as Hv.
  assert (is_member_done (s, cb) = true → is_Some (batchDone (lock w))) as Hbd.
  { intros Hmd. apply (g_done w HG). unfold members_in_flight.
    destruct (filter_delete_true _ _ _ _ Hi Hmd) as (l1 & l2 & E1 & _).
    rewrite E1, length_app. cbn. lia. }
  destruct cb as [p|wp|p vp|b|b]; unfold fire.
  - rewrite run_settled_eq, next_idle_thrown. cbn. rewrite settle_trace.
    by simpl_trace.
  - done.
  - unfold fulfil_vvv. cbn. rewrite settle_trace. by simpl_trace.
  - destruct Hv as [vp ->]. apply source_vvv_fulfilled in Hs as ->.
    rewrite member_done_thrown; [done|]. by apply Hbd.
  - destruct Hv as [vp ->]. apply source_vvv_fulfilled in Hs as ->.
    rewrite joined_member_done_eq, member_done_thrown; [done|]. by apply Hbd.
Qed.

Lemma step_thrown e w w' :
  step e w = Some w' → GInv w → thrown (trace w') = thrown (trace w).
Proof.
  intros Hstep HG. destruct e as [[h|h|h]|hp o|i]; unfold step, do_call in Hstep.
  - assert (w' = (run (HUser h) w).2) as -> by congruence.
    by rewrite run_thrown.
  - assert (w' = (write h w).2) as -> by congruence.
    unfold write. by rewrite run_thrown.
  - assert (w' = (read h w).2) as -> by congruence.
    by rewrite read_thrown.
  - repeat case_match; by simplify_eq.
  - repeat case_match; simplify_eq. by eapply fire_thrown.
Qed.

Lemma exec_invariants evs w :
  exec evs init = Some w → MInv w ∧ GInv w ∧ thrown (trace w) = [].
Proof.
  assert (∀ w0, MInv w0 → GInv w0 → thrown (trace w0) = [] →
                exec evs w0 = Some w → MInv w ∧ GInv w ∧ thrown (trace w) = [])
    as Hgen.
  { induction evs as [|e evs IH]; intros w0 HM HG Ht Hex; cbn in Hex.
    - by simplify_eq.
    - destruct (step e w0) as [w1|] eqn:Hs; [|done].
      apply (IH w1); try done.
      + by eapply step_MInv.
      + by eapply step_GInv.
      + by rewrite (step_thrown _ _ _ Hs HG). }
  apply Hgen; [apply init_MInv|apply init_GInv|done].
Qed.

Lemma exec_rw_invariants evs w :
  forallb rw_event evs = true → exec evs init = Some w →
  MInv w ∧ GInv w ∧ RInv w.
Proof.
  intros Hrw Hex. destruct (exec_invariants evs w Hex) as (HM & HG & _).
  split; [done|]. split; [done|].
  by eapply exec_RInv; [exact Hex|done|apply init_MInv|apply init_RInv].
Qed.

(** ** What each job pushes on the queue *)

Lemma next_idle_enqueued w : enqueued (trace (next_idle w)) = enqueued (trace w).
Proof.
  unfold next_idle. destruct (queue (mutex (lock w))) as [|[[h|h|b] p] rest]; [done|..];
    unfold call_runnable, call_work, batch_executor;
    cbn; rewrite ?start_members_eq; cbn; by simpl_trace.
Qed.

Lemma run_enqueued h w :
  enqueued (trace (run h w).2) = enqueued (trace w) ++ [h].
Proof.
  rewrite run_eq. cbn. destruct (running (mutex (lock w)));
    rewrite ?next_idle_enqueued; unfold pushed; cbn; by simpl_trace.
Qed.

Lemma fire_enqueued cb o w :
  enqueued (trace (fire cb o w)) = enqueued (trace w).
Proof.
  destruct cb as [p|wp|p vp|b|b]; unfold fire.
  - rewrite run_settled_eq, next_idle_enqueued. cbn. rewrite settle_trace.
    by simpl_trace.
  - done.
  - unfold fulfil_vvv. cbn. rewrite settle_trace. by simpl_trace.
  - apply member_done_frame.
  - rewrite joined_member_done_eq. apply member_done_frame.
Qed.

Lemma step_enqueued e w w' :
  step e w = Some w' →
  enqueued (trace w') = enqueued (trace w) ++ submitted e w.
Proof.
  intros Hstep. destruct e as [[h|h|h]|hp o|i]; unfold step, do_call in Hstep.
  - assert (w' = (run (HUser h) w).2) as -> by congruence.
    by rewrite run_enqueued.
  - assert (w' = (write h w).2) as -> by congruence.
    unfold write. by rewrite run_enqueued.
  - assert (w' = (read h w).2) as -> by congruence.
    unfold read, submitted. cbn. destruct (tailFxList (lock w)); cbn [snd].
    + case_match; cbn; by simpl_trace.
    + by rewrite run_enqueued.
  - repeat case_match; simplify_eq. cbn. by rewrite app_nil_r.
  - repeat case_match; simplify_eq. rewrite fire_enqueued. cbn.
    by rewrite app_nil_r.
Qed.

Lemma submitted_mutex e w :
  mutex_event e = true → submitted e w = HUser <$> run_calls [e].
Proof. by destruct e as [[]| |]. Qed.

Lemma exec_enqueued_mutex evs w w' :
  forallb mutex_event evs = true → exec evs w = Some w' →
  enqueued (trace w') = enqueued (trace w) ++ (HUser <$> run_calls evs).
Proof.
  revert w. induction evs as [|e evs IH]; intros w Hm Hex; cbn in Hex.
  - simplify_eq. cbn. by rewrite app_nil_r.
  - destruct (step e w) as [w1|] eqn:Hs; [|done].
    cbn in Hm. apply andb_prop in Hm as [Hm1 Hm2].
    rewrite (IH w1 Hm2 Hex), (step_enqueued _ _ _ Hs), (submitted_mutex _ _ Hm1).
    change (e :: evs) with ([e] ++ evs). unfold run_calls.
    by rewrite omap_app, fmap_app, app_assoc.
Qed.

(** ** Programs that only use a mutex *)

Lemma filter_all {A} (f : A → bool) (l : list A) :
  Forall (λ x, f x = true) l → List.filter f l = l.
Proof.
  induction 1 as [|x l Hx _ IH]; [done|]. cbn. by rewrite Hx, IH.
Qed.

Lemma next_idle_UInv w : UInv w → UInv (next_idle w).
Proof.
  intros [U1 Uc U2 U3]. unfold next_idle.
  destruct (queue (mutex (lock w))) as [|[hd p] rest] eqn:Eq;
    [by split; rewrite ?Eq|].
  apply Forall_cons in U1 as [[h Hh] U1]. cbn in Hh. subst hd.
  unfold call_runnable, call_work. cbn.
  split; cbn; simpl_trace.
  - done.
  - rewrite fmap_app, Uc. done.
  - apply Forall_app. split; [done|]. by apply Forall_singleton.
  - rewrite !length_app. cbn. lia.
Qed.

Lemma step_UInv e w w' :
  step e w = Some w' → mutex_event e = true → UInv w → UInv w'.
Proof.
  intros Hstep Hm HU. destruct e as [[h|h|h]|hp o|i]; try done;
    unfold step, do_call in Hstep.
  - assert (w' = (run (HUser h) w).2) as -> by congruence.
    rewrite run_eq. cbn.
    assert (UInv (pushed (HUser h) w)) as HU'.
    { destruct HU as [U1 Uc U2 U3]. unfold pushed.
      split; cbn; simpl_trace; try done.
      apply Forall_app. split; [done|]. apply Forall_singleton. eauto. }
    destruct (running (mutex (lock w))); [done|]. by apply next_idle_UInv.
  - repeat case_match; simplify_eq. destruct HU as [U1 Uc U2 U3]. by split.
  - repeat case_match; simplify_eq.
    rename select (reactions w !! i = Some _) into Hi.
    destruct HU as [U1 Uc U2 U3].
    pose proof (Hi' := Hi). apply list_elem_of_lookup_2 in Hi'.
    rewrite Forall_forall in U2. pose proof (U2 _ Hi') as Hrs.
    destruct c; try discriminate. unfold fire. rewrite run_settled_eq.
    apply next_idle_UInv. split; cbn;
      rewrite ?settle_lock, ?settle_reactions, ?settle_trace; cbn; simpl_trace.
    + done.
    + done.
    + apply Forall_forall. intros x Hx%list_elem_of_delete_inv. by apply U2.
    + rewrite length_app, length_delete, U3 by eauto.
      apply lookup_lt_Some in Hi. cbn. lia.
Qed.

Lemma exec_UInv evs w :
  forallb mutex_event evs = true → exec evs init = Some w → UInv w.
Proof.
  assert (∀ w0, UInv w0 → forallb mutex_event evs = true →
                exec evs w0 = Some w → UInv w) as Hgen.
  { induction evs as [|e evs IH]; intros w0 HU Hm Hex; cbn in Hex.
    - by simplify_eq.
    - destruct (step e w0) as [w1|] eqn:Hs; [|done].
      cbn in Hm. apply andb_prop in Hm as [Hm1 Hm2].
      apply (IH w1); try done. by eapply step_UInv. }
  intros Hm Hex. apply (Hgen init); try done.
Qed.



(** ** Jobs, unfolded *)

Lemma step_fire w i s cb o :
  reactions w !! i = Some (s, cb) → source_state s w = Some o →
  step (EFire i) w = Some (fire cb o (set_reactions (delete i (reactions w)) w)).
Proof. intros Hi Hs. unfold step. by rewrite Hi, Hs. Qed.

Lemma exec_app evs1 evs2 w w1 :
  exec evs1 w = Some w1 → exec (evs1 ++ evs2) w = exec evs2 w1.
Proof.
  revert w. induction evs1 as [|e evs1 IH]; intros w Hex; cbn in *.
  - by simplify_eq.
  - destruct (step e w); [by apply IH|done].
Qed.

Lemma next_idle_nil w : queue (mutex (lock w)) = [] → next_idle w = w.
Proof. intros Hq. unfold next_idle. by rewrite Hq. Qed.

Lemma next_idle_callers w : callers (next_idle w) = callers w.
Proof.
  unfold next_idle. destruct (queue (mutex (lock w))) as [|[[h|h|b] p] rest]; [done|..];
    unfold call_runnable, call_work, batch_executor;
    cbn; rewrite ?start_members_eq; done.
Qed.

Lemma next_idle_cons w fx rest :
  queue (mutex (lock w)) = fx :: rest →
  (∃ t, trace (next_idle w) = trace w ++ ObsEnter (r_handler fx) :: t) ∧
  running (mutex (lock (next_idle w))) = true ∧
  queue (mutex (lock (next_idle w))) = rest.
Proof.
  intros Hq. unfold next_idle. rewrite Hq.
  destruct fx as [[h|h|b] p]; unfold call_runnable, call_work, batch_executor;
    cbn; rewrite ?start_members_eq; cbn; rewrite <- ?app_assoc; cbn; eauto.
Qed.

Lemma next_idle_invoked w :
  invoked (trace (next_idle w)) =
  invoked (trace w) ++
  match queue (mutex (lock w)) with
  | [] => []
  | fx :: _ => work_handlers (heap w) (r_handler fx)
  end.
Proof.
  unfold next_idle. destruct (queue (mutex (lock w))) as [|[[h|h|b] p] rest];
    [by rewrite app_nil_r|..];
    unfold call_runnable, call_work, batch_executor;
    cbn; rewrite ?start_members_eq; cbn; by simpl_trace.
Qed.

(** C7. When the work item a mutex is running settles, its completion
    callback settles the caller's promise (pending until then) with the
    handler's outcome and, in the same job, starts the next queued work
    item, the settlement coming first in the trace; with an empty queue
    the job leaves the lock idle.  Hence in every state between jobs an
    idle lock has an empty queue. *)
Theorem C7_settle_then_start_next evs w :
  exec evs init = Some w →
  (isIdle w = true → getQueueLength w = 0) ∧
  ∀ i s p o,
    reactions w !! i = Some (s, RunSettled p) →
    source_state s w = Some o →
    ∃ w', step (EFire i) w = Some w' ∧
      callers w !! p = Some None ∧
      callers w' !! p = Some (Some o) ∧
      match queue (mutex (lock w)) with
      | [] => trace w' = trace w ++ [ObsSettle p o] ∧
              isIdle w' = true ∧ getQueueLength w' = 0
      | fx :: rest =>
          (∃ t, trace w' = trace w ++ ObsSettle p o :: ObsEnter (r_handler fx) :: t) ∧
          isIdle w' = false ∧ queue (mutex (lock w')) = rest
      end.
Proof.
  intros Hex. destruct (exec_invariants evs w Hex) as (HM & HG & _). split.
  - unfold isIdle, getQueueLength. intros Hr%negb_true_iff.
    by rewrite (m_idle w HM Hr).
  - intros i s p o Hi Hs. eexists. split; [exact (step_fire w i s _ o Hi Hs)|].
    pose proof (ref_pending w i _ _ p HG Hi eq_refl) as Hpend.
    split; [done|]. unfold fire. rewrite run_settled_eq.
    set (w1 := set_running false (settle p o (set_reactions (delete i (reactions w)) w))).
    assert (callers w1 = <[p := Some o]> (callers w)) as Hc.
    { unfold w1. cbn. by rewrite settle_callers_pending. }
    assert (trace w1 = trace w ++ [ObsSettle p o]) as Ht.
    { unfold w1. cbn. by rewrite settle_trace. }
    assert (queue (mutex (lock w1)) = queue (mutex (lock w))) as Hq.
    { unfold w1. cbn. by rewrite settle_lock. }
    split.
    { rewrite next_idle_callers, Hc. apply list_lookup_insert_eq.
      by eapply lookup_lt_Some. }
    destruct (queue (mutex (lock w))) as [|fx rest] eqn:Eq.
    + rewrite (next_idle_nil w1 Hq). unfold isIdle, getQueueLength.
      rewrite Hq, Ht. done.
    + destruct (next_idle_cons w1 fx rest Hq) as ([t Ht'] & Hr & Hq').
      unfold isIdle. rewrite Hr, Hq', Ht', Ht, <- app_assoc. eauto.
Qed.

Lemma C7_witness :
  ∃ w, exec [ECall (CRun 1); ECall (CRun 2); ESettle 0 (Rejected (VData 7))] init
       = Some w ∧
    ∃ w', step (EFire 0) w = Some w' ∧
          callers w' !! 0 = Some (Some (Rejected (VData 7))) ∧
          isIdle w' = false.
Proof.
  eexists. split; [vm_compute; reflexivity|].
  destruct (C7_settle_then_start_next
              [ECall (CRun 1); ECall (CRun 2); ESettle 0 (Rejected (VData 7))] _
              ltac:(vm_compute; reflexivity)) as [_ H].
  destruct (H 0 (OnHandler 0) 0 (Rejected (VData 7))
              ltac:(vm_compute; reflexivity) ltac:(vm_compute; reflexivity))
    as (w' & Hs & _ & Hc & _ & Hi & _).
  exists w'. split; [exact Hs|]. split; [exact Hc|exact Hi].
Defined.

(** ** Calls *)

Lemma run_callers h w : callers (run h w).2 = callers w ++ [None].
Proof.
  rewrite run_eq. cbn. destruct (running (mutex (lock w)));
    rewrite ?next_idle_callers; done.
Qed.

Lemma run_invoked h w :
  MInv w →
  invoked (trace (run h w).2) =
  invoked (trace w) ++
  (if running (mutex (lock w)) then [] else work_handlers (heap w) h).
Proof.
  intros HM. rewrite run_eq. cbn.
  destruct (running (mutex (lock w))) eqn:Hr.
  - unfold pushed. cbn. by simpl_trace.
  - rewrite next_idle_invoked. unfold pushed. cbn.
    rewrite (m_idle w HM Hr). cbn. by simpl_trace.
Qed.

Lemma do_call_fst c w : (do_call c w).1 = length (callers w).
Proof.
  destruct c; unfold do_call, write, read; rewrite ?run_eq; done.
Qed.

Lemma do_call_callers c w :
  ∃ k, callers (do_call c w).2 = callers w ++ None :: k.
Proof.
  destruct c as [h|h|h]; unfold do_call, write, read.
  - rewrite run_callers. by exists [].
  - rewrite run_callers. by exists [].
  - cbn. destruct (tailFxList (lock w)); cbn [snd].
    + exists []. by case_match.
    + rewrite run_callers. cbn. exists [None]. by rewrite <- app_assoc.
Qed.

Lemma do_call_invoked c w :
  MInv w →
  invoked (trace (do_call c w).2) =
  invoked (trace w) ++ (if starts_now c w then [handler_of c] else []).
Proof.
  intros HM. destruct c as [h|h|h]; unfold do_call, write, read, starts_now, isIdle.
  - rewrite run_invoked by done. by destruct (running _).
  - rewrite run_invoked.
    + cbn. by destruct (running _).
    + eapply MInv_frame; [|exact HM]. solve_mview.
  - cbn. destruct (tailFxList (lock w)); cbn [snd].
    + unfold getQueueLength. cbn. case_match; cbn; by simpl_trace.
    + rewrite run_invoked.
      * cbn. destruct (running _); [done|].
        by rewrite lookup_app_r, Nat.sub_diag.
      * eapply MInv_frame; [|exact HM]. solve_mview.
Qed.

Lemma do_call_waits c w :
  starts_now c w = false → waits c w (do_call c w).2.
Proof.
  destruct c as [h|h|h]; unfold starts_now, isIdle, do_call, write, read, waits;
    intros Hs.
  - apply negb_false_iff in Hs. rewrite run_eq, Hs. done.
  - apply negb_false_iff in Hs. rewrite run_eq. cbn. rewrite Hs. done.
  - cbn. destruct (tailFxList (lock w)); cbn [snd].
    + unfold getQueueLength in *. cbn in *. apply negb_false_iff in Hs.
      rewrite Hs. done.
    + apply negb_false_iff in Hs. rewrite run_eq. cbn. rewrite Hs. cbn.
      rewrite length_app, Nat.add_1_r. done.
Qed.

(** C9, refuted as stated: called on an idle mutex, [run] calls the
    handler before it returns. *)
Lemma C9_counterexample : ¬ defers_execution (CRun 7) init.
Proof. unfold defers_execution. vm_compute. discriminate. Qed.

(** C9, amended.  [run], [write] and [read] never suspend: in any
    reachable state a call returns at once a promise that no earlier call
    returned, and leaves the promises handed out earlier as they are, so
    callers may make further calls without awaiting earlier ones.  The
    execution of the handler is deferred, the call only leaving its work
    on the queue of the mutex or on the member list of the queued batch,
    unless the lock can take the work at once (the lock is idle, or the
    read joins a batch that is already running): exactly then the handler
    is called inside the call itself. *)
Theorem C9_calls_never_suspend evs w c :
  exec evs init = Some w →
  (do_call c w).1 = length (callers w) ∧
  (do_call c w).1 < length (callers (do_call c w).2) ∧
  (∀ q, q < length (callers w) →
        callers (do_call c w).2 !! q = callers w !! q) ∧
  invoked (trace (do_call c w).2) =
  invoked (trace w) ++ (if starts_now c w then [handler_of c] else []) ∧
  (starts_now c w = false → waits c w (do_call c w).2).
Proof.
  intros Hex. destruct (exec_invariants evs w Hex) as (HM & _ & _).
  destruct (do_call_callers c w) as [k Hk].
  rewrite do_call_fst, Hk. repeat split.
  - rewrite length_app. cbn. lia.
  - intros q Hq. by rewrite lookup_app_l.
  - by apply do_call_invoked.
  - by apply do_call_waits.
Qed.

Lemma C9_witness :
  ∃ w, exec [ECall (CWrite 1)] init = Some w ∧
       (do_call (CRead 2) w).1 = 1 ∧
       invoked (trace (do_call (CRead 2) w).2) = invoked (trace w).
Proof.
  eexists. split; [vm_compute; reflexivity|].
  destruct (C9_calls_never_suspend [ECall (CWrite 1)] _ (CRead 2)
              ltac:(vm_compute; reflexivity)) as (H1 & _ & _ & H2 & _).
  split; [exact H1|]. rewrite H2. vm_compute; reflexivity.
Defined.

(** ** Failures *)

Lemma erase_app t1 t2 : erase (t1 ++ t2) = erase t1 ++ erase t2.
Proof. apply fmap_app. Qed.

Lemma next_idle_same_progress w1 w2 :
  same_progress w1 w2 → same_progress (next_idle w1) (next_idle w2).
Proof.
  intros (Hl & Hh & Hw & Hb & Hv & Hr & Hp & Hc & Ht). unfold next_idle.
  rewrite Hl. destruct (queue (mutex (lock w2))) as [|[[h|h|b] p] rest].
  - by repeat split.
  - unfold call_runnable, call_work, same_progress; cbn.
    rewrite ?Hl, ?Hh, ?Hw, ?Hb, ?Hv, ?Hr, ?Hp, !erase_app, ?Ht, ?length_app, ?Hc.
    by repeat split.
  - unfold call_runnable, call_work, same_progress; cbn.
    rewrite ?Hl, ?Hh, ?Hw, ?Hb, ?Hv, ?Hr, ?Hp, !erase_app, ?Ht, ?length_app, ?Hc.
    by repeat split.
  - unfold call_runnable, call_work, batch_executor, same_progress; cbn.
    rewrite !start_members_eq. cbn.
    rewrite ?Hl, ?Hh, ?Hw, ?Hb, ?Hv, ?Hr, ?Hp, !erase_app, ?Ht, ?length_app, ?Hc.
    by repeat split.
Qed.

Lemma settle_same_progress p o1 o2 w :
  same_progress (settle p o1 w) (settle p o2 w).
Proof.
  unfold same_progress.
  rewrite !settle_lock, !settle_handlers, !settle_wrappers, !settle_batches,
    !settle_vvvs, !settle_reactions, !settle_heap, !settle_callers_length,
    !settle_trace, !erase_app.
  by repeat split.
Qed.

Lemma fire_same_progress p o1 o2 w :
  same_progress (fire (RunSettled p) o1 w) (fire (RunSettled p) o2 w).
Proof.
  unfold fire. rewrite !run_settled_eq. apply next_idle_same_progress.
  destruct (settle_same_progress p o1 o2 w)
    as (Hl & Hh & Hw & Hb & Hv & Hr & Hp & Hc & Ht).
  unfold same_progress. cbn. rewrite ?Hl, ?Hh, ?Hw, ?Hb, ?Hv, ?Hr, ?Hp, ?Hc, ?Ht.
  by repeat split.
Qed.

Lemma fire_read_same_progress p vp o1 o2 w :
  same_progress (fire (ReadAwait p vp) o1 w) (fire (ReadAwait p vp) o2 w).
Proof.
  unfold fire, fulfil_vvv.
  destruct (settle_same_progress p o1 o2 w)
    as (Hl & Hh & Hw & Hb & Hv & Hr & Hp & Hc & Ht).
  unfold same_progress. cbn. rewrite ?Hl, ?Hh, ?Hw, ?Hb, ?Hv, ?Hr, ?Hp, ?Hc, ?Ht.
  by repeat split.
Qed.

Lemma handler_source w hp o :
  handlers w !! hp = Some (Some o) → source_state (OnHandler hp) w = Some o.
Proof. intros H. cbn. by rewrite H. Qed.

(** C5. Calling a read's closure calls the read's handler and registers
    the read's continuation on the promise that handler returns.  In every
    reachable state, as soon as that promise has settled the continuation
    can run, whatever the batch-mates are doing; it settles the promise
    [read] returned (pending until then) with the handler's outcome, and
    touches neither the lock, the batch counter, the batch promise nor any
    other caller's promise. *)
Theorem C5_read_settles_with_own_handler evs w i hp p vp o :
  exec evs init = Some w →
  reactions w !! i = Some (OnHandler hp, ReadAwait p vp) →
  handlers w !! hp = Some (Some o) →
  (∀ fx w0,
     trace (call_vvv fx w0).2
       = trace w0 ++ [ObsInvoke (v_handler fx) (length (handlers w0))] ∧
     reactions (call_vvv fx w0).2
       = reactions w0 ++ [(OnHandler (length (handlers w0)),
                           ReadAwait (v_promise fx) (call_vvv fx w0).1)]) ∧
  ∃ w', step (EFire i) w = Some w' ∧
    callers w !! p = Some None ∧
    callers w' !! p = Some (Some o) ∧
    (∀ q, q ≠ p → callers w' !! q = callers w !! q) ∧
    lock w' = lock w ∧ batches w' = batches w ∧
    members_in_flight w' = members_in_flight w.
Proof.
  intros Hex Hi Hh. destruct (exec_invariants evs w Hex) as (HM & HG & _).
  split; [done|].
  eexists. split; [exact (step_fire w i _ _ o Hi (handler_source w hp o Hh))|].
  pose proof (ref_pending w i _ _ p HG Hi eq_refl) as Hpend.
  split; [done|]. unfold fire, fulfil_vvv. cbn.
  rewrite settle_lock, settle_batches, settle_callers_pending by done. cbn.
  repeat split.
  - apply list_lookup_insert_eq. by eapply lookup_lt_Some.
  - intros q Hq. by apply list_lookup_insert_ne.
  - unfold members_in_flight. cbn. rewrite settle_reactions. cbn.
    by rewrite (filter_delete_false _ _ _ _ Hi).
Qed.

Lemma C5_witness :
  ∃ w, exec [ECall (CRead 1); ECall (CRead 2); ESettle 1 (Fulfilled (VData 9))] init
       = Some w ∧
    ∃ w', step (EFire 3) w = Some w' ∧
          callers w' !! 2 = Some (Some (Fulfilled (VData 9))) ∧
          members_in_flight w' = 2.
Proof.
  eexists. split; [vm_compute; reflexivity|].
  destruct (C5_read_settles_with_own_handler
              [ECall (CRead 1); ECall (CRead 2); ESettle 1 (Fulfilled (VData 9))]
              _ 3 1 2 1 (Fulfilled (VData 9))
              ltac:(vm_compute; reflexivity) ltac:(vm_compute; reflexivity)
              ltac:(vm_compute; reflexivity))
    as (_ & w' & Hs & _ & Hc & _ & _ & _ & Hm).
  exists w'. split; [exact Hs|]. split; [exact Hc|]. rewrite Hm.
  vm_compute; reflexivity.
Defined.

Lemma fire_run_invoked p o w :
  invoked (trace (fire (RunSettled p) o w)) =
  invoked (trace w) ++
  match queue (mutex (lock w)) with
  | [] => []
  | fx :: _ => work_handlers (heap w) (r_handler fx)
  end.
Proof.
  unfold fire. rewrite run_settled_eq, next_idle_invoked. cbn.
  rewrite settle_lock, settle_heap, settle_trace. by simpl_trace.
Qed.

(** ** Invariant violations *)

Lemma run_settled_thrown p o w :
  thrown (trace (run_settled p o w)) = thrown (trace w).
Proof.
  rewrite run_settled_eq, next_idle_thrown. cbn. rewrite settle_trace.
  by simpl_trace.
Qed.

(** C10. The two internal-consistency checks throw: [next] when the lock is
    marked running, the bookkeeping callbacks of a batch when the counter
    reaches zero and [batchDone] is unset; a throw in a bookkeeping
    callback is left unhandled.  The callers of [next] only call it with
    the lock not marked running, so in no state at all does [run] or a
    completion callback raise an exception.  And along every sequence of
    calls to [run], [write] and [read] and of settlements of their
    handlers, no [throw] statement ever runs and no reaction fails. *)
Theorem C10_invariant_checks_unreachable evs w :
  exec evs init = Some w →
  thrown (trace w) = [] ∧
  (∀ w0, running (mutex (lock w0)) = true →
         ∃ w1, next w0 = Throw (VStr "call to next() while still running") w1 ∧
               thrown (trace w1) ≠ []) ∧
  (∀ w0 h, thrown (trace (run h w0).2) = thrown (trace w0)) ∧
  (∀ w0 p o, thrown (trace (run_settled p o w0)) = thrown (trace w0)) ∧
  (∀ w0 b, batchDone (lock w0) = None → (remaining (lock w0) - 1)%Z = 0%Z →
           ∃ e w1, batch_member_done b w0 = Throw e w1 ∧
                   joined_member_done b w0 = Throw e w1 ∧
                   thrown (trace w1) ≠ [] ∧
                   ∀ v, trace (on_fulfilled (batch_member_done b) (Fulfilled v) w0)
                        = trace w1 ++ [ObsUnhandled e]).
Proof.
  intros Hex. destruct (exec_invariants evs w Hex) as (_ & _ & Ht).
  split; [done|]. split; [|split; [|split]].
  - intros w0 Hr. unfold next. rewrite Hr. eexists. split; [done|].
    cbn. simpl_trace. by destruct (thrown (trace w0)).
  - intros w0 h. apply run_thrown.
  - intros w0 p o. apply run_settled_thrown.
  - intros w0 b Hbd Hz. unfold on_fulfilled, joined_member_done, batch_member_done.
    cbn. rewrite Hz. cbn.
    destruct (decide (tailFxList (lock w0) = Some b)); cbn; rewrite Hbd;
      do 2 eexists; (split; [done|]); (split; [done|]); cbn; simpl_trace;
      (split; [by destruct (thrown (trace w0))|done]).
Qed.

Lemma C10_witness :
  ∃ w, exec [ECall (CRead 1); ECall (CWrite 2); ECall (CRead 3);
             ESettle 0 (Fulfilled (VData 4)); EFire 0; EFire 0; EFire 0;
             ECall (CRun 5)] init = Some w ∧
       thrown (trace w) = [].
Proof.
  eexists. split; [vm_compute; reflexivity|].
  apply (C10_invariant_checks_unreachable
           [ECall (CRead 1); ECall (CWrite 2); ECall (CRead 3);
            ESettle 0 (Fulfilled (VData 4)); EFire 0; EFire 0; EFire 0;
            ECall (CRun 5)]).
  vm_compute; reflexivity.
Defined.

(** ** The batch *)

Lemma in_flight_batch_pending w :
  RInv w → 0 < members_in_flight w →
  ∃ bp, batchDone (lock w) = Some bp ∧ batches w !! bp = Some false ∧
        ∀ x, In x (in_flight w) → x.1 = OnBatch bp ∧ source_state x.1 w = None.
Proof.
  intros HR Hpos. destruct (r_batch w HR Hpos) as (_ & bp & Hbd & Hbp & Hall).
  exists bp. repeat split; try done.
  - by apply Hall.
  - rewrite (Hall x) by done. by apply source_pending_batch.
Qed.

Lemma write_entered_no_members w h :
  RInv w → last (entered (trace w)) = Some (HWrite h) → members_in_flight w = 0.
Proof.
  intros HR Hl. destruct (members_in_flight w) eqn:E; [done|]. exfalso.
  unfold members_in_flight in E.
  destruct (List.filter is_member_done (reactions w)) as [|x l] eqn:Ef; [done|].
  assert (In x (List.filter is_member_done (reactions w))) as Hin
    by (rewrite Ef; by left).
  apply filter_In in Hin as [Hin Hmd].
  apply is_member_done_captured in Hmd as [b Hb].
  destruct (r_captured w HR x b Hin Hb) as [Hl' _]. congruence.
Qed.



Lemma queue_snoc {A} (l : list A) : l ≠ [] → ∃ pre x, l = pre ++ [x].
Proof.
  intros Hne. destruct (last l) as [x|] eqn:E.
  - apply last_Some in E as [pre ->]. eauto.
  - apply last_None in E. done.
Qed.

Lemma tail_batch_queued w b :
  MInv w → RInv w → tailFxList (lock w) = Some b →
  queue (mutex (lock w)) ≠ [] →
  (∃ pre fx, queue (mutex (lock w)) = pre ++ [fx] ∧ r_handler fx = HBatch b) ∧
  ¬ In (HBatch b) (entered (trace w)).
Proof.
  intros HM HR Ht Hne. destruct (r_tail w HR b Ht) as [Hl _].
  destruct (queue_snoc _ Hne) as (pre & fx & Hq).
  pose proof (m_fifo w HM) as Hf. rewrite Hq, map_app in Hf. cbn in Hf.
  rewrite <- Hf, app_assoc, last_snoc in Hl. simplify_eq. split; [eauto|].
  destruct (r_fresh w HR) as [Hnd _].
  rewrite <- Hf, !batch_ids_app, Hl in Hnd. cbn in Hnd.
  rewrite app_assoc in Hnd. apply NoDup_app in Hnd as (_ & Hdis & _).
  intros Hin%batch_ids_in. apply (Hdis b).
  - apply elem_of_app. left. by apply list_elem_of_In.
  - by left.
Qed.

Lemma tail_batch_running w b :
  MInv w → RInv w → tailFxList (lock w) = Some b →
  queue (mutex (lock w)) = [] →
  last (entered (trace w)) = Some (HBatch b) ∧
  running (mutex (lock w)) = true ∧ 0 < members_in_flight w ∧
  ∃ bp, batchDone (lock w) = Some bp ∧ batches w !! bp = Some false.
Proof.
  intros HM HR Ht Hq. destruct (r_tail w HR b Ht) as [Hl Hpos].
  specialize (Hpos Hq).
  destruct (r_batch w HR Hpos) as (Hr & bp & Hbd & Hbp & _).
  rewrite (fifo_idle_queue w HM Hq). eauto 10.
Qed.

Lemma tail_batch_allocated w b :
  RInv w → tailFxList (lock w) = Some b → ∃ ms, heap w !! b = Some ms.
Proof.
  intros HR Ht. destruct (r_tail w HR b Ht) as [Hl _].
  destruct (r_fresh w HR) as [_ Hlt]. rewrite Forall_forall in Hlt.
  apply lookup_lt_is_Some_2, Hlt, list_elem_of_In, batch_ids_in, last_in, Hl.
Qed.

Lemma call_work_batch b w ms :
  heap w !! b = Some ms →
  invoked (trace (call_work (HBatch b) w).2) = invoked (trace w) ++ (v_handler <$> ms) ∧
  remaining (lock (call_work (HBatch b) w).2) = Z.of_nat (length ms) ∧
  members_in_flight (call_work (HBatch b) w).2 = members_in_flight w + length ms.
Proof.
  intros Hb. unfold call_work, batch_executor, members_in_flight. cbn.
  rewrite start_members_eq, Hb. cbn.
  rewrite List.filter_app, length_app, member_reactions_member_done.
  by simpl_trace.
Qed.



(** ** Writes *)

Lemma next_idle_tail_heap w :
  tailFxList (lock (next_idle w)) = tailFxList (lock w) ∧
  heap (next_idle w) = heap w.
Proof.
  unfold next_idle. destruct (queue (mutex (lock w))) as [|[[h|h|b] p] rest]; [done|..];
    unfold call_runnable, call_work, batch_executor;
    cbn; rewrite ?start_members_eq; done.
Qed.

Lemma run_tail_heap h w :
  tailFxList (lock (run h w).2) = tailFxList (lock w) ∧
  heap (run h w).2 = heap w.
Proof.
  rewrite run_eq. cbn. destruct (running (mutex (lock w))); [done|].
  destruct (next_idle_tail_heap (pushed h w)) as [-> ->]. done.
Qed.

Lemma fire_tail_heap cb o w :
  (tailFxList (lock (fire cb o w)) = None ∨
   tailFxList (lock (fire cb o w)) = tailFxList (lock w)) ∧
  heap (fire cb o w) = heap w.
Proof.
  destruct cb as [p|wp|p vp|b|b]; unfold fire.
  - rewrite run_settled_eq.
    destruct (next_idle_tail_heap (set_running false (settle p o w))) as [-> ->].
    cbn. rewrite settle_lock, settle_heap. auto.
  - auto.
  - unfold fulfil_vvv. cbn. rewrite settle_lock, settle_heap. auto.
  - split; apply member_done_frame.
  - rewrite joined_member_done_eq. split; apply member_done_frame.
Qed.

Lemma step_newer n e w w' : step e w = Some w' → newer n w → newer n w'.
Proof.
  intros Hstep [Hh Ht]. destruct e as [[h|h|h]|hp o|i]; unfold step, do_call in Hstep.
  - assert (w' = (run (HUser h) w).2) as -> by congruence.
    destruct (run_tail_heap (HUser h) w) as [Et Eh]. unfold newer.
    by rewrite Et, Eh.
  - assert (w' = (write h w).2) as -> by congruence. unfold write.
    destruct (run_tail_heap (HWrite h) (set_tailFxList None w)) as [Et Eh].
    unfold newer. rewrite Et, Eh. done.
  - assert (w' = (read h w).2) as -> by congruence. unfold read. cbn.
    destruct (tailFxList (lock w)) as [tail|] eqn:E; cbn [snd].
    + case_match; unfold newer; cbn; rewrite ?length_alter, ?E; done.
    + destruct (run_tail_heap (HBatch (length (heap w)))
                  (set_tailFxList (Some (length (heap w)))
                     (set_heap (heap w ++
                        [[{| v_handler := h; v_promise := length (callers w) |}]])
                        (set_callers (callers w ++ [None]) w)))) as [Et Eh].
      unfold newer. rewrite Et, Eh. cbn. rewrite length_app. cbn.
      split; [lia|]. intros b [= <-]. done.
  - repeat case_match; by simplify_eq.
  - repeat case_match; simplify_eq.
    destruct (fire_tail_heap c o (set_reactions (delete i (reactions w)) w))
      as [[Et|Et] Eh]; unfold newer; rewrite Et, Eh; cbn; done.
Qed.

Lemma exec_newer n evs w w' : exec evs w = Some w' → newer n w → newer n w'.
Proof.
  revert w. induction evs as [|e evs IH]; intros w Hex Hn; cbn in Hex.
  - by simplify_eq.
  - destruct (step e w) as [w1|] eqn:Hs; [|done].
    eapply IH; [exact Hex|]. by eapply step_newer.
Qed.

Lemma newer_joins n w : newer n w → n ≤ joins w.
Proof.
  intros [Hh Ht]. unfold joins. destruct (tailFxList (lock w)); auto.
Qed.

Lemma read_attached h w : RInv w → attached h w.
Proof.
  intros HR. unfold attached, joins, read. cbn.
  destruct (tailFxList (lock w)) as [b|] eqn:Ht; cbn [snd].
  - unfold getQueueLength. cbn. case_match.
    + left. destruct (tail_batch_allocated w b HR Ht) as [ms Hms].
      exists ms. cbn. by rewrite list_lookup_alter_eq, Hms.
    + right. cbn. by rewrite last_snoc.
  - left. exists [].
    destruct (run_tail_heap (HBatch (length (heap w)))
                (set_tailFxList (Some (length (heap w)))
                   (set_heap (heap w ++
                      [[{| v_handler := h; v_promise := length (callers w) |}]])
                      (set_callers (callers w ++ [None]) w)))) as [_ ->].
    cbn. by rewrite lookup_app_r, Nat.sub_diag.
Qed.

Lemma call_work_write h w :
  invoked (trace (call_work (HWrite h) w).2) = invoked (trace w) ++ [h].
Proof. unfold call_work. cbn. by simpl_trace. Qed.



(** * Programs that use a lock through its interface *)

Lemma pushed_plain_RInv h w :
  (∀ b, h ≠ HBatch b) → RInv w → RInv (pushed h (set_tailFxList None w)).
Proof.
  intros Hh [R1 R2 R3 R4 R5 R6].
  assert (batch_ids [h] = []) as Hb by (destruct h as [?|?|b]; [done|done|by destruct (Hh b)]).
  split; unfold pushed, in_flight, members_in_flight in *; cbn; simpl_trace;
    rewrite ?batch_ids_app, ?Hb, ?app_nil_r; cbn; rewrite ?app_nil_r; auto.
  done.
Qed.

Lemma run_user_RInv h w :
  MInv w → RInv w → tailFxList (lock w) = None → RInv (run (HUser h) w).2.
Proof.
  intros HM HR Ht. rewrite <- (set_tail_same w). rewrite Ht.
  apply run_RInv.
  - eapply MInv_frame; [|exact HM]. solve_mview.
  - by apply pushed_plain_RInv.
Qed.

Lemma step_permits_RInv e w w' :
  step e w = Some w' → permits e w → MInv w → RInv w → RInv w'.
Proof.
  intros Hstep [Hrw|[Hm Ht]] HM HR; [by eapply step_RInv|].
  destruct e as [[h|h|h]|hp o|i]; try done; [|by eapply step_RInv..].
  unfold step, do_call in Hstep.
  assert (w' = (run (HUser h) w).2) as -> by congruence.
  by apply run_user_RInv.
Qed.

Lemma step_tail_none e w w' :
  step e w = Some w' → mutex_event e = true →
  tailFxList (lock w) = None → tailFxList (lock w') = None.
Proof.
  intros Hstep Hm Ht. destruct e as [[h|h|h]|hp o|i]; try done.
  - unfold step, do_call in Hstep.
    assert (w' = (run (HUser h) w).2) as -> by congruence.
    by rewrite (proj1 (run_tail_heap _ _)).
  - unfold step in Hstep. destruct (handlers w !! hp) as [[|]|]; try done.
    by assert (w' = set_handlers (<[hp:=Some o]> (handlers w)) w) as -> by congruence.
  - unfold step in Hstep. destruct (reactions w !! i) as [[s cb]|]; [|done].
    destruct (source_state s w) as [o|]; [|done].
    assert (w' = fire cb o (set_reactions (delete i (reactions w)) w)) as ->
      by congruence.
    destruct (fire_tail_heap cb o (set_reactions (delete i (reactions w)) w))
      as [[H|H] _]; [done|]. by rewrite H.
Qed.

(** Induction on the states a lock program reaches, with the invariants
    of the lock at hand. *)
Lemma lock_program_ind (I : World → Prop) :
  I init →
  (∀ e w w', step e w = Some w' → permits e w →
             MInv w → GInv w → RInv w → I w → I w') →
  ∀ evs w, lock_program evs = true → exec evs init = Some w →
           I w ∧ MInv w ∧ GInv w ∧ RInv w.
Proof.
  intros HI Hpres evs w Hlp Hex.
  assert (∀ evs w0,
    exec evs w0 = Some w →
    forallb rw_event evs = true ∨
    (forallb mutex_event evs = true ∧ tailFxList (lock w0) = None) →
    I w0 → MInv w0 → GInv w0 → RInv w0 →
    I w ∧ MInv w ∧ GInv w ∧ RInv w) as Hgen.
  { clear evs Hlp Hex. induction evs as [|e evs IH];
      intros w0 Hex Hmode HI0 HM HG HR; cbn in Hex.
    - by simplify_eq.
    - destruct (step e w0) as [w1|] eqn:Hs; [|done].
      assert (permits e w0) as Ha.
      { destruct Hmode as [H|[H Ht]]; cbn in H; apply andb_true_iff in H as [H _];
          [by left|by right]. }
      apply (IH w1 Hex).
      + destruct Hmode as [H|[H Ht]]; cbn in H; apply andb_true_iff in H as [He H];
          [by left|right]. split; [done|]. by eapply step_tail_none.
      + by eapply Hpres.
      + by eapply step_MInv.
      + by eapply step_GInv.
      + by eapply step_permits_RInv. }
  apply (Hgen evs init Hex); [|done|apply init_MInv|apply init_GInv|apply init_RInv].
  unfold lock_program in Hlp. apply orb_true_iff in Hlp as [H|H]; [by left|by right].
Qed.

Lemma exec_snoc evs e w0 :
  exec (evs ++ [e]) w0 =
  match exec evs w0 with Some w => step e w | None => None end.
Proof.
  revert w0. induction evs as [|e0 evs IH]; intros w0; cbn.
  - by destruct (step e w0).
  - destruct (step e0 w0); [apply IH|done].
Qed.

Lemma exec_tail_none evs w0 w :
  forallb mutex_event evs = true → exec evs w0 = Some w →
  tailFxList (lock w0) = None → tailFxList (lock w) = None.
Proof.
  revert w0. induction evs as [|e evs IH]; intros w0 Hm Hex Ht; cbn in Hex.
  - by simplify_eq.
  - destruct (step e w0) as [w1|] eqn:Hs; [|done].
    cbn in Hm. apply andb_true_iff in Hm as [He Hm].
    apply (IH w1 Hm Hex). by eapply step_tail_none.
Qed.

Lemma lock_program_snoc evs e :
  lock_program (evs ++ [e]) = true → lock_program evs = true.
Proof.
  unfold lock_program. rewrite !forallb_app, !orb_true_iff, !andb_true_iff.
  intros [[H _]|[H _]]; auto.
Qed.

Lemma exec_permits evs e w :
  lock_program (evs ++ [e]) = true → exec evs init = Some w → permits e w.
Proof.
  unfold lock_program. rewrite !forallb_app, !orb_true_iff, !andb_true_iff. cbn.
  rewrite !andb_true_r. intros [[H He]|[H He]] Hex; [by left|right].
  split; [done|]. by eapply exec_tail_none.
Qed.

(** The same, for invariants that mention the jobs run so far. *)
Lemma lock_program_hist_ind (I : list event → World → Prop) :
  I [] init →
  (∀ evs e w w', lock_program evs = true → exec evs init = Some w →
                 step e w = Some w' → permits e w →
                 MInv w → GInv w → RInv w → I evs w → I (evs ++ [e]) w') →
  ∀ evs w, lock_program evs = true → exec evs init = Some w → I evs w.
Proof.
  intros HI Hpres evs. induction evs as [|e evs IH] using rev_ind; intros w Hlp Hex.
  - cbn in Hex. by simplify_eq.
  - rewrite exec_snoc in Hex. destruct (exec evs init) as [w1|] eqn:Hex1; [|done].
    pose proof (lock_program_snoc evs e Hlp) as Hlp1.
    destruct (lock_program_ind (λ _, True) Logic.I
                (λ _ _ _ _ _ _ _ _ _, Logic.I) evs w1 Hlp1 Hex1)
      as (_ & HM & HG & HR).
    eapply Hpres; try done.
    + by eapply exec_permits.
    + by apply IH.
Qed.

(** * The read-write lock serves its callers in call order *)

Lemma waiting_nil w : queue (mutex (lock w)) = [] → waiting w = [].
Proof. intros Hq. unfold waiting. by rewrite Hq. Qed.

Lemma next_idle_waiting w :
  invoked (trace (next_idle w)) ++ waiting (next_idle w)
  = invoked (trace w) ++ waiting w.
Proof.
  rewrite next_idle_invoked. unfold waiting.
  destruct (next_idle_tail_heap w) as [_ Hh]. rewrite Hh.
  destruct (queue (mutex (lock w))) as [|fx rest] eqn:Eq.
  - rewrite next_idle_nil by done. rewrite Eq. by rewrite app_nil_r.
  - destruct (next_idle_cons w fx rest Eq) as (_ & _ & Hq). rewrite Hq. cbn.
    by rewrite <- app_assoc.
Qed.

Lemma run_waiting h w :
  invoked (trace (run h w).2) ++ waiting (run h w).2
  = invoked (trace w) ++ waiting w ++ work_handlers (heap w) h.
Proof.
  assert (invoked (trace (pushed h w)) ++ waiting (pushed h w)
          = invoked (trace w) ++ waiting w ++ work_handlers (heap w) h) as Hp.
  { unfold pushed, waiting. cbn. simpl_trace. by rewrite bind_app, bind_singleton. }
  rewrite run_eq. cbn [snd].
  destruct (running (mutex (lock w))); [done|]. by rewrite next_idle_waiting.
Qed.

Lemma waiting_heap_app w ext :
  MInv w → GInv w →
  queue (mutex (lock w)) ≫= (λ fx, work_handlers (heap w ++ ext) (r_handler fx))
  = waiting w.
Proof.
  intros HM HG. unfold waiting.
  pose proof (λ fx b, queue_batches_bounded w fx b HM HG) as Hb.
  induction (queue (mutex (lock w))) as [|fx q IH]; [done|].
  rewrite !bind_cons. rewrite IH.
  - f_equal. destruct (r_handler fx) as [h|h|b] eqn:Eh; try done. cbn.
    rewrite lookup_app_l; [done|]. eapply Hb; [|done]. apply list_elem_of_here.
  - intros fx' b' Hin. apply Hb. by apply list_elem_of_further.
Qed.

Lemma waiting_alter_notin q hp b (f : list AsyncRunnable → list AsyncRunnable) :
  b ∉ batch_ids (r_handler <$> q) →
  q ≫= (λ fx, work_handlers (alter f b hp) (r_handler fx))
  = q ≫= (λ fx, work_handlers hp (r_handler fx)).
Proof.
  induction q as [|fx q IH]; [done|]. intros Hn.
  rewrite !bind_cons. rewrite IH.
  - f_equal. destruct (r_handler fx) as [h|h|b'] eqn:Eh; try done. cbn.
    rewrite list_lookup_alter_ne; [done|]. intros ->. apply Hn.
    cbn. unfold batch_ids. cbn. rewrite Eh. apply list_elem_of_here.
  - intros Hin. apply Hn. cbn. unfold batch_ids in *. cbn.
    destruct (r_handler fx); try done. by apply list_elem_of_further.
Qed.

Lemma read_waiting h w :
  MInv w → GInv w → RInv w →
  invoked (trace (read h w).2) ++ waiting (read h w).2
  = invoked (trace w) ++ waiting w ++ [h].
Proof.
  intros HM HG HR. unfold read. cbn.
  destruct (tailFxList (lock w)) as [b|] eqn:Ht; cbn [snd].
  - unfold getQueueLength. cbn.
    destruct (queue (mutex (lock w))) as [|q0 qs] eqn:Eq; cbn.
    + unfold waiting. cbn. rewrite Eq. cbn. by simpl_trace.
    + assert (queue (mutex (lock w)) ≠ []) as Hne by by rewrite Eq.
      destruct (tail_batch_queued w b HM HR Ht Hne) as [(pre & fx & Hq & Hfx) _].
      destruct (tail_batch_allocated w b HR Ht) as [ms Hms].
      pose proof (queue_batches_NoDup w HM HG) as Hnd.
      unfold waiting. cbn. rewrite Hq in Hnd |- *.
      rewrite fmap_app, batch_ids_app in Hnd. cbn in Hnd.
      rewrite Hfx in Hnd. apply NoDup_app in Hnd as (_ & Hdis & _).
      rewrite !bind_app, !bind_singleton. rewrite waiting_alter_notin.
      * rewrite Hfx. cbn. rewrite list_lookup_alter_eq, Hms. cbn.
        by rewrite fmap_app, <- !app_assoc.
      * intros Hin. apply (Hdis b Hin). apply list_elem_of_here.
  - rewrite run_waiting. cbn. f_equal.
    pose proof (waiting_heap_app w
                  [[{| v_handler := h; v_promise := length (callers w) |}]] HM HG)
      as Hw.
    unfold waiting at 1. cbn. rewrite Hw. f_equal.
    by rewrite lookup_app_r, Nat.sub_diag.
Qed.

Lemma member_done_invoked b o w :
  invoked (trace (on_fulfilled (batch_member_done b) o w)) = invoked (trace w).
Proof.
  unfold on_fulfilled, batch_member_done, unhandled, release.
  destruct o; cbn; [|by simpl_trace].
  destruct (remaining (lock w) - 1 =? 0)%Z; cbn; [|done].
  destruct (decide (tailFxList (lock w) = Some b)); cbn;
    destruct (batchDone (lock w)) eqn:Ebd; cbn; by simpl_trace.
Qed.

Lemma fire_waiting cb o w :
  invoked (trace (fire cb o w)) ++ waiting (fire cb o w)
  = invoked (trace w) ++ waiting w.
Proof.
  destruct cb as [p|wp|p vp|b|b]; unfold fire.
  - rewrite run_settled_eq, next_idle_waiting. unfold waiting. cbn.
    rewrite settle_lock, settle_heap, settle_trace. by simpl_trace.
  - done.
  - unfold fulfil_vvv, waiting. cbn.
    rewrite settle_lock, settle_heap, settle_trace. by simpl_trace.
  - rewrite member_done_invoked. unfold waiting.
    destruct (member_done_frame b o w) as (-> & _ & _ & _ & -> & _). done.
  - rewrite joined_member_done_eq, member_done_invoked. unfold waiting.
    destruct (member_done_frame b o w) as (-> & _ & _ & _ & -> & _). done.
Qed.

Lemma step_waiting e w w' :
  step e w = Some w' → MInv w → GInv w → RInv w →
  invoked (trace w') ++ waiting w'
  = invoked (trace w) ++ waiting w ++ call_handlers [e].
Proof.
  intros Hstep HM HG HR. destruct e as [[h|h|h]|hp o|i].
  - unfold step, do_call in Hstep.
    assert (w' = (run (HUser h) w).2) as -> by congruence.
    by rewrite run_waiting.
  - unfold step, do_call in Hstep.
    assert (w' = (write h w).2) as -> by congruence.
    unfold write. by rewrite run_waiting.
  - unfold step, do_call in Hstep.
    assert (w' = (read h w).2) as -> by congruence.
    by apply read_waiting.
  - unfold step in Hstep. destruct (handlers w !! hp) as [[|]|]; try done.
    assert (w' = set_handlers (<[hp:=Some o]> (handlers w)) w) as -> by congruence.
    cbn. by rewrite !app_nil_r.
  - unfold step in Hstep. destruct (reactions w !! i) as [[s cb]|]; [|done].
    destruct (source_state s w) as [o|]; [|done].
    assert (w' = fire cb o (set_reactions (delete i (reactions w)) w)) as ->
      by congruence.
    rewrite fire_waiting. cbn. by rewrite !app_nil_r.
Qed.

Lemma call_handlers_app evs1 evs2 :
  call_handlers (evs1 ++ evs2) = call_handlers evs1 ++ call_handlers evs2.
Proof. unfold call_handlers. by rewrite omap_app. Qed.

(** In the model the member loop of a batch runs without interruption and
    a call made by a handler is a job of its own, so the handlers are
    called in the order of the calls.  The theorems below only use what
    does not depend on the order in which the members of one batch are
    called. *)
Lemma exec_call_order evs w :
  lock_program evs = true → exec evs init = Some w →
  invoked (trace w) ++ waiting w = call_handlers evs.
Proof.
  revert evs w. apply (lock_program_hist_ind
    (λ evs w, invoked (trace w) ++ waiting w = call_handlers evs)); [done|].
  intros evs e w w' _ _ Hstep _ HM HG HR IH.
  rewrite (step_waiting e w w' Hstep HM HG HR), call_handlers_app, <- IH.
  by rewrite <- app_assoc.
Qed.

Lemma writes_of_app hs1 hs2 :
  writes_of (hs1 ++ hs2) = writes_of hs1 ++ writes_of hs2.
Proof. unfold writes_of. by rewrite omap_app. Qed.

Lemma write_calls_app evs1 evs2 :
  write_calls (evs1 ++ evs2) = write_calls evs1 ++ write_calls evs2.
Proof. unfold write_calls. by rewrite omap_app. Qed.

Lemma submitted_writes e w : writes_of (submitted e w) = write_calls [e].
Proof.
  destruct e as [[h|h|h]|hp o|i]; try done.
  cbn. by destruct (tailFxList (lock w)).
Qed.

(** X1. In a program that uses a lock through its interface no handler is
    lost and none is called twice: the handlers called so far, together
    with those the queued work items will call, are the handlers passed so
    far, each as often as it was passed.  The handlers of writes come in
    the order of the calls to [write]: the write work items begun so far,
    followed by those queued, are the writes requested so far, in call
    order. *)
Theorem lock_loses_no_handler evs w :
  lock_program evs = true →
  exec evs init = Some w →
  invoked (trace w) ++ waiting w ≡ₚ call_handlers evs ∧
  writes_of (entered (trace w) ++ map r_handler (queue (mutex (lock w))))
  = write_calls evs.
Proof.
  revert evs w. apply (lock_program_hist_ind
    (λ evs w, invoked (trace w) ++ waiting w ≡ₚ call_handlers evs ∧
              writes_of (entered (trace w) ++
                         map r_handler (queue (mutex (lock w))))
              = write_calls evs)).
  - done.
  - intros evs e w w' _ _ Hstep _ HM HG HR [IH1 IH2]. split.
    + rewrite call_handlers_app, <- IH1, <- app_assoc.
      by rewrite (step_waiting e w w' Hstep HM HG HR).
    + rewrite (m_fifo w' (step_MInv e w w' Hstep HM)).
      rewrite (step_enqueued e w w' Hstep), writes_of_app, write_calls_app.
      by rewrite <- (m_fifo w HM), IH2, submitted_writes.
Qed.

Lemma lock_loses_no_handler_witness :
  ∃ w, exec [ECall (CRead 1); ECall (CWrite 2); ECall (CRead 3); ECall (CWrite 4);
             ESettle 0 (Fulfilled (VData 0)); EFire 0; EFire 0; EFire 0] init
       = Some w ∧
       invoked (trace w) ++ waiting w ≡ₚ [1; 2; 3; 4] ∧
       writes_of (entered (trace w) ++ map r_handler (queue (mutex (lock w))))
       = [2; 4].
Proof.
  eexists. split; [vm_compute; reflexivity|].
  exact (lock_loses_no_handler
    [ECall (CRead 1); ECall (CWrite 2); ECall (CRead 3); ECall (CWrite 4);
     ESettle 0 (Fulfilled (VData 0)); EFire 0; EFire 0; EFire 0] _
    ltac:(vm_compute; reflexivity) ltac:(vm_compute; reflexivity)).
Defined.

(** * No caller is forgotten *)

Lemma next_idle_refs w : refs (next_idle w) ≡ₚ refs w.
Proof.
  unfold next_idle.
  destruct (queue (mutex (lock w))) as [|fx rest] eqn:Eq; [done|].
  destruct fx as [[h|h|b0] p]; unfold call_runnable, call_work, refs; cbn;
    rewrite ?Eq; unfold batch_executor; rewrite ?start_members_eq; cbn;
    rewrite ?bind_cons, ?bind_app, ?member_reactions_rref; cbn;
    rewrite ?app_nil_r; solve_Permutation.
Qed.

Lemma pushed_refs h w :
  refs (pushed h w)
  ≡ₚ qref (heap w) {| r_handler := h; r_promise := length (callers w) |} ++ refs w.
Proof.
  unfold pushed, refs. cbn. rewrite bind_app, bind_singleton. solve_Permutation.
Qed.

Lemma run_refs h w :
  refs (run h w).2
  ≡ₚ qref (heap w) {| r_handler := h; r_promise := length (callers w) |} ++ refs w.
Proof.
  rewrite run_eq. cbn [snd]. destruct (running (mutex (lock w))).
  - apply pushed_refs.
  - rewrite next_idle_refs. apply pushed_refs.
Qed.

Lemma run_PInv h w : PInv w → PInv (run h w).2.
Proof.
  intros HP p Hp. rewrite run_refs. rewrite run_callers in Hp.
  apply elem_of_app. destruct (decide (p < length (callers w))) as [Hlt|Hge].
  - right. apply HP. by rewrite lookup_app_l in Hp.
  - left. cbn. apply lookup_lt_Some in Hp. rewrite length_app in Hp. cbn in Hp.
    assert (p = length (callers w)) as -> by lia. apply list_elem_of_here.
Qed.

Lemma read_PInv h w : MInv w → GInv w → RInv w → PInv w → PInv (read h w).2.
Proof.
  intros HM HG HR HP. unfold read. cbn.
  destruct (tailFxList (lock w)) as [b|] eqn:Ht; cbn [snd].
  - unfold getQueueLength. cbn.
    destruct (queue (mutex (lock w))) as [|q0 qs] eqn:Eq; cbn.
    + intros p Hp. cbn in Hp. unfold refs. cbn. rewrite Eq. cbn.
      rewrite !bind_app. cbn. rewrite app_nil_r. apply elem_of_app.
      destruct (decide (p < length (callers w))) as [Hlt|Hge].
      * left. rewrite lookup_app_l in Hp by done. specialize (HP p Hp).
        unfold refs in HP. rewrite Eq in HP. exact HP.
      * right. apply lookup_lt_Some in Hp. rewrite length_app in Hp. cbn in Hp.
        assert (p = length (callers w)) as -> by lia.
        apply list_elem_of_here.
    + assert (queue (mutex (lock w)) ≠ []) as Hne by by rewrite Eq.
      destruct (tail_batch_queued w b HM HR Ht Hne) as [(pre & fx & Hq & Hfx) _].
      destruct (tail_batch_allocated w b HR Ht) as [ms Hms].
      destruct (refs_push_member w b
                  {| v_handler := h; v_promise := length (callers w) |}
                  (callers w ++ [None]) HM HG) as (extra & _ & Hpush).
      intros p Hp. cbn in Hp.
      destruct (decide (p < length (callers w))) as [Hlt|Hge].
      * rewrite lookup_app_l in Hp by done. rewrite Hpush.
        apply elem_of_app. right. by apply HP.
      * apply lookup_lt_Some in Hp. rewrite length_app in Hp. cbn in Hp.
        assert (p = length (callers w)) as -> by lia.
        unfold refs. cbn. rewrite Hq, bind_app, bind_singleton.
        apply elem_of_app. left. apply elem_of_app. right.
        unfold qref. rewrite Hfx. cbn. rewrite list_lookup_alter_eq, Hms. cbn.
        apply list_elem_of_further. rewrite fmap_app. apply elem_of_app. right.
        apply list_elem_of_here.
  - intros p Hp. rewrite run_callers in Hp. cbn in Hp. rewrite run_refs. cbn.
    rewrite lookup_app_r, Nat.sub_diag by done. cbn.
    rewrite length_app. cbn. rewrite Nat.add_1_r.
    destruct (decide (p < length (callers w))) as [Hlt|Hge].
    + do 2 apply list_elem_of_further.
      rewrite <- app_assoc in Hp. rewrite lookup_app_l in Hp by done.
      specialize (HP p Hp). unfold refs in *. cbn.
      rewrite qrefs_heap_app; [done|].
      intros fx b' Hin Hb'. by eapply queue_batches_bounded.
    + apply lookup_lt_Some in Hp. rewrite !length_app in Hp. cbn in Hp.
      assert (p = length (callers w) ∨ p = S (length (callers w))) as [-> | ->]
        by lia.
      * apply list_elem_of_further, list_elem_of_here.
      * apply list_elem_of_here.
Qed.

Lemma refs_frame w w' :
  queue (mutex (lock w')) = queue (mutex (lock w)) → heap w' = heap w →
  reactions w' = reactions w → refs w' = refs w.
Proof. intros Hq Hh Hr. unfold refs. by rewrite Hq, Hh, Hr. Qed.

Lemma settled_PInv w i s cb p o w1 :
  GInv w → PInv w → reactions w !! i = Some (s, cb) → rref (s, cb) = [p] →
  queue (mutex (lock w1)) = queue (mutex (lock w)) → heap w1 = heap w →
  reactions w1 = delete i (reactions w) →
  callers w1 = <[p := Some o]> (callers w) →
  PInv w1.
Proof.
  intros HG HP Hi Hr Hq Hh Hre Hc q Hpend. rewrite Hc in Hpend.
  assert (q ≠ p) as Hne.
  { intros ->. pose proof (ref_pending w i _ _ p HG Hi Hr) as Hp.
    rewrite list_lookup_insert_eq in Hpend by by eapply lookup_lt_Some. done. }
  rewrite list_lookup_insert_ne in Hpend by done.
  specialize (HP q Hpend). rewrite (refs_delete w i _ Hi), Hr in HP.
  apply elem_of_cons in HP as [?|HP]; [done|].
  erewrite refs_frame; [exact HP|..]; done.
Qed.

Lemma unsettled_PInv w i x w1 :
  PInv w → reactions w !! i = Some x → rref x = [] →
  queue (mutex (lock w1)) = queue (mutex (lock w)) → heap w1 = heap w →
  reactions w1 = delete i (reactions w) → callers w1 = callers w →
  PInv w1.
Proof.
  intros HP Hi Hr Hq Hh Hre Hc q Hpend. rewrite Hc in Hpend.
  specialize (HP q Hpend). rewrite (refs_delete w i _ Hi), Hr in HP.
  erewrite refs_frame; [exact HP|..]; done.
Qed.

Lemma next_idle_PInv w : PInv w → PInv (next_idle w).
Proof.
  intros HP p Hp. rewrite next_idle_refs. apply HP.
  by rewrite next_idle_callers in Hp.
Qed.

Lemma fire_PInv w i s cb o :
  GInv w → PInv w → reactions w !! i = Some (s, cb) →
  PInv (fire cb o (set_reactions (delete i (reactions w)) w)).
Proof.
  intros HG HP Hi. destruct cb as [p|wp|p vp|b|b]; unfold fire.
  - rewrite run_settled_eq. apply next_idle_PInv.
    pose proof (ref_pending w i _ _ p HG Hi eq_refl) as Hpend.
    eapply (settled_PInv w i _ _ p o); try done; cbn;
      rewrite ?settle_lock, ?settle_heap, ?settle_reactions; try done.
    by rewrite settle_callers_pending.
  - by eapply (unsettled_PInv w i _ _ HP Hi).
  - pose proof (ref_pending w i _ _ p HG Hi eq_refl) as Hpend.
    eapply (settled_PInv w i _ _ p o); try done; unfold fulfil_vvv; cbn;
      rewrite ?settle_lock, ?settle_heap, ?settle_reactions; try done.
    by rewrite settle_callers_pending.
  - destruct (member_done_frame b o (set_reactions (delete i (reactions w)) w))
      as (Hq & _ & _ & _ & Hh & Hr & _ & _ & _ & _ & _ & _ & Hc).
    by eapply (unsettled_PInv w i _ _ HP Hi).
  - rewrite joined_member_done_eq.
    destruct (member_done_frame b o (set_reactions (delete i (reactions w)) w))
      as (Hq & _ & _ & _ & Hh & Hr & _ & _ & _ & _ & _ & _ & Hc).
    by eapply (unsettled_PInv w i _ _ HP Hi).
Qed.

Lemma step_PInv e w w' :
  step e w = Some w' → MInv w → GInv w → RInv w → PInv w → PInv w'.
Proof.
  intros Hstep HM HG HR HP. destruct e as [[h|h|h]|hp o|i].
  - unfold step, do_call in Hstep.
    assert (w' = (run (HUser h) w).2) as -> by congruence. by apply run_PInv.
  - unfold step, do_call in Hstep.
    assert (w' = (write h w).2) as -> by congruence.
    unfold write. by apply run_PInv.
  - unfold step, do_call in Hstep.
    assert (w' = (read h w).2) as -> by congruence. by apply read_PInv.
  - unfold step in Hstep. destruct (handlers w !! hp) as [[|]|]; try done.
    by assert (w' = set_handlers (<[hp:=Some o]> (handlers w)) w) as -> by congruence.
  - unfold step in Hstep. destruct (reactions w !! i) as [[s cb]|] eqn:Hi; [|done].
    destruct (source_state s w) as [o|]; [|done].
    assert (w' = fire cb o (set_reactions (delete i (reactions w)) w)) as ->
      by congruence.
    by eapply fire_PInv.
Qed.

(** * Every continuation has what it waits for *)

Lemma in_delete_ne {A} (l : list A) i x y :
  In x l → l !! i = Some y → x ≠ y → In x (delete i l).
Proof.
  revert i. induction l as [|a l IH]; intros i Hin Hi Hne; [done|].
  destruct i as [|i]; cbn in *.
  - destruct Hin as [->|Hin]; [by simplify_eq|done].
  - destruct Hin as [->|Hin]; [by left|right]. by eapply IH.
Qed.

Lemma delete_lookup_middle {A} (l : list A) i x :
  l !! i = Some x → ∃ l1 l2, l = l1 ++ x :: l2 ∧ delete i l = l1 ++ l2.
Proof.
  intros Hi. exists (take i l), (drop (S i) l). split.
  - by rewrite take_drop_middle.
  - apply delete_take_drop.
Qed.

Lemma omap_singleton_Some {A B} (f : A → option B) x t :
  f x = Some t → omap f [x] = [t].
Proof. intros H. cbn. by rewrite H. Qed.

Lemma omap_singleton_None {A B} (f : A → option B) x :
  f x = None → omap f [x] = [].
Proof. intros H. cbn. by rewrite H. Qed.

Lemma resolves_delete_fresh (l : list (source * callback)) i x t y :
  NoDup (omap resolves l) → l !! i = Some x → resolves x = Some t →
  In y (delete i l) → resolves y ≠ Some t.
Proof.
  intros Hnd Hi Hx Hy Hyt.
  destruct (delete_lookup_middle l i x Hi) as (l1 & l2 & -> & Hd). rewrite Hd in Hy.
  change (x :: l2) with ([x] ++ l2) in Hnd.
  rewrite !omap_app, (omap_singleton_Some _ _ _ Hx) in Hnd.
  apply NoDup_app in Hnd as (_ & Hdis & Hnd2).
  apply NoDup_cons in Hnd2 as [Hn2 _].
  apply in_app_or in Hy as [Hy|Hy].
  - apply (Hdis t); [|apply list_elem_of_here].
    apply list_elem_of_omap. exists y. split; [by apply list_elem_of_In|done].
  - apply Hn2. apply list_elem_of_omap. exists y.
    split; [by apply list_elem_of_In|done].
Qed.

Lemma resolves_delete_NoDup (l : list (source * callback)) i x :
  l !! i = Some x → NoDup (omap resolves l) → NoDup (omap resolves (delete i l)).
Proof.
  intros Hi Hnd. eapply sublist_NoDup; [exact Hnd|].
  destruct (delete_lookup_middle l i x Hi) as (l1 & l2 & -> & ->).
  rewrite !omap_app. apply sublist_app; [done|].
  cbn. destruct (resolves x); [by apply sublist_cons|done].
Qed.

Lemma well_formed_extend w w' x :
  well_formed w x →
  (∃ n, reactions w' = reactions w ++ n) →
  (∃ hs, handlers w' = handlers w ++ hs) →
  (∃ ws, wrappers w' = wrappers w ++ ws) →
  (∃ vs, vvvs w' = vvvs w ++ vs) →
  (∃ bs, batches w' = batches w ++ bs) →
  members_in_flight w ≤ members_in_flight w' →
  well_formed w' x.
Proof.
  intros Hwf [n Hr] [hs Hh] [ws Hw] [vs Hv] [bs Hb] Hm.
  destruct x as [[hp|wp|bp|vp] [p|wp'|p vp'|b|b]]; cbn in *; try done;
    rewrite ?Hr, ?Hh, ?Hw, ?Hv, ?Hb, ?length_app.
  - lia.
  - destruct Hwf as (H1 & H2 & q & H3). split; [lia|]. split.
    + by apply lookup_app_l_Some.
    + exists q. apply in_or_app. by left.
  - destruct Hwf as (H1 & H2 & q & H3). split; [lia|]. split.
    + by apply lookup_app_l_Some.
    + exists q. apply in_or_app. by left.
  - destruct Hwf as [[o H]|[hp H]]; [left|right].
    + exists o. by apply lookup_app_l_Some.
    + exists hp. apply in_or_app. by left.
  - destruct Hwf as [H|[H1 H2]]; [left|right].
    + by apply lookup_app_l_Some.
    + split; [by apply lookup_app_l_Some|lia].
  - destruct Hwf as [H|(hp & p & H)]; [left|right].
    + by apply lookup_app_l_Some.
    + exists hp, p. apply in_or_app. by left.
  - destruct Hwf as [H|(hp & p & H)]; [left|right].
    + by apply lookup_app_l_Some.
    + exists hp, p. apply in_or_app. by left.
Qed.

Lemma resolves_allocated w x :
  LInv w → In x (reactions w) →
  match resolves x with
  | Some (OnWrapper wp) => wp < length (wrappers w)
  | Some (OnVvv vp) => vp < length (vvvs w)
  | _ => True
  end.
Proof.
  intros HL Hin. pose proof (l_reactions w HL x Hin) as Hwf.
  destruct x as [[hp|wp|bp|vp] [p|wp'|p vp'|b|b]]; cbn in *; try done.
  - destruct Hwf as (_ & H & _). by eapply lookup_lt_Some.
  - destruct Hwf as (_ & H & _). by eapply lookup_lt_Some.
Qed.

(** Registering new reactions, with the promises they need. *)
Lemma LInv_extend w w' n :
  LInv w →
  reactions w' = reactions w ++ n →
  (∃ hs, handlers w' = handlers w ++ hs) →
  (∃ ws, wrappers w' = wrappers w ++ ws) →
  (∃ vs, vvvs w' = vvvs w ++ vs) →
  (∃ bs, batches w' = batches w ++ bs) →
  members_in_flight w ≤ members_in_flight w' →
  (∀ x, In x n → well_formed w' x) →
  NoDup (omap resolves n) →
  (∀ x, In x n →
     match resolves x with
     | Some (OnWrapper wp) => length (wrappers w) ≤ wp
     | Some (OnVvv vp) => length (vvvs w) ≤ vp
     | _ => True
     end) →
  (∀ hp, length (handlers w) ≤ hp → handlers w' !! hp = Some None →
         ∃ cb, In (OnHandler hp, cb) n) →
  LInv w'.
Proof.
  intros HL Hr Hh Hw Hv Hb Hm Hnew Hnd Hfresh Hpend. split.
  - intros x Hin. rewrite Hr in Hin. apply in_app_or in Hin as [Hin|Hin].
    + eapply well_formed_extend; eauto. apply (l_reactions w HL x Hin).
    + by apply Hnew.
  - rewrite Hr, omap_app. apply NoDup_app. split; [apply HL|]. split; [|done].
    intros t [x [Hx Ht]]%list_elem_of_omap [y [Hy Ht']]%list_elem_of_omap.
    apply list_elem_of_In in Hx, Hy.
    pose proof (resolves_allocated w x HL Hx) as H1.
    pose proof (Hfresh y Hy) as H2. rewrite Ht in H1. rewrite Ht' in H2.
    destruct x as [s [p|wp|p vp|b|b]]; unfold resolves in Ht; cbn in Ht;
      simplify_eq; lia.
  - intros hp Hp. destruct Hh as [hs Hh].
    destruct (decide (hp < length (handlers w))) as [Hlt|Hge].
    + rewrite Hh, lookup_app_l in Hp by done.
      destruct (l_pending w HL hp Hp) as [cb Hcb]. exists cb.
      rewrite Hr. apply in_or_app. by left.
    + destruct (Hpend hp ltac:(lia) Hp) as [cb Hcb]. exists cb.
      rewrite Hr. apply in_or_app. by right.
Qed.

Lemma member_reactions_inv b h0 v0 ms x :
  In x (member_reactions b h0 v0 ms) →
  ∃ k, k < length ms ∧
       ((∃ p, x = (OnHandler (h0 + k), ReadAwait p (v0 + k))) ∨
        x = (OnVvv (v0 + k), BatchMemberDone b)).
Proof.
  revert h0 v0. induction ms as [|m ms IH]; intros h0 v0 Hin; [done|].
  cbn in Hin. destruct Hin as [<-|[<-|Hin]].
  - exists 0. rewrite !Nat.add_0_r. cbn. split; [lia|]. left. by eexists.
  - exists 0. rewrite !Nat.add_0_r. cbn. split; [lia|]. by right.
  - destruct (IH _ _ Hin) as (k & Hk & H). exists (S k). cbn.
    rewrite <- !Nat.add_succ_comm. split; [lia|done].
Qed.

Lemma member_reactions_in_k b h0 v0 ms k :
  k < length ms →
  (∃ p, In (OnHandler (h0 + k), ReadAwait p (v0 + k)) (member_reactions b h0 v0 ms)) ∧
  In (OnVvv (v0 + k), BatchMemberDone b) (member_reactions b h0 v0 ms).
Proof.
  revert h0 v0 k. induction ms as [|m ms IH]; intros h0 v0 k Hk; cbn in Hk; [lia|].
  destruct k as [|k].
  - rewrite !Nat.add_0_r. cbn. split; [eexists|]; auto.
  - destruct (IH (S h0) (S v0) k ltac:(lia)) as [[p H1] H2].
    rewrite <- !Nat.add_succ_comm. cbn. split; [exists p|]; auto.
Qed.

Lemma member_reactions_resolves b h0 v0 ms :
  omap resolves (member_reactions b h0 v0 ms) = OnVvv <$> seq v0 (length ms).
Proof.
  revert h0 v0. induction ms as [|m ms IH]; intros h0 v0; [done|].
  cbn. by rewrite IH.
Qed.

Ltac solve_ext :=
  cbn; first [by eexists | exists []; by rewrite app_nil_r
             | by rewrite <- ?app_assoc].

Lemma next_idle_LInv w :
  LInv w →
  (∀ fx b, fx ∈ queue (mutex (lock w)) → r_handler fx = HBatch b →
           0 < length (default [] (heap w !! b))) →
  LInv (next_idle w).
Proof.
  intros HL Hne. unfold next_idle.
  destruct (queue (mutex (lock w))) as [|fx rest] eqn:Eq; [done|].
  destruct fx as [[h|h|b0] p]; unfold call_runnable, call_work; cbn.
  - eapply (LInv_extend w _ [(OnHandler (length (handlers w)), RunSettled p)]);
      [exact HL|solve_ext..| | | | |].
    + unfold members_in_flight. cbn. rewrite List.filter_app, length_app. lia.
    + intros x [<-|[]]. cbn. rewrite length_app. cbn. lia.
    + apply NoDup_nil_2.
    + intros x [<-|[]]. done.
    + cbn. intros hp Hge Hp. apply lookup_lt_Some in Hp. rewrite length_app in Hp.
      cbn in Hp. assert (hp = length (handlers w)) as -> by lia. eauto.
  - eapply (LInv_extend w _
              [(OnHandler (length (handlers w)), WriteAwait (length (wrappers w)));
               (OnWrapper (length (wrappers w)), RunSettled p)]);
      [exact HL|solve_ext..| | | | |].
    + unfold members_in_flight. cbn. rewrite !List.filter_app, !length_app. lia.
    + intros x [<-|[<-|[]]]; cbn.
      * rewrite length_app. cbn. split; [lia|].
        rewrite lookup_app_r, Nat.sub_diag by done. split; [done|].
        exists p. apply in_or_app. by right; left.
      * right. exists (length (handlers w)).
        apply in_or_app. left. apply in_or_app. by right; left.
    + apply NoDup_singleton.
    + intros x [<-|[<-|[]]]; cbn; done.
    + cbn. intros hp Hge Hp. apply lookup_lt_Some in Hp. rewrite length_app in Hp.
      cbn in Hp. assert (hp = length (handlers w)) as -> by lia. eauto.
  - specialize (Hne _ b0 (list_elem_of_here _ _) eq_refl). cbn in Hne.
    unfold batch_executor. rewrite start_members_eq. cbn.
    set (ms := default [] (heap w !! b0)) in *.
    eapply (LInv_extend w _
              (member_reactions b0 (length (handlers w)) (length (vvvs w)) ms ++
               [(OnBatch (length (batches w)), RunSettled p)]));
      [exact HL|solve_ext..| | | | |].
    + unfold members_in_flight. cbn. rewrite !List.filter_app, !length_app. lia.
    + intros x [Hin|[<-|[]]]%in_app_or.
      * destruct (member_reactions_inv _ _ _ _ _ Hin) as (k & Hk & [[q ->]| ->]);
          cbn.
        -- rewrite length_app, length_replicate. split; [lia|]. split.
           ++ rewrite lookup_app_r by lia.
              apply lookup_replicate. split; [done|lia].
           ++ exists (BatchMemberDone b0). apply in_or_app. left.
              apply in_or_app. right.
              by apply member_reactions_in_k.
        -- right.
           destruct (member_reactions_in_k b0 (length (handlers w))
                       (length (vvvs w)) ms k Hk) as [[q Hq] _].
           exists (length (handlers w) + k), q. apply in_or_app. left.
           apply in_or_app. by right.
      * cbn. right. rewrite lookup_app_r, Nat.sub_diag by done. split; [done|].
        unfold members_in_flight. cbn.
        rewrite !List.filter_app, !length_app, member_reactions_member_done. lia.
    + rewrite omap_app, member_reactions_resolves. cbn. rewrite app_nil_r.
      apply NoDup_fmap_2; [by intros ?? [=]|apply NoDup_seq].
    + intros x [Hin|[<-|[]]]%in_app_or; [|done].
      destruct (member_reactions_inv _ _ _ _ _ Hin) as (k & Hk & [[q ->]| ->]);
        cbn; [lia|done].
    + cbn. intros hp Hge Hp. apply lookup_lt_Some in Hp.
      rewrite length_app, length_replicate in Hp.
      destruct (member_reactions_in_k b0 (length (handlers w))
                  (length (vvvs w)) ms (hp - length (handlers w)) ltac:(lia))
        as [[q Hq] _].
      replace (length (handlers w) + (hp - length (handlers w))) with hp in Hq by lia.
      eexists. apply in_or_app. left. exact Hq.
Qed.

Lemma LInv_frame w w' :
  reactions w' = reactions w → handlers w' = handlers w →
  wrappers w' = wrappers w → vvvs w' = vvvs w → batches w' = batches w →
  LInv w → LInv w'.
Proof.
  intros Hr Hh Hw Hv Hb HL.
  eapply (LInv_extend w w' []); [exact HL|by rewrite app_nil_r| | | | | | | | |].
  - exists []. by rewrite app_nil_r.
  - exists []. by rewrite app_nil_r.
  - exists []. by rewrite app_nil_r.
  - exists []. by rewrite app_nil_r.
  - unfold members_in_flight. by rewrite Hr.
  - by intros x [].
  - apply NoDup_nil_2.
  - by intros x [].
  - intros hp Hge Hp. rewrite Hh in Hp. apply lookup_lt_Some in Hp. lia.
Qed.

Lemma queued_batches_nonempty w fx b :
  MInv w → RInv w → fx ∈ queue (mutex (lock w)) → r_handler fx = HBatch b →
  0 < length (default [] (heap w !! b)).
Proof.
  intros HM HR Hin Hb. apply (batch_members_nonempty w b HR).
  rewrite <- Hb. by apply queue_handlers_enqueued.
Qed.

Lemma run_LInv h w :
  LInv w →
  (∀ fx b, fx ∈ queue (mutex (lock w)) → r_handler fx = HBatch b →
           0 < length (default [] (heap w !! b))) →
  (∀ b, h = HBatch b → 0 < length (default [] (heap w !! b))) →
  LInv (run h w).2.
Proof.
  intros HL Hq Hh. rewrite run_eq. cbn [snd].
  assert (LInv (pushed h w)) as HLp by by eapply LInv_frame; [..|exact HL].
  destruct (running (mutex (lock w))); [done|].
  apply next_idle_LInv; [done|]. cbn.
  intros fx b [Hin|Hin%list_elem_of_singleton]%elem_of_app Hb.
  - by eapply Hq.
  - subst fx. cbn in Hb. by apply Hh.
Qed.

Lemma read_LInv h w : MInv w → GInv w → RInv w → LInv w → LInv (read h w).2.
Proof.
  intros HM HG HR HL. unfold read. cbn.
  destruct (tailFxList (lock w)) as [b|] eqn:Ht; cbn [snd].
  - unfold getQueueLength. cbn.
    destruct (queue (mutex (lock w))) as [|q0 qs] eqn:Eq; cbn.
    + eapply (LInv_extend w _
                [(OnHandler (length (handlers w)),
                  ReadAwait (length (callers w)) (length (vvvs w)));
                 (OnVvv (length (vvvs w)), JoinedMemberDone b)]);
        [exact HL|solve_ext..| | | | |].
      * unfold members_in_flight. cbn. rewrite !List.filter_app, !length_app. lia.
      * intros x [<-|[<-|[]]]; cbn.
        -- rewrite length_app. cbn. split; [lia|].
           rewrite lookup_app_r, Nat.sub_diag by done. split; [done|].
           exists (JoinedMemberDone b). apply in_or_app. by right; left.
        -- right. exists (length (handlers w)), (length (callers w)).
           apply in_or_app. left. apply in_or_app. by right; left.
      * apply NoDup_singleton.
      * intros x [<-|[<-|[]]]; cbn; done.
      * cbn. intros hp Hge Hp. apply lookup_lt_Some in Hp.
        rewrite length_app in Hp. cbn in Hp.
        assert (hp = length (handlers w)) as -> by lia. eauto.
    + by eapply LInv_frame; [..|exact HL].
  - apply run_LInv.
    + by eapply LInv_frame; [..|exact HL].
    + cbn. intros fx b Hin Hb.
      rewrite lookup_app_l by by eapply queue_batches_bounded.
      by eapply queued_batches_nonempty.
    + cbn. intros b [= <-]. rewrite lookup_app_r, Nat.sub_diag by done. cbn. lia.
Qed.

(** Running a reaction whose promise has settled. *)
Lemma LInv_delete w i s cb o w' :
  LInv w → reactions w !! i = Some (s, cb) → source_state s w = Some o →
  reactions w' = delete i (reactions w) →
  handlers w' = handlers w →
  wrappers w' = match cb with
                | WriteAwait wp => <[wp := Some o]> (wrappers w)
                | _ => wrappers w
                end →
  vvvs w' = match cb with
            | ReadAwait _ vp => <[vp := true]> (vvvs w)
            | _ => vvvs w
            end →
  (∀ bp p, In (OnBatch bp, RunSettled p) (delete i (reactions w)) →
           batches w' !! bp = Some true ∨
           (batches w' !! bp = Some false ∧ 0 < members_in_flight w')) →
  LInv w'.
Proof.
  intros HL Hi Hs Hr Hh Hw Hv Hb.
  pose proof (l_resolves w HL) as Hnd.
  assert (In (s, cb) (reactions w)) as Hd.
  { apply list_elem_of_In. by eapply list_elem_of_lookup_2. }
  pose proof (l_reactions w HL _ Hd) as Hwfd.
  split.
  - intros x Hin. rewrite Hr in Hin.
    pose proof (in_delete _ _ _ Hin) as Hin0.
    pose proof (l_reactions w HL x Hin0) as Hwf.
    destruct x as [[hp|wp|bp|vp] [p|wp'|p vp'|b|b]]; cbn in Hwf |- *; try done;
      rewrite ?Hh, ?Hr.
    + done.
    + destruct Hwf as (H1 & H2 & q & H3). split; [done|]. split.
      * rewrite Hw. destruct cb as [?|wp0|? ?|?|?]; try done.
        rewrite list_lookup_insert_ne; [done|]. intros ->.
        by apply (resolves_delete_fresh _ _ _ (OnWrapper wp') _ Hnd Hi eq_refl Hin).
      * exists q. eapply in_delete_ne; [done..|]. intros [= <- <-].
        cbn in Hs. rewrite H2 in Hs. done.
    + destruct Hwf as (H1 & H2 & cb' & H3). split; [done|]. split.
      * rewrite Hv. destruct cb as [?|?|? vp0|?|?]; try done.
        rewrite list_lookup_insert_ne; [done|]. intros ->.
        by apply (resolves_delete_fresh _ _ _ (OnVvv vp') _ Hnd Hi eq_refl Hin).
      * exists cb'. eapply in_delete_ne; [done..|]. intros [= <- <-].
        cbn in Hs. rewrite H2 in Hs. done.
    + rewrite Hw. destruct Hwf as [[o' H]|[hp H]].
      * left. destruct cb as [?|wp0|? ?|?|?]; eauto.
        destruct (decide (wp0 = wp)) as [->|Hne].
        -- exists o. rewrite list_lookup_insert_eq; [done|]. by eapply lookup_lt_Some.
        -- exists o'. by rewrite list_lookup_insert_ne.
      * pose proof (l_reactions w HL _ H) as (_ & Hpend & _).
        destruct cb as [?|wp0|? ?|?|?];
          try (right; exists hp; eapply in_delete_ne; [done..|]; by intros [=]).
        destruct (decide (wp0 = wp)) as [->|Hne].
        -- left. exists o. rewrite list_lookup_insert_eq; [done|].
           by eapply lookup_lt_Some.
        -- right. exists hp. eapply in_delete_ne; [done..|]. by intros [=].
    + by eapply Hb.
    + rewrite Hv. destruct Hwf as [H|(hp & p & H)].
      * left. destruct cb as [?|?|? vp0|?|?]; eauto.
        destruct (decide (vp0 = vp)) as [->|Hne].
        -- rewrite list_lookup_insert_eq; [done|]. by eapply lookup_lt_Some.
        -- by rewrite list_lookup_insert_ne.
      * pose proof (l_reactions w HL _ H) as (_ & Hpend & _).
        destruct cb as [?|?|? vp0|?|?];
          try (right; exists hp, p; eapply in_delete_ne; [done..|]; by intros [=]).
        destruct (decide (vp0 = vp)) as [->|Hne].
        -- left. rewrite list_lookup_insert_eq; [done|]. by eapply lookup_lt_Some.
        -- right. exists hp, p. eapply in_delete_ne; [done..|]. by intros [=].
    + rewrite Hv. destruct Hwf as [H|(hp & p & H)].
      * left. destruct cb as [?|?|? vp0|?|?]; eauto.
        destruct (decide (vp0 = vp)) as [->|Hne].
        -- rewrite list_lookup_insert_eq; [done|]. by eapply lookup_lt_Some.
        -- by rewrite list_lookup_insert_ne.
      * pose proof (l_reactions w HL _ H) as (_ & Hpend & _).
        destruct cb as [?|?|? vp0|?|?];
          try (right; exists hp, p; eapply in_delete_ne; [done..|]; by intros [=]).
        destruct (decide (vp0 = vp)) as [->|Hne].
        -- left. rewrite list_lookup_insert_eq; [done|]. by eapply lookup_lt_Some.
        -- right. exists hp, p. eapply in_delete_ne; [done..|]. by intros [=].
  - rewrite Hr. by eapply resolves_delete_NoDup.
  - intros hp Hp. rewrite Hh in Hp. destruct (l_pending w HL hp Hp) as [cb' Hcb].
    exists cb'. rewrite Hr. eapply in_delete_ne; [done..|]. intros [= <- <-].
    cbn in Hs. rewrite Hp in Hs. done.
Qed.

Lemma member_done_batches b v w bd :
  batchDone (lock w) = Some bd →
  batches (on_fulfilled (batch_member_done b) (Fulfilled v) w)
  = if (remaining (lock w) - 1 =? 0)%Z then <[bd := true]> (batches w)
    else batches w.
Proof.
  intros Hbd. unfold on_fulfilled, batch_member_done, unhandled, release. cbn.
  destruct (remaining (lock w) - 1 =? 0)%Z; cbn; [|done].
  destruct (decide (tailFxList (lock w) = Some b)); cbn; by rewrite Hbd.
Qed.

Lemma members_delete_true w i x :
  reactions w !! i = Some x → is_member_done x = true →
  members_in_flight w
  = S (members_in_flight (set_reactions (delete i (reactions w)) w)).
Proof.
  intros Hi Hx. unfold members_in_flight. cbn.
  destruct (filter_delete_true is_member_done _ _ _ Hi Hx) as (l1 & l2 & -> & ->).
  rewrite !length_app. cbn. lia.
Qed.

Lemma members_delete_false w i x :
  reactions w !! i = Some x → is_member_done x = false →
  members_in_flight (set_reactions (delete i (reactions w)) w)
  = members_in_flight w.
Proof.
  intros Hi Hx. unfold members_in_flight. cbn.
  by rewrite (filter_delete_false is_member_done _ _ _ Hi Hx).
Qed.

Lemma batch_kept w i x w' :
  LInv w → reactions w !! i = Some x → is_member_done x = false →
  batches w' = batches w →
  members_in_flight w' = members_in_flight (set_reactions (delete i (reactions w)) w) →
  ∀ bp p, In (OnBatch bp, RunSettled p) (delete i (reactions w)) →
          batches w' !! bp = Some true ∨
          (batches w' !! bp = Some false ∧ 0 < members_in_flight w').
Proof.
  intros HL Hi Hx Hb Hm bp p Hin.
  rewrite Hb, Hm, (members_delete_false w i x Hi Hx).
  apply (l_reactions w HL (OnBatch bp, RunSettled p)). by eapply in_delete.
Qed.

Lemma fire_member_done_LInv w i s cb b o :
  MInv w → RInv w → LInv w → reactions w !! i = Some (s, cb) →
  captured cb = Some b → source_state s w = Some o →
  LInv (on_fulfilled (batch_member_done b) o
          (set_reactions (delete i (reactions w)) w)).
Proof.
  intros HM HR HL Hi Hc Hs.
  set (w0 := set_reactions (delete i (reactions w)) w).
  destruct (member_done_frame b o w0)
    as (_ & _ & _ & _ & _ & Hr & Hv & Hw & Hh & _).
  assert (is_member_done (s, cb) = true) as Hmd by (apply is_member_done_captured; eauto).
  pose proof (members_delete_true w i _ Hi Hmd) as Hm. fold w0 in Hm.
  assert (∃ vp, s = OnVvv vp) as [vp ->].
  { eapply (r_captured w HR (s, cb)); [|done].
    apply list_elem_of_In. by eapply list_elem_of_lookup_2. }
  pose proof (source_vvv_fulfilled _ _ _ Hs) as ->.
  eapply (LInv_delete w i _ _ _ _ HL Hi Hs); try done.
  - rewrite Hw. by destruct cb.
  - rewrite Hv. by destruct cb.
  - intros bp p Hin.
    assert (members_in_flight
              (on_fulfilled (batch_member_done b) (Fulfilled VUndef) w0)
            = members_in_flight w0) as Hm'.
    { unfold members_in_flight. by rewrite Hr. }
    rewrite Hm'.
    destruct (r_batch w HR ltac:(lia)) as (_ & bp0 & Hbd & Hpend & Hfl).
    assert (bp = bp0) as ->.
    { assert (In (OnBatch bp, RunSettled p) (in_flight w)) as Hin'.
      { unfold in_flight. apply filter_In. split; [by eapply in_delete|done]. }
      specialize (Hfl _ Hin'). cbn in Hfl. congruence. }
    rewrite (member_done_batches b VUndef w0 bp0 Hbd). cbn.
    pose proof (r_count w HR) as Hcount.
    destruct (remaining (lock w) - 1 =? 0)%Z eqn:Ez.
    + left. rewrite list_lookup_insert_eq; [done|]. by eapply lookup_lt_Some.
    + right. split; [done|]. apply Z.eqb_neq in Ez. lia.
Qed.

Lemma fire_LInv w i s cb o :
  MInv w → RInv w → LInv w → reactions w !! i = Some (s, cb) →
  source_state s w = Some o →
  LInv (fire cb o (set_reactions (delete i (reactions w)) w)).
Proof.
  intros HM HR HL Hi Hs. destruct cb as [p|wp|p vp|b|b]; unfold fire.
  - rewrite run_settled_eq. apply next_idle_LInv.
    + eapply (LInv_delete w i _ _ _ _ HL Hi Hs);
        [cbn; by rewrite ?settle_reactions, ?settle_handlers, ?settle_wrappers,
           ?settle_vvvs..|].
      eapply (batch_kept w i _ _ HL Hi); cbn; rewrite ?settle_batches; try done.
      unfold members_in_flight. cbn. by rewrite settle_reactions.
    + cbn. rewrite settle_lock, settle_heap. cbn.
      intros fx b. by apply queued_batches_nonempty.
  - eapply (LInv_delete w i _ _ _ _ HL Hi Hs); [done..|].
    by eapply (batch_kept w i _ _ HL Hi).
  - eapply (LInv_delete w i _ _ _ _ HL Hi Hs);
      [unfold fulfil_vvv; cbn;
       by rewrite ?settle_reactions, ?settle_handlers, ?settle_wrappers,
         ?settle_vvvs..|].
    eapply (batch_kept w i _ _ HL Hi); cbn; rewrite ?settle_batches; try done.
    unfold members_in_flight. cbn. by rewrite settle_reactions.
  - by eapply fire_member_done_LInv.
  - rewrite joined_member_done_eq. by eapply fire_member_done_LInv.
Qed.

Lemma init_LInv : LInv init.
Proof.
  split; cbn; [done|apply NoDup_nil_2|]. intros hp Hp. done.
Qed.

Lemma step_LInv e w w' :
  step e w = Some w' → MInv w → GInv w → RInv w → LInv w → LInv w'.
Proof.
  intros Hstep HM HG HR HL. destruct e as [[h|h|h]|hp o|i].
  - unfold step, do_call in Hstep.
    assert (w' = (run (HUser h) w).2) as -> by congruence.
    apply run_LInv; [done| |done]. intros fx b. by apply queued_batches_nonempty.
  - unfold step, do_call in Hstep.
    assert (w' = (write h w).2) as -> by congruence.
    unfold write. apply run_LInv; [by eapply LInv_frame; [..|exact HL]| |done].
    cbn. intros fx b. by apply queued_batches_nonempty.
  - unfold step, do_call in Hstep.
    assert (w' = (read h w).2) as -> by congruence. by apply read_LInv.
  - unfold step in Hstep. destruct (handlers w !! hp) as [[|]|] eqn:Hhp; try done.
    assert (w' = set_handlers (<[hp:=Some o]> (handlers w)) w) as -> by congruence.
    split; cbn.
    + intros x Hin. pose proof (l_reactions w HL x Hin) as Hwf.
      destruct x as [[hp'|wp|bp|vp] [p|wp'|p vp'|b|b]]; cbn in Hwf |- *;
        rewrite ?length_insert; done.
    + apply HL.
    + intros hp' Hp. apply (l_pending w HL).
      destruct (decide (hp' = hp)) as [->|Hne].
      * rewrite list_lookup_insert_eq in Hp by by eapply lookup_lt_Some. done.
      * by rewrite list_lookup_insert_ne in Hp.
  - unfold step in Hstep. destruct (reactions w !! i) as [[s cb]|] eqn:Hi; [|done].
    destruct (source_state s w) as [o|] eqn:Hs; [|done].
    assert (w' = fire cb o (set_reactions (delete i (reactions w)) w)) as ->
      by congruence.
    by eapply fire_LInv.
Qed.

(** The invariants of a program that uses a lock through its interface. *)
Lemma lock_invariants evs w :
  lock_program evs = true → exec evs init = Some w →
  (LInv w ∧ PInv w) ∧ MInv w ∧ GInv w ∧ RInv w.
Proof.
  apply (lock_program_ind (λ w, LInv w ∧ PInv w)).
  - split; [apply init_LInv|]. intros p Hp. done.
  - intros e w0 w' Hstep _ HM HG HR [HL HP]. split.
    + by eapply step_LInv.
    + by eapply step_PInv.
Qed.

(** * What an idle lock guarantees *)

Lemma run_settled_in_flight w x :
  In x (reactions w) → is_run_settled x = true → In x (in_flight w).
Proof. intros Hin Hx. unfold in_flight. apply filter_In. by split. Qed.

Lemma member_done_counted w x :
  In x (reactions w) → is_member_done x = true → 0 < members_in_flight w.
Proof.
  intros Hin Hx. unfold members_in_flight.
  assert (In x (List.filter is_member_done (reactions w))) as H
    by (apply filter_In; by split).
  destruct (List.filter is_member_done (reactions w)); [done|cbn; lia].
Qed.

Lemma quiet_no_reactions w :
  LInv w → in_flight w = [] → members_in_flight w = 0 → reactions w = [].
Proof.
  intros HL Hfl Hm.
  assert (∀ x, In x (reactions w) → False) as Hno.
  { intros x Hin. pose proof (l_reactions w HL x Hin) as Hwf.
    destruct x as [[hp|wp|bp|vp] [p|wp'|p vp'|b|b]]; cbn in Hwf; try done;
      try (pose proof (run_settled_in_flight w _ Hin eq_refl) as H;
           by rewrite Hfl in H);
      try (pose proof (member_done_counted w _ Hin eq_refl); lia).
    - destruct Hwf as (_ & _ & q & Hq).
      pose proof (run_settled_in_flight w _ Hq eq_refl) as H. by rewrite Hfl in H.
    - destruct Hwf as (_ & _ & cb & Hcb).
      pose proof (l_reactions w HL _ Hcb) as Hwf.
      destruct cb; cbn in Hwf; try done;
        pose proof (member_done_counted w _ Hcb eq_refl); lia. }
  destruct (reactions w) as [|x l]; [done|]. destruct (Hno x). by left.
Qed.

Lemma idle_quiet w :
  MInv w → RInv w → running (mutex (lock w)) = false →
  queue (mutex (lock w)) = [] ∧ in_flight w = [] ∧ members_in_flight w = 0.
Proof.
  intros HM HR Hr. split; [by apply (m_idle w HM)|]. split.
  - pose proof (m_flight w HM) as H. rewrite Hr in H.
    by destruct (in_flight w).
  - by apply idle_no_members.
Qed.

Lemma no_reactions_settled w :
  LInv w → PInv w → reactions w = [] → queue (mutex (lock w)) = [] →
  (∀ hp, hp < length (handlers w) → ∃ o, handlers w !! hp = Some (Some o)) ∧
  (∀ p, p < length (callers w) → ∃ o, callers w !! p = Some (Some o)).
Proof.
  intros HL HP Hr Hq. split.
  - intros hp Hlt. destruct (lookup_lt_is_Some_2 _ _ Hlt) as [[o|] Ho]; [eauto|].
    destruct (l_pending w HL hp Ho) as [cb Hcb]. by rewrite Hr in Hcb.
  - intros p Hlt. destruct (lookup_lt_is_Some_2 _ _ Hlt) as [[o|] Ho]; [eauto|].
    specialize (HP p Ho). unfold refs in HP. rewrite Hr, Hq in HP.
    by apply elem_of_nil in HP.
Qed.

Lemma rw_lock_program evs :
  forallb rw_event evs = true → lock_program evs = true.
Proof. intros H. unfold lock_program. by rewrite H. Qed.

(** X2. In a program that only calls a read-write lock, whenever the mutex
    of the lock is idle nothing is left to do: the queue is empty, no
    reaction is registered, every handler passed so far has been called,
    every handler's promise and every promise handed to a caller has
    settled, and the read-write lock has no batch and counts no member. *)
Theorem idle_lock_has_finished evs w :
  forallb rw_event evs = true →
  exec evs init = Some w →
  isIdle w = true →
  getQueueLength w = 0 ∧ reactions w = [] ∧
  invoked (trace w) ≡ₚ call_handlers evs ∧
  (∀ hp, hp < length (handlers w) → ∃ o, handlers w !! hp = Some (Some o)) ∧
  (∀ p, p < length (callers w) → ∃ o, callers w !! p = Some (Some o)) ∧
  remaining (lock w) = 0%Z ∧ tailFxList (lock w) = None.
Proof.
  intros Hlp%rw_lock_program Hex Hidle.
  destruct (lock_invariants evs w Hlp Hex) as ([HL HP] & HM & HG & HR).
  unfold isIdle in Hidle. apply negb_true_iff in Hidle.
  destruct (idle_quiet w HM HR Hidle) as (Hq & Hfl & Hm).
  pose proof (quiet_no_reactions w HL Hfl Hm) as Hr.
  destruct (no_reactions_settled w HL HP Hr Hq) as [Hh Hc].
  split; [unfold getQueueLength; by rewrite Hq|]. split; [done|]. split.
  { rewrite <- (exec_call_order evs w Hlp Hex).
    by rewrite (waiting_nil w Hq), app_nil_r. }
  split; [done|]. split; [done|]. split.
  - rewrite (r_count w HR), Hm. done.
  - destruct (tailFxList (lock w)) as [b|] eqn:Ht; [|done].
    destruct (r_tail w HR b Ht) as [_ H]. specialize (H Hq). lia.
Qed.

Lemma idle_lock_has_finished_witness :
  ∃ w, exec [ECall (CRead 1); ECall (CRead 2);
             ESettle 1 (Fulfilled (VData 5)); ESettle 0 (Rejected (VData 6));
             EFire 0; EFire 0; EFire 1; EFire 1; EFire 0] init = Some w ∧
       isIdle w = true ∧ reactions w = [] ∧ tailFxList (lock w) = None ∧
       invoked (trace w) ≡ₚ [1; 2].
Proof.
  eexists. split; [vm_compute; reflexivity|]. split; [vm_compute; reflexivity|].
  destruct (idle_lock_has_finished
    [ECall (CRead 1); ECall (CRead 2);
     ESettle 1 (Fulfilled (VData 5)); ESettle 0 (Rejected (VData 6));
     EFire 0; EFire 0; EFire 1; EFire 1; EFire 0] _
    ltac:(vm_compute; reflexivity) ltac:(vm_compute; reflexivity)
    ltac:(vm_compute; reflexivity)) as (_ & H1 & H2 & _ & _ & _ & H3).
  exact (conj H1 (conj H3 H2)).
Defined.

(** * Writers are alone *)

Lemma resolves_inj (l : list (source * callback)) x y t :
  NoDup (omap resolves l) → In x l → In y l →
  resolves x = Some t → resolves y = Some t → x = y.
Proof.
  induction l as [|a l IH]; intros Hnd Hx Hy Hxt Hyt; [done|].
  change (a :: l) with ([a] ++ l) in Hnd. rewrite omap_app in Hnd.
  assert (∀ z, In z l → resolves z = Some t → resolves a = Some t → False) as Hno.
  { intros z Hz Hzt Hat. rewrite (omap_singleton_Some _ _ _ Hat) in Hnd.
    apply NoDup_cons in Hnd as [Hn _]. apply Hn.
    apply list_elem_of_omap. exists z. split; [by apply list_elem_of_In|done]. }
  destruct Hx as [->|Hx], Hy as [->|Hy]; [done|by destruct (Hno y)|by destruct (Hno x)|].
  apply IH; try done. by apply NoDup_app in Hnd as (_ & _ & Hnd).
Qed.

Lemma in_flight_unique w x y :
  MInv w → In x (in_flight w) → In y (in_flight w) → x = y.
Proof.
  intros HM Hx Hy. pose proof (m_flight w HM) as Hlen.
  destruct (in_flight w) as [|a [|b l]]; [done| |by destruct (running _)].
  destruct Hx as [<-|[]], Hy as [<-|[]]. done.
Qed.

Lemma writer_alone w hp wp :
  MInv w → RInv w → LInv w →
  In (OnHandler hp, WriteAwait wp) (reactions w) →
  members_in_flight w = 0 ∧
  ∀ hp' cb, In (OnHandler hp', cb) (reactions w) → hp' = hp ∧ cb = WriteAwait wp.
Proof.
  intros HM HR HL Hin.
  destruct (l_reactions w HL _ Hin) as (_ & Hpend & p & Hp).
  pose proof (run_settled_in_flight w _ Hp eq_refl) as Hfl.
  assert (members_in_flight w = 0) as Hm.
  { destruct (members_in_flight w) as [|n] eqn:En; [done|].
    destruct (r_batch w HR ltac:(lia)) as (_ & bp & _ & _ & Hb).
    by specialize (Hb _ Hfl). }
  split; [done|]. intros hp' cb Hin'.
  pose proof (l_reactions w HL _ Hin') as Hwf.
  destruct cb as [q|wp'|q vp|b|b]; cbn in Hwf; try done.
  - pose proof (run_settled_in_flight w _ Hin' eq_refl) as Hfl'.
    by pose proof (in_flight_unique w _ _ HM Hfl Hfl').
  - destruct Hwf as (_ & _ & q & Hq).
    pose proof (run_settled_in_flight w _ Hq eq_refl) as Hfl'.
    pose proof (in_flight_unique w _ _ HM Hfl Hfl') as [= -> ->].
    by pose proof (resolves_inj _ _ _ (OnWrapper wp') (l_resolves w HL) Hin Hin'
                     eq_refl eq_refl) as [= ->].
  - destruct Hwf as (_ & _ & cb & Hcb).
    pose proof (l_reactions w HL _ Hcb) as Hwf.
    destruct cb; cbn in Hwf; try done;
      pose proof (member_done_counted w _ Hcb eq_refl); lia.
Qed.

(** X3. In a program that uses a read-write lock, from the moment the handler
    of a write is called until the lock has learnt that its promise has
    settled, that handler is the only one running: no other handler's
    promise is pending, no member of a read batch is in flight, and no
    other continuation of the lock waits for a handler. *)
Theorem write_handler_runs_alone evs w hp wp :
  lock_program evs = true →
  exec evs init = Some w →
  In (OnHandler hp, WriteAwait wp) (reactions w) →
  (∀ hp', handlers w !! hp' = Some None → hp' = hp) ∧
  members_in_flight w = 0 ∧ remaining (lock w) = 0%Z ∧
  ∀ hp' cb, In (OnHandler hp', cb) (reactions w) → hp' = hp ∧ cb = WriteAwait wp.
Proof.
  intros Hlp Hex Hin.
  destruct (lock_invariants evs w Hlp Hex) as ([HL HP] & HM & HG & HR).
  destruct (writer_alone w hp wp HM HR HL Hin) as [Hm Hall].
  split; [|split; [done|split; [|done]]].
  - intros hp' Hp. destruct (l_pending w HL hp' Hp) as [cb Hcb].
    by destruct (Hall hp' cb Hcb).
  - by rewrite (r_count w HR), Hm.
Qed.

Lemma write_handler_runs_alone_witness :
  ∃ w, exec [ECall (CRead 1); ECall (CWrite 2); ECall (CRead 3);
             ESettle 0 (Fulfilled (VData 0)); EFire 0; EFire 0; EFire 0] init
       = Some w ∧
       In (OnHandler 1, WriteAwait 0) (reactions w) ∧
       (∀ hp', handlers w !! hp' = Some None → hp' = 1).
Proof.
  eexists. split; [vm_compute; reflexivity|].
  split; [vm_compute; auto|].
  apply (write_handler_runs_alone
    [ECall (CRead 1); ECall (CWrite 2); ECall (CRead 3);
     ESettle 0 (Fulfilled (VData 0)); EFire 0; EFire 0; EFire 0] _ 1 0
    ltac:(vm_compute; reflexivity) ltac:(vm_compute; reflexivity)).
  vm_compute. auto.
Defined.
(** * Failures *)

Lemma member_done_remaining b v w :
  remaining (lock (on_fulfilled (batch_member_done b) (Fulfilled v) w))
  = (remaining (lock w) - 1)%Z.
Proof.
  unfold on_fulfilled, batch_member_done, unhandled, release. cbn.
  destruct (remaining (lock w) - 1 =? 0)%Z; cbn; [|done].
  destruct (decide (tailFxList (lock w) = Some b)); cbn;
    by destruct (batchDone (lock w)).
Qed.

(** The bookkeeping callback of a read whose continuation has run: it is
    registered, it can run, and running it counts the member out; if the
    member was the last one, the batch is released and the completion
    callback of the mutex can run. *)
Lemma read_member_counted_out w w' i hp p vp o :
  LInv w → MInv w → RInv w →
  reactions w !! i = Some (OnHandler hp, ReadAwait p vp) →
  w' = fire (ReadAwait p vp) o (set_reactions (delete i (reactions w)) w) →
  remaining (lock w') = remaining (lock w) ∧
  ∃ j cb b w'',
    reactions w' !! j = Some (OnVvv vp, cb) ∧ captured cb = Some b ∧
    step (EFire j) w' = Some w'' ∧
    remaining (lock w'') = (remaining (lock w) - 1)%Z ∧
    members_in_flight w'' + 1 = members_in_flight w ∧
    (remaining (lock w'') = 0%Z →
       ∃ bp q, batchDone (lock w) = Some bp ∧ batches w !! bp = Some false ∧
               batches w'' !! bp = Some true ∧
               in_flight w'' = [(OnBatch bp, RunSettled q)]).
Proof.
  intros HL HM HR Hi ->.
  assert (In (OnHandler hp, ReadAwait p vp) (reactions w)) as Hin
    by (apply list_elem_of_In; by eapply list_elem_of_lookup_2).
  destruct (l_reactions w HL _ Hin) as (_ & Hvp & cb & Hcb).
  assert (∃ b, captured cb = Some b ∧ is_member_done (OnVvv vp, cb) = true
               ∧ is_run_settled (OnVvv vp, cb) = false
               ∧ fire cb = λ o, on_fulfilled (batch_member_done b) o)
    as (b & Hb & Hmd & Hrs & Hfire).
  { pose proof (l_reactions w HL _ Hcb) as Hwf.
    destruct cb; cbn in Hwf; try done; eexists; done. }
  set (w1 := fire (ReadAwait p vp) o (set_reactions (delete i (reactions w)) w)).
  assert (reactions w1 = delete i (reactions w)) as Hr1.
  { unfold w1, fire, fulfil_vvv. cbn. by rewrite settle_reactions. }
  assert (lock w1 = lock w) as Hl1.
  { unfold w1, fire, fulfil_vvv. cbn. by rewrite settle_lock. }
  assert (batches w1 = batches w) as Hb1.
  { unfold w1, fire, fulfil_vvv. cbn. by rewrite settle_batches. }
  assert (source_state (OnVvv vp) w1 = Some (Fulfilled VUndef)) as Hs1.
  { unfold w1, fire, fulfil_vvv. cbn. rewrite settle_vvvs. cbn.
    rewrite list_lookup_insert_eq; [done|]. by eapply lookup_lt_Some. }
  assert (In (OnVvv vp, cb) (reactions w1)) as Hcb1.
  { rewrite Hr1. by eapply in_delete_ne. }
  apply list_elem_of_In, list_elem_of_lookup_1 in Hcb1 as [j Hj].
  split; [by rewrite Hl1|].
  exists j, cb, b. eexists. split; [done|]. split; [done|].
  split; [exact (step_fire w1 j _ _ _ Hj Hs1)|].
  rewrite Hfire. cbv beta.
  set (w2 := set_reactions (delete j (reactions w1)) w1).
  destruct (member_done_frame b (Fulfilled VUndef) w2)
    as (_ & _ & _ & _ & _ & Hr3 & _).
  assert (List.filter is_member_done (reactions w1)
          = List.filter is_member_done (reactions w)) as Hm1.
  { rewrite Hr1. by apply (filter_delete_false _ _ _ _ Hi). }
  assert (List.filter is_run_settled (reactions w1)
          = List.filter is_run_settled (reactions w)) as Hf1.
  { rewrite Hr1. by apply (filter_delete_false _ _ _ _ Hi). }
  split; [|split].
  - rewrite member_done_remaining. cbn. by rewrite Hl1.
  - unfold members_in_flight. rewrite Hr3. cbn.
    destruct (filter_delete_true is_member_done _ _ _ Hj Hmd)
      as (l1 & l2 & E1 & ->).
    rewrite <- Hm1, E1, !length_app. cbn. lia.
  - rewrite member_done_remaining. cbn. rewrite Hl1. intros Hz.
    assert (0 < members_in_flight w) as Hpos by by eapply member_done_counted.
    destruct (r_batch w HR Hpos) as (Hrun & bp & Hbd & Hbp & Hsrc).
    assert (in_flight (on_fulfilled (batch_member_done b) (Fulfilled VUndef) w2)
            = in_flight w) as Hfl.
    { unfold in_flight. rewrite Hr3. cbn.
      by rewrite (filter_delete_false is_run_settled _ _ _ Hj Hrs), Hf1. }
    pose proof (m_flight w HM) as Hlen. rewrite Hrun in Hlen.
    destruct (in_flight w) as [|[s c] [|y l]] eqn:Ef; try done.
    assert (In (s, c) (in_flight w)) as Hx by (rewrite Ef; by left).
    pose proof (Hsrc (s, c) ltac:(by left)) as Es. cbn in Es. subst s.
    unfold in_flight in Hx. apply filter_In in Hx as [_ Hc].
    destruct c as [q| | | |]; try done.
    exists bp, q. split; [done|]. split; [done|]. split; [|exact Hfl].
    change (batches (on_fulfilled (batch_member_done b) (Fulfilled VUndef) w2)
              !! bp = Some true).
    rewrite (member_done_batches b VUndef w2 bp); [|cbn; by rewrite Hl1].
    cbn. rewrite Hl1, Hz. cbn. rewrite Hb1.
    apply list_lookup_insert_eq. by eapply lookup_lt_Some.
Qed.



(** * Idle and busy *)

Lemma in_flight_busy w x : MInv w → In x (in_flight w) → isIdle w = false.
Proof.
  intros HM Hx. pose proof (m_flight w HM) as Hlen. unfold isIdle.
  destruct (running (mutex (lock w))); [done|]. by destruct (in_flight w).
Qed.

Lemma executing_busy w :
  MInv w → RInv w → LInv w → executing w → isIdle w = false.
Proof.
  intros HM HR HL [hp Hp].
  destruct (l_pending w HL hp Hp) as [cb Hcb].
  pose proof (l_reactions w HL _ Hcb) as Hwf.
  destruct cb as [p|wp|p vp|b|b]; cbn in Hwf; try done.
  - eapply (in_flight_busy w); [done|]. by eapply run_settled_in_flight.
  - destruct Hwf as (_ & _ & p & Hr).
    eapply (in_flight_busy w); [done|]. by eapply run_settled_in_flight.
  - destruct Hwf as (_ & _ & cb & Hr).
    assert (is_member_done (OnVvv vp, cb) = true) as Hmd.
    { pose proof (l_reactions w HL _ Hr) as Hwf. by destruct cb. }
    pose proof (member_done_counted w _ Hr Hmd) as Hpos.
    destruct (r_batch w HR Hpos) as [Hrun _]. unfold isIdle. by rewrite Hrun.
Qed.




(** * The lock always finishes its work *)

Lemma unsettled_app {A} (l1 l2 : list (option A)) :
  unsettled (l1 ++ l2) = unsettled l1 + unsettled l2.
Proof. unfold unsettled. by rewrite List.filter_app, length_app. Qed.

Lemma unsettled_replicate {A} n : unsettled (replicate n (@None A)) = n.
Proof.
  induction n as [|n IH]; [done|]. unfold unsettled in *. cbn. by rewrite IH.
Qed.

Lemma unsettled_insert {A} (l : list (option A)) i (o : A) :
  l !! i = Some None → S (unsettled (<[i := Some o]> l)) = unsettled l.
Proof.
  revert i. induction l as [|a l IH]; intros i Hi; [done|].
  destruct i as [|i]; cbn in Hi.
  - simplify_eq. done.
  - cbn. unfold unsettled in *. cbn. destruct a; cbn; rewrite <- (IH i Hi); done.
Qed.

Lemma member_reactions_length b h0 v0 ms :
  length (member_reactions b h0 v0 ms) = 2 * length ms.
Proof.
  revert h0 v0. induction ms as [|m ms IH]; intros h0 v0; [done|].
  cbn. rewrite IH. lia.
Qed.

Lemma next_idle_jobs_left w : jobs_left (next_idle w) = jobs_left w.
Proof.
  unfold next_idle, jobs_left.
  destruct (queue (mutex (lock w))) as [|fx rest] eqn:Eq; [by rewrite Eq|].
  destruct fx as [[h|h|b0] p]; unfold call_runnable, call_work; cbn;
    unfold batch_executor; rewrite ?start_members_eq; cbn;
    rewrite ?length_app, ?unsettled_app, ?member_reactions_length,
      ?unsettled_replicate; cbn;
    set (rest_jobs := sum_list (weight (heap w) <$> rest));
    unfold weight, unsettled; cbn; lia.
Qed.

Lemma member_done_jobs_left b o w :
  jobs_left (on_fulfilled (batch_member_done b) o w) = jobs_left w.
Proof.
  destruct (member_done_frame b o w)
    as (Hq & _ & _ & _ & Hh & Hr & _ & _ & Hhs & _).
  unfold jobs_left. by rewrite Hq, Hh, Hr, Hhs.
Qed.

Lemma fire_jobs_left cb o w : jobs_left (fire cb o w) = jobs_left w.
Proof.
  destruct cb as [p|wp|p vp|b|b]; unfold fire.
  - rewrite run_settled_eq, next_idle_jobs_left. unfold jobs_left. cbn.
    by rewrite settle_reactions, settle_handlers, settle_heap, settle_lock.
  - done.
  - unfold fulfil_vvv, jobs_left. cbn.
    by rewrite settle_reactions, settle_handlers, settle_heap, settle_lock.
  - apply member_done_jobs_left.
  - rewrite joined_member_done_eq. apply member_done_jobs_left.
Qed.

Lemma step_jobs_left e w w' :
  step e w = Some w' → call_free e = true → S (jobs_left w') = jobs_left w.
Proof.
  intros Hstep Hcf. destruct e as [c|hp o|i]; [done|..].
  - unfold step in Hstep. destruct (handlers w !! hp) as [[|]|] eqn:Hhp; try done.
    assert (w' = set_handlers (<[hp:=Some o]> (handlers w)) w) as -> by congruence.
    unfold jobs_left. cbn. rewrite <- (unsettled_insert (handlers w) hp o Hhp). lia.
  - unfold step in Hstep. destruct (reactions w !! i) as [[s cb]|] eqn:Hi; [|done].
    destruct (source_state s w) as [o|] eqn:Hs; [|done].
    assert (w' = fire cb o (set_reactions (delete i (reactions w)) w)) as ->
      by congruence.
    rewrite fire_jobs_left. unfold jobs_left. cbn.
    rewrite length_delete by by eexists.
    apply lookup_lt_Some in Hi. lia.
Qed.

(** X4. Without further calls the lock has a fixed amount of work left: from
    any state, every job that runs (a handler's promise settling, or a
    reaction of the lock) takes one off the count of jobs left, whatever
    the order, so no schedule runs more than [jobs_left] jobs and the
    lock never starts the same work again. *)
Theorem work_left_decreases evs w w' :
  forallb call_free evs = true →
  exec evs w = Some w' →
  jobs_left w' + length evs = jobs_left w.
Proof.
  revert w. induction evs as [|e evs IH]; intros w Hcf Hex; cbn in Hex.
  - simplify_eq. cbn. lia.
  - destruct (step e w) as [w1|] eqn:Hs; [|done].
    cbn in Hcf. apply andb_true_iff in Hcf as [He Hcf].
    specialize (IH w1 Hcf Hex). pose proof (step_jobs_left e w w1 Hs He). cbn. lia.
Qed.

Lemma work_left_decreases_witness :
  ∃ w, exec [ECall (CRead 1); ECall (CWrite 2); ECall (CRead 3)] init = Some w ∧
  ∃ w', exec [ESettle 0 (Rejected (VData 5)); EFire 0; EFire 0] w = Some w' ∧
        jobs_left w' + 3 = jobs_left w.
Proof.
  eexists. split; [vm_compute; reflexivity|].
  eexists. split; [vm_compute; reflexivity|].
  apply (work_left_decreases [ESettle 0 (Rejected (VData 5)); EFire 0; EFire 0]);
    vm_compute; reflexivity.
Defined.

Lemma fire_enabled w x o :
  In x (reactions w) → source_state x.1 w = Some o →
  ∃ i w', step (EFire i) w = Some w'.
Proof.
  intros Hin Hs. apply list_elem_of_In, list_elem_of_lookup_1 in Hin as [i Hi].
  exists i. destruct x as [s cb]. eexists. by apply (step_fire w i s cb o).
Qed.

Lemma handler_reaction_progress w hp cb :
  LInv w → In (OnHandler hp, cb) (reactions w) →
  handlers w !! hp = Some None ∨ ∃ i w', step (EFire i) w = Some w'.
Proof.
  intros HL Hin. pose proof (l_reactions w HL _ Hin) as Hwf.
  assert (hp < length (handlers w)) as Hlt.
  { destruct cb; cbn in Hwf; try done; by destruct Hwf. }
  destruct (lookup_lt_is_Some_2 _ _ Hlt) as [[o|] Ho]; [right|by left].
  apply (fire_enabled w _ o Hin). cbn. by rewrite Ho.
Qed.

Lemma reaction_progress w x :
  LInv w → In x (reactions w) →
  (∃ hp, handlers w !! hp = Some None) ∨ ∃ i w', step (EFire i) w = Some w'.
Proof.
  intros HL Hin.
  assert (∀ hp cb, In (OnHandler hp, cb) (reactions w) →
            (∃ hp, handlers w !! hp = Some None) ∨
            ∃ i w', step (EFire i) w = Some w') as Hh.
  { intros hp cb H. destruct (handler_reaction_progress w hp cb HL H); eauto. }
  assert (∀ vp cb, In (OnVvv vp, cb) (reactions w) →
            (∃ hp, handlers w !! hp = Some None) ∨
            ∃ i w', step (EFire i) w = Some w') as Hv.
  { intros vp cb H. pose proof (l_reactions w HL _ H) as Hwf.
    destruct cb; cbn in Hwf; try done;
      (destruct Hwf as [Ht|(hp & p & Hr)]; [right|by eapply Hh]);
      apply (fire_enabled w _ (Fulfilled VUndef) H); cbn; by rewrite Ht. }
  pose proof (l_reactions w HL x Hin) as Hwf.
  destruct x as [[hp|wp|bp|vp] cb]; [by eapply Hh| | |by eapply Hv].
  - destruct cb; cbn in Hwf; try done.
    destruct Hwf as [[o Ho]|[hp Hr]]; [right|by eapply Hh].
    apply (fire_enabled w _ o Hin). cbn. by rewrite Ho.
  - destruct cb; cbn in Hwf; try done.
    destruct Hwf as [Ht|[_ Hm]].
    + right. apply (fire_enabled w _ (Fulfilled VUndef) Hin). cbn. by rewrite Ht.
    + unfold members_in_flight in Hm.
      destruct (List.filter is_member_done (reactions w)) as [|y l] eqn:Ef;
        [cbn in Hm; lia|].
      assert (In y (List.filter is_member_done (reactions w))) as Hy
        by (rewrite Ef; by left).
      apply filter_In in Hy as [Hy Hmd].
      pose proof (l_reactions w HL y Hy) as Hwfy.
      destruct y as [[hp|wp|bp'|vp] cb]; destruct cb; cbn in Hwfy, Hmd; try done;
        by eapply Hv.
Qed.

(** X5. A busy read-write lock is never stuck.  In a program that only
    calls a read-write lock, whenever the mutex of the lock is not idle,
    either a handler the lock has called is still running, or one of the
    lock's own reactions is ready to run: the lock never waits for
    something that cannot happen. *)
Theorem busy_lock_is_never_stuck evs w :
  forallb rw_event evs = true →
  exec evs init = Some w →
  isIdle w = false →
  (∃ hp, handlers w !! hp = Some None) ∨ ∃ i w', step (EFire i) w = Some w'.
Proof.
  intros Hlp%rw_lock_program Hex Hbusy.
  destruct (lock_invariants evs w Hlp Hex) as ([HL HP] & HM & HG & HR).
  unfold isIdle in Hbusy. apply negb_false_iff in Hbusy.
  pose proof (m_flight w HM) as Hfl. rewrite Hbusy in Hfl.
  destruct (in_flight w) as [|x l] eqn:Ef; [done|].
  assert (In x (in_flight w)) as Hx by (rewrite Ef; by left).
  unfold in_flight in Hx. apply filter_In in Hx as [Hx _].
  by apply (reaction_progress w x).
Qed.

Lemma busy_lock_is_never_stuck_witness :
  ∃ w, exec [ECall (CRead 1); ECall (CWrite 2); ESettle 0 (Rejected (VData 5));
             EFire 0] init = Some w ∧
       isIdle w = false ∧
       ((∃ hp, handlers w !! hp = Some None) ∨ ∃ i w', step (EFire i) w = Some w').
Proof.
  eexists. split; [vm_compute; reflexivity|]. split; [vm_compute; reflexivity|].
  apply (busy_lock_is_never_stuck
    [ECall (CRead 1); ECall (CWrite 2); ESettle 0 (Rejected (VData 5)); EFire 0]);
    vm_compute; reflexivity.
Defined.

Lemma unsettled_pos {A} (l : list (option A)) :
  unsettled l ≠ 0 → ∃ i, l !! i = Some None.
Proof.
  induction l as [|a l IH]; intros Hn; [done|].
  destruct a as [a|]; [|by exists 0].
  destruct IH as [i Hi]; [done|]. by exists (S i).
Qed.

Lemma unsettled_zero {A} (l : list (option A)) :
  (∀ i, i < length l → ∃ o, l !! i = Some (Some o)) → unsettled l = 0.
Proof.
  intros H. destruct (unsettled l) eqn:E; [done|].
  destruct (unsettled_pos l ltac:(lia)) as [i Hi].
  destruct (H i (lookup_lt_Some _ _ _ Hi)) as [o Ho]. congruence.
Qed.

Lemma next_job w :
  MInv w → LInv w → jobs_left w ≠ 0 →
  ∃ e w', call_free e = true ∧ step e w = Some w'.
Proof.
  intros HM HL Hn.
  assert ((∃ hp, handlers w !! hp = Some None) ∨
          ∃ i w', step (EFire i) w = Some w') as [[hp Hp]|(i & w' & Hs)].
  { destruct (decide (unsettled (handlers w) = 0)) as [Hu|Hu];
      [|left; by apply unsettled_pos].
    assert (reactions w ≠ []) as Hr.
    { intros Hr. unfold jobs_left in Hn. rewrite Hr, Hu in Hn. cbn in Hn.
      assert (in_flight w = []) as Hfl by (unfold in_flight; by rewrite Hr).
      pose proof (m_flight w HM) as Hlen. rewrite Hfl in Hlen. cbn in Hlen.
      destruct (running (mutex (lock w))) eqn:Er; [done|].
      rewrite (m_idle w HM Er) in Hn. done. }
    destruct (reactions w) as [|x l] eqn:Er; [done|].
    apply (reaction_progress w x HL). rewrite Er. by left. }
  - exists (ESettle hp (Fulfilled VUndef)). eexists. split; [done|].
    cbn. by rewrite Hp.
  - by exists (EFire i), w'.
Qed.

Lemma lock_program_call_free evs e :
  lock_program evs = true → call_free e = true →
  lock_program (evs ++ [e]) = true.
Proof.
  unfold lock_program. rewrite !forallb_app, !orb_true_iff, !andb_true_iff.
  intros [H|H] He; [left|right]; (split; [done|]); by destruct e.
Qed.

Lemma jobs_left_idle w :
  MInv w → RInv w → LInv w → PInv w →
  (jobs_left w = 0 ↔ isIdle w = true).
Proof.
  intros HM HR HL HP. unfold isIdle. rewrite negb_true_iff. split.
  - intros Hz. unfold jobs_left in Hz.
    assert (in_flight w = []) as Hfl.
    { unfold in_flight. destruct (reactions w); [done|cbn in Hz; lia]. }
    pose proof (m_flight w HM) as Hlen. rewrite Hfl in Hlen.
    by destruct (running (mutex (lock w))).
  - intros Hidle. destruct (idle_quiet w HM HR Hidle) as (Hq & Hfl & Hm).
    pose proof (quiet_no_reactions w HL Hfl Hm) as Hr.
    destruct (no_reactions_settled w HL HP Hr Hq) as [Hh _].
    unfold jobs_left. by rewrite Hr, Hq, (unsettled_zero _ Hh).
Qed.

Lemma drain n : ∀ evs w,
  lock_program evs = true → exec evs init = Some w → jobs_left w = n →
  ∃ evs' w', forallb call_free evs' = true ∧ exec evs' w = Some w' ∧
             length evs' = n ∧ isIdle w' = true ∧
             ∀ p, p < length (callers w') → ∃ o, callers w' !! p = Some (Some o).
Proof.
  induction n as [|n IH]; intros evs w Hlp Hex Hn;
    destruct (lock_invariants evs w Hlp Hex) as ([HL HP] & HM & HG & HR).
  - exists [], w. split; [done|]. split; [done|]. split; [done|].
    pose proof (proj1 (jobs_left_idle w HM HR HL HP) Hn) as Hidle.
    split; [done|]. unfold isIdle in Hidle. apply negb_true_iff in Hidle.
    destruct (idle_quiet w HM HR Hidle) as (Hq & Hfl & Hm).
    pose proof (quiet_no_reactions w HL Hfl Hm) as Hr.
    by destruct (no_reactions_settled w HL HP Hr Hq).
  - destruct (next_job w HM HL ltac:(lia)) as (e & w1 & He & Hs).
    pose proof (step_jobs_left e w w1 Hs He) as Hj.
    destruct (IH (evs ++ [e]) w1) as (evs' & w' & Hcf & Hex' & Hlen & Hrest).
    + by apply lock_program_call_free.
    + by rewrite exec_snoc, Hex.
    + lia.
    + exists (e :: evs'), w'. cbn. rewrite He, Hs, Hlen. done.
Qed.

(** X6. A read-write lock finishes its work.  In a program that only
    calls a read-write lock, from every state it reaches, if the handlers
    that are running settle, the jobs that are left can all be run without
    any further call, there are at most [jobs_left] of them, and they take
    the mutex of the lock to the idle state, in which every promise handed
    to a caller has settled.  Before that, the mutex is busy: it is idle
    exactly when no job is left. *)
Theorem lock_finishes evs w :
  forallb rw_event evs = true →
  exec evs init = Some w →
  (jobs_left w = 0 ↔ isIdle w = true) ∧
  ∃ evs' w', forallb call_free evs' = true ∧ exec evs' w = Some w' ∧
             length evs' ≤ jobs_left w ∧ isIdle w' = true ∧
             ∀ p, p < length (callers w') → ∃ o, callers w' !! p = Some (Some o).
Proof.
  intros Hlp%rw_lock_program Hex.
  destruct (lock_invariants evs w Hlp Hex) as ([HL HP] & HM & HG & HR).
  split; [by apply jobs_left_idle|].
  destruct (drain (jobs_left w) evs w Hlp Hex eq_refl)
    as (evs' & w' & H1 & H2 & H3 & H4).
  exists evs', w'. rewrite H3. done.
Qed.

Lemma lock_finishes_witness :
  ∃ w, exec [ECall (CRead 1); ECall (CWrite 2); ECall (CRead 3)] init = Some w ∧
       ∃ evs' w', forallb call_free evs' = true ∧ exec evs' w = Some w' ∧
                  length evs' ≤ jobs_left w ∧ isIdle w' = true.
Proof.
  eexists. split; [vm_compute; reflexivity|].
  destruct (lock_finishes [ECall (CRead 1); ECall (CWrite 2); ECall (CRead 3)] _
              ltac:(vm_compute; reflexivity) ltac:(vm_compute; reflexivity))
    as (_ & evs' & w' & H1 & H2 & H3 & H4 & _).
  exists evs', w'. exact (conj H1 (conj H2 (conj H3 H4))).
Defined.

(** * Each promise is settled once *)

Lemma member_invokes_settles h0 ms : settles (member_invokes h0 ms) = [].
Proof. revert h0. induction ms as [|m ms IH]; intros h0; [done|]. cbn. apply IH. Qed.

Lemma next_idle_settles w : settles (trace (next_idle w)) = settles (trace w).
Proof.
  unfold next_idle. destruct (queue (mutex (lock w))) as [|[[h|h|b] p] rest]; [done|..];
    unfold call_runnable, call_work, batch_executor; cbn;
    rewrite ?start_members_eq; cbn; simpl_trace;
    rewrite ?member_invokes_settles, ?app_nil_r; done.
Qed.

Lemma run_settles h w : settles (trace (run h w).2) = settles (trace w).
Proof.
  rewrite run_eq. cbn [snd]. destruct (running (mutex (lock w)));
    rewrite ?next_idle_settles; unfold pushed; cbn; by simpl_trace.
Qed.

Lemma read_settles h w : settles (trace (read h w).2) = settles (trace w).
Proof.
  unfold read. cbn. destruct (tailFxList (lock w)); cbn [snd].
  - unfold getQueueLength. cbn.
    destruct (length (queue (mutex (lock w)))); cbn; by simpl_trace.
  - by rewrite run_settles.
Qed.

Lemma member_done_settles b o w :
  settles (trace (on_fulfilled (batch_member_done b) o w)) = settles (trace w).
Proof.
  unfold on_fulfilled, batch_member_done, unhandled, release.
  destruct o; cbn; [|by simpl_trace].
  destruct (remaining (lock w) - 1 =? 0)%Z; cbn; [|done].
  destruct (decide (tailFxList (lock w) = Some b)); cbn;
    destruct (batchDone (lock w)) eqn:Ebd; cbn; by simpl_trace.
Qed.

Lemma SInv_callers_app w w' k :
  settles (trace w') = settles (trace w) → callers w' = callers w ++ k →
  Forall (λ o, o = None) k →
  SInv w → SInv w'.
Proof.
  intros Ht Hc Hk [Hnd Hiff]. unfold SInv. rewrite Ht, Hc. split; [done|].
  intros p. rewrite Hiff. split; intros [o Ho]; exists o.
  - by apply lookup_app_l_Some.
  - apply lookup_app_Some in Ho as [Ho|[_ Ho]]; [done|].
    apply list_elem_of_lookup_2 in Ho. rewrite Forall_forall in Hk.
    by specialize (Hk _ Ho).
Qed.

Lemma SInv_settle p o w w' :
  callers w !! p = Some None →
  settles (trace w') = settles (trace w) ++ [p] →
  callers w' = <[p := Some o]> (callers w) →
  SInv w → SInv w'.
Proof.
  intros Hp Ht Hc [Hnd Hiff]. unfold SInv. rewrite Ht, Hc.
  assert (p ∉ settles (trace w)) as Hnot.
  { intros [o' Ho']%Hiff. congruence. }
  split.
  - apply NoDup_app. split; [done|]. split; [|apply NoDup_singleton].
    by intros q Hq ->%list_elem_of_singleton.
  - intros q. rewrite elem_of_app, list_elem_of_singleton, Hiff.
    destruct (decide (q = p)) as [->|Hne].
    + rewrite list_lookup_insert_eq by by eapply lookup_lt_Some. split; eauto.
    + rewrite list_lookup_insert_ne by done. split; [|by left].
      by intros [?|?].
Qed.

Lemma fire_SInv w i s cb o :
  GInv w → SInv w → reactions w !! i = Some (s, cb) →
  SInv (fire cb o (set_reactions (delete i (reactions w)) w)).
Proof.
  intros HG HS Hi. destruct cb as [p|wp|p vp|b|b]; unfold fire.
  - pose proof (ref_pending w i _ _ p HG Hi eq_refl) as Hpend.
    eapply (SInv_settle p o w); [done| | |done].
    + rewrite run_settled_eq, next_idle_settles. cbn. rewrite settle_trace.
      by simpl_trace.
    + rewrite run_settled_eq, next_idle_callers. cbn.
      by rewrite settle_callers_pending.
  - eapply (SInv_callers_app w _ []); [done|cbn; by rewrite app_nil_r|done|done].
  - pose proof (ref_pending w i _ _ p HG Hi eq_refl) as Hpend.
    eapply (SInv_settle p o w); [done| | |done]; unfold fulfil_vvv; cbn.
    + rewrite settle_trace. by simpl_trace.
    + by rewrite settle_callers_pending.
  - eapply (SInv_callers_app w _ []); [by rewrite member_done_settles| |done|done].
    destruct (member_done_frame b o (set_reactions (delete i (reactions w)) w))
      as (_ & _ & _ & _ & _ & _ & _ & _ & _ & _ & _ & _ & ->).
    cbn. by rewrite app_nil_r.
  - rewrite joined_member_done_eq.
    eapply (SInv_callers_app w _ []); [by rewrite member_done_settles| |done|done].
    destruct (member_done_frame b o (set_reactions (delete i (reactions w)) w))
      as (_ & _ & _ & _ & _ & _ & _ & _ & _ & _ & _ & _ & ->).
    cbn. by rewrite app_nil_r.
Qed.

Lemma do_call_callers_pending c w :
  ∃ k, callers (do_call c w).2 = callers w ++ k ∧ Forall (λ o, o = None) k.
Proof.
  destruct c as [h|h|h]; unfold do_call, write, read.
  - rewrite run_callers. exists [None]. split; [done|]. by apply Forall_singleton.
  - rewrite run_callers. exists [None]. split; [done|]. by apply Forall_singleton.
  - cbn. destruct (tailFxList (lock w)); cbn [snd].
    + exists [None]. split; [by case_match|]. by apply Forall_singleton.
    + rewrite run_callers. cbn. exists [None; None].
      split; [by rewrite <- app_assoc|]. by repeat constructor.
Qed.

Lemma step_SInv e w w' : step e w = Some w' → GInv w → SInv w → SInv w'.
Proof.
  intros Hstep HG HS. destruct e as [c|hp o|i].
  - unfold step in Hstep. assert (w' = (do_call c w).2) as -> by congruence.
    destruct (do_call_callers_pending c w) as (k & Hk & Hnone).
    eapply (SInv_callers_app w _ k); [|done|done|done].
    destruct c; unfold do_call, write; by rewrite ?run_settles, ?read_settles.
  - unfold step in Hstep. destruct (handlers w !! hp) as [[|]|]; try done.
    by assert (w' = set_handlers (<[hp:=Some o]> (handlers w)) w) as -> by congruence.
  - unfold step in Hstep. destruct (reactions w !! i) as [[s cb]|] eqn:Hi; [|done].
    destruct (source_state s w) as [o|]; [|done].
    assert (w' = fire cb o (set_reactions (delete i (reactions w)) w)) as ->
      by congruence.
    by eapply fire_SInv.
Qed.

(** X7. In a program that only calls a read-write lock, the lock calls
    [resolve] or [reject] exactly once for each caller promise that has
    settled, and never for a promise that is still pending: no promise is
    resolved and then rejected, and none is settled behind the lock's
    back. *)
Theorem each_promise_settled_once evs w :
  forallb rw_event evs = true →
  exec evs init = Some w →
  NoDup (settles (trace w)) ∧
  ∀ p, p ∈ settles (trace w) ↔ ∃ o, callers w !! p = Some (Some o).
Proof.
  intros _.
  assert (∀ w0, MInv w0 → GInv w0 → SInv w0 → exec evs w0 = Some w → SInv w)
    as Hgen.
  { induction evs as [|e evs IH]; intros w0 HM HG HS Hex; cbn in Hex.
    - by simplify_eq.
    - destruct (step e w0) as [w1|] eqn:Hs; [|done].
      apply (IH w1); try done.
      + by eapply step_MInv.
      + by eapply step_GInv.
      + by eapply step_SInv. }
  intros Hex. apply (Hgen init); [apply init_MInv|apply init_GInv| |done].
  split; [apply NoDup_nil_2|]. intros p. cbn. split.
  - by intros []%elem_of_nil.
  - by intros [o Ho].
Qed.

Lemma each_promise_settled_once_witness :
  ∃ w, exec [ECall (CWrite 1); ECall (CRead 2); ESettle 0 (Rejected (VData 7));
             EFire 0; EFire 0; ESettle 1 (Fulfilled (VData 8)); EFire 0;
             EFire 0; EFire 0] init = Some w ∧
       settles (trace w) = [0; 1; 2] ∧ NoDup (settles (trace w)).
Proof.
  eexists. split; [vm_compute; reflexivity|]. split; [vm_compute; reflexivity|].
  apply (each_promise_settled_once
    [ECall (CWrite 1); ECall (CRead 2); ESettle 0 (Rejected (VData 7));
     EFire 0; EFire 0; ESettle 1 (Fulfilled (VData 8)); EFire 0;
     EFire 0; EFire 0]);
    vm_compute; reflexivity.
Defined.

(** * Handlers and their promises *)

Lemma invocations_app t1 t2 :
  invocations (t1 ++ t2) = invocations t1 ++ invocations t2.
Proof. unfold invocations. by rewrite omap_app. Qed.

Lemma invocations_invoked t : (invocations t).*1 = invoked t.
Proof.
  unfold invocations, invoked. induction t as [|o t IH]; [done|].
  cbn. destruct o; cbn; by rewrite ?IH.
Qed.

Lemma member_invokes_invocations h0 ms :
  (invocations (member_invokes h0 ms)).*2 = seq h0 (length ms).
Proof.
  revert h0. induction ms as [|m ms IH]; intros h0; [done|].
  cbn. change (ObsInvoke (v_handler m) h0 :: member_invokes (S h0) ms)
    with ([ObsInvoke (v_handler m) h0] ++ member_invokes (S h0) ms).
  rewrite invocations_app, fmap_app, IH. done.
Qed.

Lemma seq_snoc n : seq 0 (n + 1) = seq 0 n ++ [n].
Proof. by rewrite seq_app. Qed.

Lemma next_idle_invocations w :
  (invocations (trace w)).*2 = seq 0 (length (handlers w)) →
  (invocations (trace (next_idle w))).*2 = seq 0 (length (handlers (next_idle w))).
Proof.
  intros H. unfold next_idle.
  destruct (queue (mutex (lock w))) as [|[[h|h|b] p] rest]; [done|..];
    unfold call_runnable, call_work, batch_executor; cbn;
    rewrite ?start_members_eq; cbn;
    rewrite ?invocations_app, ?fmap_app, ?member_invokes_invocations, ?length_app,
      ?length_replicate, ?seq_app, H; cbn; by rewrite ?app_nil_r.
Qed.

Lemma run_invocations h w :
  (invocations (trace w)).*2 = seq 0 (length (handlers w)) →
  (invocations (trace (run h w).2)).*2 = seq 0 (length (handlers (run h w).2)).
Proof.
  intros H. rewrite run_eq. cbn [snd].
  assert ((invocations (trace (pushed h w))).*2
          = seq 0 (length (handlers (pushed h w)))) as Hp.
  { unfold pushed. cbn. rewrite invocations_app. cbn. by rewrite app_nil_r. }
  destruct (running (mutex (lock w))); [done|]. by apply next_idle_invocations.
Qed.

Lemma read_invocations h w :
  (invocations (trace w)).*2 = seq 0 (length (handlers w)) →
  (invocations (trace (read h w).2)).*2 = seq 0 (length (handlers (read h w).2)).
Proof.
  intros H. unfold read. cbn. destruct (tailFxList (lock w)); cbn [snd].
  - unfold getQueueLength. cbn.
    destruct (length (queue (mutex (lock w)))); cbn; [|done].
    rewrite invocations_app, fmap_app, length_app, seq_app, H. done.
  - by apply run_invocations.
Qed.

Lemma member_done_invocations b o w :
  invocations (trace (on_fulfilled (batch_member_done b) o w))
  = invocations (trace w).
Proof.
  unfold on_fulfilled, batch_member_done, unhandled, release.
  destruct o; cbn; [|by rewrite invocations_app, app_nil_r].
  destruct (remaining (lock w) - 1 =? 0)%Z; cbn; [|done].
  destruct (decide (tailFxList (lock w) = Some b)); cbn;
    destruct (batchDone (lock w)) eqn:Ebd; cbn;
    by rewrite ?invocations_app, ?app_nil_r.
Qed.

Lemma fire_invocations cb o w :
  (invocations (trace w)).*2 = seq 0 (length (handlers w)) →
  (invocations (trace (fire cb o w))).*2 = seq 0 (length (handlers (fire cb o w))).
Proof.
  intros H. destruct cb as [p|wp|p vp|b|b]; unfold fire.
  - rewrite run_settled_eq. apply next_idle_invocations. cbn.
    rewrite settle_trace, settle_handlers, invocations_app. cbn.
    by rewrite app_nil_r.
  - done.
  - unfold fulfil_vvv. cbn.
    rewrite settle_trace, settle_handlers, invocations_app. cbn.
    by rewrite app_nil_r.
  - rewrite member_done_invocations.
    by destruct (member_done_frame b o w) as (_&_&_&_&_&_&_&_& -> &_).
  - rewrite joined_member_done_eq, member_done_invocations.
    by destruct (member_done_frame b o w) as (_&_&_&_&_&_&_&_& -> &_).
Qed.

Lemma step_invocations e w w' :
  step e w = Some w' →
  (invocations (trace w)).*2 = seq 0 (length (handlers w)) →
  (invocations (trace w')).*2 = seq 0 (length (handlers w')).
Proof.
  intros Hstep H. destruct e as [[h|h|h]|hp o|i].
  - unfold step, do_call in Hstep.
    assert (w' = (run (HUser h) w).2) as -> by congruence. by apply run_invocations.
  - unfold step, do_call in Hstep.
    assert (w' = (write h w).2) as -> by congruence.
    unfold write. by apply run_invocations.
  - unfold step, do_call in Hstep.
    assert (w' = (read h w).2) as -> by congruence. by apply read_invocations.
  - unfold step in Hstep. destruct (handlers w !! hp) as [[|]|]; try done.
    assert (w' = set_handlers (<[hp:=Some o]> (handlers w)) w) as -> by congruence.
    cbn. by rewrite length_insert.
  - unfold step in Hstep. destruct (reactions w !! i) as [[s cb]|]; [|done].
    destruct (source_state s w) as [o|]; [|done].
    assert (w' = fire cb o (set_reactions (delete i (reactions w)) w)) as ->
      by congruence.
    by apply fire_invocations.
Qed.

Lemma exec_invocations evs w :
  exec evs init = Some w →
  (invocations (trace w)).*2 = seq 0 (length (handlers w)).
Proof.
  assert (∀ w0, (invocations (trace w0)).*2 = seq 0 (length (handlers w0)) →
                exec evs w0 = Some w →
                (invocations (trace w)).*2 = seq 0 (length (handlers w))) as Hgen.
  { induction evs as [|e evs IH]; intros w0 H0 Hex; cbn in Hex.
    - by simplify_eq.
    - destruct (step e w0) as [w1|] eqn:Hs; [|done].
      apply (IH w1); [|done]. by eapply step_invocations. }
  by apply Hgen.
Qed.

(** The [k]-th handler called is the one whose promise is the [k]-th of
    the store. *)
Lemma invoked_nth evs w k h :
  exec evs init = Some w → invoked (trace w) !! k = Some h →
  In (ObsInvoke h k) (trace w).
Proof.
  intros Hex Hk. pose proof (exec_invocations evs w Hex) as Hi.
  rewrite <- invocations_invoked in Hk.
  apply list_lookup_fmap_Some in Hk as ([h' hp] & Heq & Hx). cbn in Heq. subst h'.
  assert ((invocations (trace w)).*2 !! k = Some hp) as Hp
    by by rewrite list_lookup_fmap, Hx.
  rewrite Hi in Hp. apply lookup_seq in Hp as [-> _]. cbn in Hx.
  apply list_elem_of_lookup_2 in Hx. unfold invocations in Hx.
  apply list_elem_of_omap in Hx as (o & Ho & Heq).
  destruct o; try done. simplify_eq. by apply list_elem_of_In.
Qed.

(** * Each caller gets the result of its own handler *)

Lemma in_app_or_iff' {A} (l l1 l2 : list A) (x : A) :
  l = l1 ++ l2 → In x l → In x l1 ∨ In x l2.
Proof. intros ->. apply in_app_or. Qed.

Lemma Res_extend P P' w w' n :
  Res P w →
  reactions w' = reactions w ++ n →
  (∃ hs, handlers w' = handlers w ++ hs) →
  (∃ ws, wrappers w' = wrappers w ++ ws) →
  (∃ cs, callers w' = callers w ++ cs ∧ Forall (λ o, o = None) cs) →
  (∃ ext, P' = P ++ ext ∧ NoDup ext ∧
          ∀ p, p ∈ ext → length (callers w) ≤ p < length (callers w')) →
  (∃ st, P' = st ++ waiting_promises w' ∧ length st = length (handlers w')) →
  (∀ hp cb p, In (OnHandler hp, cb) n → settled_by cb = Some p →
              P' !! hp = Some p) →
  (∀ wp p, In (OnWrapper wp, RunSettled p) n →
           ∃ hp, P' !! hp = Some p ∧
                 In (OnHandler hp, WriteAwait wp) (reactions w')) →
  (∀ bp p, In (OnBatch bp, RunSettled p) n → p ∉ P') →
  (∀ bp p, In (OnBatch bp, RunSettled p) (reactions w) →
           p < length (callers w)) →
  (∀ fx b, fx ∈ queue (mutex (lock w')) → r_handler fx = HBatch b →
           r_promise fx ∉ P') →
  Res P' w'.
Proof.
  intros [R1 R2 R3 [R4 _] [R5 R6] R7] Hr [hs Hh] [ws Hw] (cs & Hc & Hcs)
    (ext & -> & Hnd & Hext) Hst Hd Hwr Hb Hbb Hq.
  split.
  - done.
  - intros hp cb p [Hin|Hin]%(in_app_or_iff' _ _ _ _ Hr) Hs; [|by eapply Hd].
    apply lookup_app_l_Some. by eapply R2.
  - intros wp p [Hin|Hin]%(in_app_or_iff' _ _ _ _ Hr).
    + destruct (R3 wp p Hin) as (hp & Hp & [H|(o & H1 & H2)]); exists hp;
        (split; [by apply lookup_app_l_Some|]).
      * left. rewrite Hr. apply in_or_app. by left.
      * right. exists o. rewrite Hw, Hh. split; by apply lookup_app_l_Some.
    + destruct (Hwr wp p Hin) as (hp & Hp & H). exists hp. split; [done|by left].
  - split; [|done]. intros bp p [Hin|Hin]%(in_app_or_iff' _ _ _ _ Hr); [|by eapply Hb].
    intros [H|H]%elem_of_app; [by eapply R4|].
    specialize (Hbb bp p Hin). specialize (Hext p H). lia.
  - split.
    + apply NoDup_app. split; [done|]. split; [|done].
      intros p Hp Hp'. specialize (R6 p Hp). specialize (Hext p Hp'). lia.
    + intros p [Hp|Hp]%elem_of_app.
      * specialize (R6 p Hp). rewrite Hc, length_app. lia.
      * by apply Hext.
  - intros k p o Hk Hp. apply lookup_app_Some in Hk as [Hk|[Hge Hk]].
    + rewrite Hh. apply lookup_app_l_Some. apply (R7 k p o Hk).
      rewrite Hc in Hp. rewrite lookup_app_l in Hp; [done|].
      apply R6. by eapply list_elem_of_lookup_2.
    + apply list_elem_of_lookup_2 in Hk. destruct (Hext p Hk) as [Hlo _].
      rewrite Hc, lookup_app_r in Hp by done.
      apply list_elem_of_lookup_2 in Hp. rewrite Forall_forall in Hcs.
      by specialize (Hcs _ Hp).
Qed.

Lemma source_handler_settled w hp o :
  source_state (OnHandler hp) w = Some o → handlers w !! hp = Some (Some o).
Proof. cbn. destruct (handlers w !! hp) as [[|]|]; cbn; congruence. Qed.

Lemma source_of_settling w s cb p :
  LInv w → In (s, cb) (reactions w) → settled_by cb = Some p →
  (∃ hp, s = OnHandler hp) ∨
  (∃ wp, s = OnWrapper wp ∧ cb = RunSettled p) ∨
  (∃ bp, s = OnBatch bp ∧ cb = RunSettled p).
Proof.
  intros HL Hin Hs. pose proof (l_reactions w HL _ Hin) as Hwf.
  destruct s as [hp|wp|bp|vp], cb as [q|wp'|q vp'|b|b]; cbn in *;
    try done; simplify_eq; eauto.
Qed.

Lemma Res_delete P w i s cb o w' :
  Res P w → LInv w →
  reactions w !! i = Some (s, cb) → source_state s w = Some o →
  reactions w' = delete i (reactions w) →
  handlers w' = handlers w →
  wrappers w' = match cb with
                | WriteAwait wp => <[wp := Some o]> (wrappers w)
                | _ => wrappers w
                end →
  callers w' = match settled_by cb with
               | Some p => <[p := Some o]> (callers w)
               | None => callers w
               end →
  queue (mutex (lock w')) = queue (mutex (lock w)) → heap w' = heap w →
  Res P w'.
Proof.
  intros [R1 R2 R3 [R4 R4'] [R5 R6] R7] HL Hi Hs Hr Hh Hw Hc Hq Hhp.
  assert (In (s, cb) (reactions w)) as Hd.
  { apply list_elem_of_In. by eapply list_elem_of_lookup_2. }
  assert (waiting_promises w' = waiting_promises w) as Hwp.
  { unfold waiting_promises. by rewrite Hq, Hhp. }
  split.
  - by rewrite Hwp, Hh.
  - intros hp cb' p Hin. rewrite Hr in Hin. apply in_delete in Hin. by eapply R2.
  - intros wp p Hin. rewrite Hr in Hin.
    destruct (R3 wp p (in_delete _ _ _ Hin)) as (hp & Hp & [Hl|(o1 & H1 & H2)]);
      exists hp; (split; [done|]).
    + destruct (l_reactions w HL _ Hl) as (_ & Hpend & _).
      assert (cb = WriteAwait wp ∨ cb ≠ WriteAwait wp) as [->|Hne].
      { destruct cb as [?|wp0|? ?|?|?]; try (by right).
        destruct (decide (wp0 = wp)) as [->|?]; [by left|right; congruence]. }
      * pose proof (resolves_inj _ _ _ (OnWrapper wp) (l_resolves w HL) Hd Hl
                      eq_refl eq_refl) as Heq.
        injection Heq as ->.
        right. exists o. rewrite Hw, Hh. cbn.
        rewrite list_lookup_insert_eq by by eapply lookup_lt_Some.
        split; [done|]. by apply source_handler_settled.
      * left. rewrite Hr. eapply in_delete_ne; [done..|]. by intros [= <- <-].
    + right. exists o1. rewrite Hh. split; [|done]. rewrite Hw.
      destruct cb as [?|wp0|? ?|?|?]; try done.
      rewrite list_lookup_insert_ne; [done|]. intros ->.
      pose proof (l_reactions w HL _ Hd) as Hwf.
      destruct s; cbn in Hwf; try done. destruct Hwf as (_ & Hpend & _). congruence.
  - split.
    + intros bp p Hin. rewrite Hr in Hin. apply in_delete in Hin. by eapply R4.
    + intros fx b. rewrite Hq. apply R4'.
  - split; [done|]. intros p Hp. specialize (R6 p Hp). rewrite Hc.
    destruct (settled_by cb); by rewrite ?length_insert.
  - intros k p o' Hk Hp. rewrite Hh. rewrite Hc in Hp.
    destruct (settled_by cb) as [q|] eqn:Hsb; [|by eapply R7].
    destruct (decide (p = q)) as [->|Hne];
      [|rewrite list_lookup_insert_ne in Hp by done; by eapply R7].
    rewrite list_lookup_insert_eq in Hp by (apply R6; by eapply list_elem_of_lookup_2).
    assert (o' = o) as -> by congruence.
    destruct (source_of_settling w s cb q HL Hd Hsb)
      as [[hp ->]|[(wp & -> & ->)|(bp & -> & ->)]].
    + pose proof (R2 hp cb q Hd Hsb) as Hhp'.
      assert (k = hp) as -> by by eapply NoDup_lookup.
      by apply source_handler_settled.
    + destruct (R3 wp q Hd) as (hp & Hp' & [Hl|(o1 & H1 & H2)]).
      * destruct (l_reactions w HL _ Hl) as (_ & Hpend & _).
        cbn in Hs. rewrite Hpend in Hs. done.
      * assert (k = hp) as -> by by eapply NoDup_lookup.
        cbn in Hs. rewrite H1 in Hs. cbn in Hs. congruence.
    + destruct (R4 bp q Hd). by eapply list_elem_of_lookup_2.
Qed.

Lemma member_reactions_direct b h0 v0 ms hp cb p :
  In (OnHandler hp, cb) (member_reactions b h0 v0 ms) → settled_by cb = Some p →
  ∃ k, hp = h0 + k ∧ (v_promise <$> ms) !! k = Some p.
Proof.
  revert h0 v0. induction ms as [|m ms IH]; intros h0 v0 Hin Hs; [done|].
  cbn in Hin. destruct Hin as [[= <- <-]|[[=]|Hin]].
  - exists 0. cbn in Hs. simplify_eq. split; [lia|done].
  - destruct (IH _ _ Hin Hs) as (k & -> & Hk). exists (S k). split; [lia|done].
Qed.

Lemma member_reactions_no_run b h0 v0 ms s p :
  ¬ In (s, RunSettled p) (member_reactions b h0 v0 ms).
Proof.
  revert h0 v0. induction ms as [|m ms IH]; intros h0 v0 Hin; [done|].
  cbn in Hin. destruct Hin as [[=]|[[=]|Hin]]. by eapply IH.
Qed.

Lemma batch_promise_bound w bp p :
  GInv w → In (OnBatch bp, RunSettled p) (reactions w) → p < length (callers w).
Proof.
  intros HG Hin. apply (refs_fresh w p HG). unfold refs.
  apply elem_of_app. right. apply list_elem_of_bind.
  exists (OnBatch bp, RunSettled p). split; [|by apply list_elem_of_In].
  apply list_elem_of_here.
Qed.

Lemma queue_promise_bound w fx :
  GInv w → fx ∈ queue (mutex (lock w)) → r_promise fx < length (callers w).
Proof.
  intros HG Hin. apply (refs_fresh w _ HG). unfold refs.
  apply elem_of_app. left. apply list_elem_of_bind.
  exists fx. split; [|done]. apply list_elem_of_here.
Qed.

Lemma next_idle_Res P w :
  Res P w →
  (∀ bp p, In (OnBatch bp, RunSettled p) (reactions w) → p < length (callers w)) →
  Res P (next_idle w).
Proof.
  intros HR Hbb. pose proof HR as [(st & HP & Hst) _ _ [_ R4'] _ _].
  unfold next_idle. destruct (queue (mutex (lock w))) as [|fx rest] eqn:Eq; [done|].
  assert (∀ fx' b, fx' ∈ rest → r_handler fx' = HBatch b → r_promise fx' ∉ P) as Hq.
  { intros fx' b Hin. apply R4'. by apply list_elem_of_further. }
  unfold waiting_promises in HP. rewrite Eq, bind_cons in HP.
  destruct fx as [[h|h|b0] p]; unfold call_runnable, call_work; cbn in HP |- *.
  - eapply (Res_extend P P w _ [(OnHandler (length (handlers w)), RunSettled p)] HR);
      [solve_ext..| | | | | | | |].
    + exists []. split; [by rewrite app_nil_r|done].
    + exists []. split; [by rewrite app_nil_r|]. split; [apply NoDup_nil_2|].
      by intros q []%elem_of_nil.
    + exists (st ++ [p]). unfold waiting_promises. cbn.
      rewrite <- app_assoc, !length_app. cbn. split; [done|lia].
    + intros hp cb q [[= <- <-]|[]] [= <-].
      rewrite HP, lookup_app_r, Hst, Nat.sub_diag by lia. done.
    + by intros wp q [[=]|[]].
    + by intros bp q [[=]|[]].
    + done.
    + done.
  - eapply (Res_extend P P w _
              [(OnHandler (length (handlers w)), WriteAwait (length (wrappers w)));
               (OnWrapper (length (wrappers w)), RunSettled p)] HR);
      [solve_ext..| | | | | | | |].
    + exists []. split; [by rewrite app_nil_r|done].
    + exists []. split; [by rewrite app_nil_r|]. split; [apply NoDup_nil_2|].
      by intros q []%elem_of_nil.
    + exists (st ++ [p]). unfold waiting_promises. cbn.
      rewrite <- app_assoc, !length_app. cbn. split; [done|lia].
    + intros hp cb q [[= <- <-]|[[=]|[]]] [=].
    + intros wp q [[=]|[[= <- <-]|[]]]. exists (length (handlers w)). split.
      * rewrite HP, lookup_app_r, Hst, Nat.sub_diag by lia. done.
      * cbn. apply in_or_app. left. apply in_or_app. by right; left.
    + by intros bp q [[=]|[[=]|[]]].
    + done.
    + done.
  - unfold batch_executor. rewrite start_members_eq. cbn.
    set (ms := default [] (heap w !! b0)) in *.
    eapply (Res_extend P P w _
              (member_reactions b0 (length (handlers w)) (length (vvvs w)) ms ++
               [(OnBatch (length (batches w)), RunSettled p)]) HR);
      [solve_ext..| | | | | | | |].
    + exists []. split; [by rewrite app_nil_r|done].
    + exists []. split; [by rewrite app_nil_r|]. split; [apply NoDup_nil_2|].
      by intros q []%elem_of_nil.
    + exists (st ++ (v_promise <$> ms)). unfold waiting_promises. cbn.
      rewrite <- app_assoc, !length_app, length_replicate, length_fmap.
      split; [done|lia].
    + intros hp cb q [Hin|[[=]|[]]]%in_app_or Hs.
      destruct (member_reactions_direct _ _ _ _ _ _ _ Hin Hs) as (k & -> & Hk).
      rewrite HP, lookup_app_r, Hst by lia.
      replace (length (handlers w) + k - length (handlers w)) with k by lia.
      by apply lookup_app_l_Some.
    + intros wp q [Hin|[[=]|[]]]%in_app_or.
      by destruct (member_reactions_no_run _ _ _ _ _ _ Hin).
    + intros bp q [Hin|[[= <- <-]|[]]]%in_app_or.
      * by destruct (member_reactions_no_run _ _ _ _ _ _ Hin).
      * apply (R4' {| r_handler := HBatch b0; r_promise := p |} b0);
          [apply list_elem_of_here|done].
    + done.
    + done.
Qed.

Lemma Res_push P w w' :
  Res P w → GInv w →
  reactions w' = reactions w → handlers w' = handlers w →
  wrappers w' = wrappers w →
  (∃ cs, callers w' = callers w ++ None :: cs ∧ Forall (λ o, o = None) cs) →
  waiting_promises w' = waiting_promises w ++ [length (callers w)] →
  (∀ fx b, fx ∈ queue (mutex (lock w')) → r_handler fx = HBatch b →
           (r_promise fx ∉ P) ∧ (r_promise fx ≠ length (callers w))) →
  Res (P ++ [length (callers w)]) w'.
Proof.
  intros HR HG Hr Hh Hw (cs & Hc & Hcs) Hwp Hq.
  pose proof HR as [(st & HP & Hst) _ _ _ _ _].
  eapply (Res_extend P _ w w' [] HR).
  - by rewrite app_nil_r.
  - exists []. by rewrite app_nil_r.
  - exists []. by rewrite app_nil_r.
  - exists (None :: cs). split; [done|]. by apply Forall_cons.
  - exists [length (callers w)]. split; [done|]. split; [apply NoDup_singleton|].
    intros p Hp. apply list_elem_of_singleton in Hp as ->.
    rewrite Hc, length_app. cbn. lia.
  - exists st. rewrite Hwp, Hh, app_assoc, <- HP. done.
  - by intros hp cb p [].
  - by intros wp p [].
  - by intros bp p [].
  - intros bp p. by apply batch_promise_bound.
  - intros fx b Hin Hb [H|H%list_elem_of_singleton]%elem_of_app;
      by destruct (Hq fx b Hin Hb).
Qed.

Lemma pushed_Res P h t w :
  (∀ b, h ≠ HBatch b) → Res P w → GInv w →
  Res (P ++ [length (callers w)]) (pushed h (set_tailFxList t w)).
Proof.
  intros Hh HR HG. eapply (Res_push P w); try done.
  - by exists [].
  - unfold waiting_promises, pushed. cbn. rewrite bind_app, bind_singleton. cbn.
    destruct h as [?|?|b]; [done|done|by destruct (Hh b)].
  - cbn. intros fx b [Hin| ->%list_elem_of_singleton]%elem_of_app Hb.
    + split; [by eapply (proj2 (res_internal P w HR))|].
      pose proof (queue_promise_bound w fx HG Hin). lia.
    + cbn in Hb. by destruct (Hh b).
Qed.

Lemma run_Res P h t w :
  (∀ b, h ≠ HBatch b) → Res P w → GInv w →
  Res (P ++ [length (callers w)]) (run h (set_tailFxList t w)).2.
Proof.
  intros Hh HR HG. rewrite run_eq. cbn [snd].
  pose proof (pushed_Res P h t w Hh HR HG) as Hp. cbn.
  destruct (running (mutex (lock w))); [done|].
  apply next_idle_Res; [done|]. cbn. intros bp p Hin.
  pose proof (batch_promise_bound w bp p HG Hin). rewrite length_app. lia.
Qed.

Lemma waiting_promises_heap_app w ext :
  MInv w → GInv w →
  queue (mutex (lock w)) ≫= (λ fx,
    match r_handler fx with
    | HBatch b => v_promise <$> default [] ((heap w ++ ext) !! b)
    | _ => [r_promise fx]
    end) = waiting_promises w.
Proof.
  intros HM HG. unfold waiting_promises.
  pose proof (λ fx b, queue_batches_bounded w fx b HM HG) as Hb.
  induction (queue (mutex (lock w))) as [|fx q IH]; [done|].
  rewrite !bind_cons. rewrite IH.
  - f_equal. destruct (r_handler fx) as [h|h|b] eqn:Eh; try done.
    rewrite lookup_app_l; [done|]. eapply Hb; [|done]. apply list_elem_of_here.
  - intros fx' b' Hin. apply Hb. by apply list_elem_of_further.
Qed.

Lemma waiting_promises_alter_notin q (hp : list (list AsyncRunnable)) b
    (f : list AsyncRunnable → list AsyncRunnable) :
  b ∉ batch_ids (r_handler <$> q) →
  q ≫= (λ fx, match r_handler fx with
              | HBatch b' => v_promise <$> default [] (alter f b hp !! b')
              | _ => [r_promise fx]
              end)
  = q ≫= (λ fx, match r_handler fx with
                | HBatch b' => v_promise <$> default [] (hp !! b')
                | _ => [r_promise fx]
                end).
Proof.
  induction q as [|fx q IH]; [done|]. intros Hn.
  rewrite !bind_cons. rewrite IH.
  - f_equal. destruct (r_handler fx) as [h|h|b'] eqn:Eh; try done.
    rewrite list_lookup_alter_ne; [done|]. intros ->. apply Hn.
    cbn. unfold batch_ids. cbn. rewrite Eh. apply list_elem_of_here.
  - intros Hin. apply Hn. cbn. unfold batch_ids in *. cbn.
    destruct (r_handler fx); try done. by apply list_elem_of_further.
Qed.

Lemma read_Res P h w :
  MInv w → GInv w → RInv w → Res P w →
  Res (P ++ [length (callers w)]) (read h w).2.
Proof.
  intros HM HG HR HRes. pose proof HRes as [(st & HP & Hst) _ _ [_ R4'] [_ R6] _].
  unfold read. cbn.
  destruct (tailFxList (lock w)) as [b|] eqn:Ht; cbn [snd].
  - unfold getQueueLength. cbn.
    destruct (queue (mutex (lock w))) as [|q0 qs] eqn:Eq; cbn.
    + unfold waiting_promises in HP. rewrite Eq in HP. cbn in HP.
      rewrite app_nil_r in HP. subst st.
      eapply (Res_extend P _ w _
                [(OnHandler (length (handlers w)),
                  ReadAwait (length (callers w)) (length (vvvs w)));
                 (OnVvv (length (vvvs w)), JoinedMemberDone b)] HRes);
        [solve_ext..| | | | | | | |].
      * exists [None]. split; [done|]. by apply Forall_singleton.
      * exists [length (callers w)]. split; [done|].
        split; [apply NoDup_singleton|].
        intros p Hp. apply list_elem_of_singleton in Hp as ->.
        cbn. rewrite length_app. cbn. lia.
      * exists (P ++ [length (callers w)]). unfold waiting_promises. cbn.
        rewrite Eq. cbn. rewrite app_nil_r, !length_app. cbn. split; [done|lia].
      * intros hp cb p [[= <- <-]|[[=]|[]]] [= <-].
        by rewrite lookup_app_r, Hst, Nat.sub_diag by lia.
      * by intros wp p [[=]|[[=]|[]]].
      * by intros bp p [[=]|[[=]|[]]].
      * intros bp p. by apply batch_promise_bound.
      * cbn. rewrite Eq. by intros fx b' []%elem_of_nil.
    + assert (queue (mutex (lock w)) ≠ []) as Hne by by rewrite Eq.
      destruct (tail_batch_queued w b HM HR Ht Hne) as [(pre & fx & Hq & Hfx) _].
      destruct (tail_batch_allocated w b HR Ht) as [ms Hms].
      pose proof (queue_batches_NoDup w HM HG) as Hnd.
      rewrite <- Eq in *. clear Eq.
      eapply (Res_push P w); try done.
      * by exists [].
      * unfold waiting_promises. cbn. rewrite Hq in Hnd |- *.
        rewrite fmap_app, batch_ids_app in Hnd. cbn in Hnd.
        rewrite Hfx in Hnd. apply NoDup_app in Hnd as (_ & Hdis & _).
        rewrite !bind_app, !bind_singleton. rewrite waiting_promises_alter_notin.
        -- rewrite Hfx. rewrite list_lookup_alter_eq, Hms. cbn.
           by rewrite fmap_app, <- !app_assoc.
        -- intros Hin. apply (Hdis b Hin). apply list_elem_of_here.
      * cbn. intros fx' b' Hin Hb. split; [by eapply R4'|].
        pose proof (queue_promise_bound w fx' HG Hin). lia.
  - rewrite run_eq. cbn [snd].
    set (w1 := set_tailFxList _ _).
    assert (Res (P ++ [length (callers w)]) (pushed (HBatch (length (heap w))) w1))
      as Hp.
    { eapply (Res_push P w); try done.
      - exists [None]. split; [|by apply Forall_singleton].
        unfold pushed, w1. cbn. by rewrite <- app_assoc.
      - unfold waiting_promises at 1, pushed, w1. cbn.
        rewrite bind_app, bind_singleton. cbn.
        rewrite lookup_app_r, Nat.sub_diag by done. cbn.
        pose proof (waiting_promises_heap_app w
          [[{| v_handler := h; v_promise := length (callers w) |}]] HM HG) as Hw.
        cbn in Hw. by rewrite Hw.
      - unfold pushed, w1. cbn.
        intros fx b [Hin|Hin%list_elem_of_singleton]%elem_of_app Hb.
        + split; [by eapply R4'|].
          pose proof (queue_promise_bound w fx HG Hin). lia.
        + subst fx. cbn. rewrite length_app. cbn. split; [|lia].
          intros Hin%R6. lia. }
    cbn. destruct (running (mutex (lock w))); [done|].
    apply next_idle_Res; [done|]. unfold pushed, w1. cbn. intros bp p Hin.
    pose proof (batch_promise_bound w bp p HG Hin). rewrite !length_app. lia.
Qed.

Lemma fire_Res P w i s cb o :
  GInv w → LInv w → Res P w → reactions w !! i = Some (s, cb) →
  source_state s w = Some o →
  Res P (fire cb o (set_reactions (delete i (reactions w)) w)).
Proof.
  intros HG HL HR Hi Hs. destruct cb as [p|wp|p vp|b|b]; unfold fire.
  - pose proof (ref_pending w i _ _ p HG Hi eq_refl) as Hpend.
    rewrite run_settled_eq. apply next_idle_Res.
    + eapply (Res_delete P w i _ _ _ _ HR HL Hi Hs); cbn;
        rewrite ?settle_reactions, ?settle_handlers, ?settle_wrappers,
          ?settle_lock, ?settle_heap; try done.
      by rewrite settle_callers_pending.
    + cbn. rewrite settle_reactions, settle_callers_length. cbn.
      intros bp q Hin%in_delete. by eapply batch_promise_bound.
  - by eapply (Res_delete P w i _ _ _ _ HR HL Hi Hs).
  - pose proof (ref_pending w i _ _ p HG Hi eq_refl) as Hpend.
    eapply (Res_delete P w i _ _ _ _ HR HL Hi Hs); unfold fulfil_vvv; cbn;
      rewrite ?settle_reactions, ?settle_handlers, ?settle_wrappers,
        ?settle_lock, ?settle_heap; try done.
    by rewrite settle_callers_pending.
  - destruct (member_done_frame b o (set_reactions (delete i (reactions w)) w))
      as (Hq & _ & _ & _ & Hh & Hr & _ & Hw & Hhs & _ & _ & _ & Hc).
    by eapply (Res_delete P w i _ _ _ _ HR HL Hi Hs).
  - rewrite joined_member_done_eq.
    destruct (member_done_frame b o (set_reactions (delete i (reactions w)) w))
      as (Hq & _ & _ & _ & Hh & Hr & _ & Hw & Hhs & _ & _ & _ & Hc).
    by eapply (Res_delete P w i _ _ _ _ HR HL Hi Hs).
Qed.

Lemma settle_handler_Res P w hp o :
  handlers w !! hp = Some None → Res P w →
  Res P (set_handlers (<[hp := Some o]> (handlers w)) w).
Proof.
  intros Hhp [R1 R2 R3 R4 R5 R7]. split; cbn; try done.
  - by rewrite length_insert.
  - intros wp p Hin. destruct (R3 wp p Hin) as (k & Hk & [H|(o1 & H1 & H2)]);
      exists k; (split; [done|]); [by left|right].
    exists o1. split; [done|]. rewrite list_lookup_insert_ne; [done|].
    intros ->. congruence.
  - intros k p o1 Hk Hp. specialize (R7 k p o1 Hk Hp).
    rewrite list_lookup_insert_ne; [done|]. intros ->. congruence.
Qed.

Lemma returned_snoc evs e w0 :
  returned (evs ++ [e]) w0 =
  returned evs w0 ++
  match exec evs w0 with
  | Some w => match e with ECall c => [(do_call c w).1] | _ => [] end
  | None => []
  end.
Proof.
  revert w0. induction evs as [|e0 evs IH]; intros w0; cbn.
  - destruct (step e w0); by rewrite !app_nil_r.
  - destruct (step e0 w0) as [w1|]; [by rewrite IH, app_assoc|].
    by rewrite !app_nil_r.
Qed.

Lemma step_Res P e w w' :
  step e w = Some w' → MInv w → GInv w → RInv w → LInv w → Res P w →
  Res (P ++ match e with ECall c => [(do_call c w).1] | _ => [] end) w'.
Proof.
  intros Hstep HM HG HR HL HRes. destruct e as [[h|h|h]|hp o|i];
    rewrite ?do_call_fst, ?app_nil_r.
  - unfold step, do_call in Hstep.
    assert (w' = (run (HUser h) w).2) as -> by congruence.
    rewrite <- (set_tail_same w) at 2. by apply run_Res.
  - unfold step, do_call in Hstep.
    assert (w' = (write h w).2) as -> by congruence.
    unfold write. by apply run_Res.
  - unfold step, do_call in Hstep.
    assert (w' = (read h w).2) as -> by congruence. by apply read_Res.
  - unfold step in Hstep. destruct (handlers w !! hp) as [[|]|] eqn:Hhp; try done.
    assert (w' = set_handlers (<[hp:=Some o]> (handlers w)) w) as -> by congruence.
    by apply settle_handler_Res.
  - unfold step in Hstep. destruct (reactions w !! i) as [[s cb]|] eqn:Hi; [|done].
    destruct (source_state s w) as [o|] eqn:Hs; [|done].
    assert (w' = fire cb o (set_reactions (delete i (reactions w)) w)) as ->
      by congruence.
    by eapply fire_Res.
Qed.

Lemma exec_Res evs w :
  lock_program evs = true → exec evs init = Some w → Res (returned evs init) w.
Proof.
  revert evs w. apply (lock_program_hist_ind (λ evs w, Res (returned evs init) w)).
  - split; cbn; try done.
    + by exists [].
    + split; [by intros ?? []|]. by intros fx b []%elem_of_nil.
    + split; [apply NoDup_nil_2|]. by intros p []%elem_of_nil.
  - intros evs e w w' Hlp Hex Hstep _ HM HG HR IH.
    destruct (lock_invariants evs w Hlp Hex) as ([HL _] & _).
    rewrite returned_snoc, Hex. by apply step_Res.
Qed.

Lemma returned_app evs1 evs2 w0 w1 :
  exec evs1 w0 = Some w1 →
  returned (evs1 ++ evs2) w0 = returned evs1 w0 ++ returned evs2 w1.
Proof.
  revert w0. induction evs1 as [|e evs1 IH]; intros w0 Hex; cbn in Hex |- *.
  - by simplify_eq.
  - destruct (step e w0) as [w'|]; [|done]. by rewrite (IH w' Hex), app_assoc.
Qed.

Lemma returned_length evs w0 w :
  exec evs w0 = Some w → length (returned evs w0) = length (call_handlers evs).
Proof.
  revert w0. induction evs as [|e evs IH]; intros w0 Hex; cbn in Hex |- *; [done|].
  destruct (step e w0) as [w'|]; [|done].
  rewrite length_app, (IH w' Hex). unfold call_handlers. by destruct e.
Qed.

Lemma invoked_length evs w :
  exec evs init = Some w → length (invoked (trace w)) = length (handlers w).
Proof.
  intros Hex.
  assert (length (invocations (trace w)).*2 = length (seq 0 (length (handlers w))))
    as H by by rewrite (exec_invocations evs w Hex).
  rewrite length_fmap, length_seq in H.
  by rewrite <- invocations_invoked, length_fmap.
Qed.

Lemma invoked_In t h hp : In (ObsInvoke h hp) t → h ∈ invoked t.
Proof.
  intros Hin. unfold invoked. apply list_elem_of_omap.
  exists (ObsInvoke h hp). split; [by apply list_elem_of_In|done].
Qed.

(** A handler that is called once returns one promise. *)
Lemma invocation_unique t h a b :
  NoDup (invoked t) → In (ObsInvoke h a) t → In (ObsInvoke h b) t → a = b.
Proof.
  induction t as [|o t IH]; intros Hnd Ha Hb; [done|].
  change (o :: t) with ([o] ++ t) in Hnd. rewrite invoked_app in Hnd.
  destruct Ha as [->|Ha], Hb as [Hb|Hb].
  - congruence.
  - apply NoDup_app in Hnd as (_ & Hno & _). destruct (Hno h).
    + unfold invoked. cbn. by left.
    + by eapply invoked_In.
  - subst o. apply NoDup_app in Hnd as (_ & Hno & _). destruct (Hno h).
    + unfold invoked. cbn. by left.
    + by eapply invoked_In.
  - apply IH; try done. by apply NoDup_app in Hnd as (_ & _ & Hnd).
Qed.

(** X8. Each caller gets the result of its own handler.  In a program that
    uses a lock through its interface and passes a different handler in
    each call, take any call: it passes a handler and returns a promise.
    Whenever that promise has settled, the lock has called that handler,
    and the promise the handler returned when it was called has settled
    with the same outcome, value or failure, as the promise of the call. *)
Theorem caller_gets_own_result evs1 c evs2 w1 w o :
  lock_program (evs1 ++ ECall c :: evs2) = true →
  NoDup (call_handlers (evs1 ++ ECall c :: evs2)) →
  exec evs1 init = Some w1 →
  exec (evs1 ++ ECall c :: evs2) init = Some w →
  callers w !! (do_call c w1).1 = Some (Some o) →
  handler_of c ∈ invoked (trace w) ∧
  ∀ hp, In (ObsInvoke (handler_of c) hp) (trace w) →
        handlers w !! hp = Some (Some o).
Proof.
  intros Hlp Hnd Hex1 Hex Hp.
  set (k := length (call_handlers evs1)).
  pose proof (exec_Res _ w Hlp Hex) as HRes.
  assert (returned (evs1 ++ ECall c :: evs2) init !! k = Some (do_call c w1).1)
    as Hk.
  { rewrite (returned_app _ _ _ _ Hex1). cbn.
    rewrite lookup_app_r; rewrite (returned_length _ _ _ Hex1); [|done].
    by rewrite Nat.sub_diag. }
  pose proof (res_result _ w HRes k _ o Hk Hp) as Hh.
  pose proof (exec_call_order _ w Hlp Hex) as Hord.
  assert (In (ObsInvoke (handler_of c) k) (trace w)) as Hin.
  { apply (invoked_nth _ w k _ Hex).
    assert (k < length (invoked (trace w))) as Hlt.
    { rewrite (invoked_length _ w Hex). by eapply lookup_lt_Some. }
    rewrite <- (lookup_app_l _ (waiting w)) by done. rewrite Hord.
    rewrite call_handlers_app. cbn. by rewrite lookup_app_r, Nat.sub_diag. }
  split; [by eapply invoked_In|].
  intros hp Hhp. rewrite <- Hord in Hnd. apply NoDup_app in Hnd as (Hnd & _).
  by rewrite (invocation_unique _ _ hp k Hnd Hhp Hin).
Qed.

Lemma caller_gets_own_result_witness :
  ∃ w1 w, exec [ECall (CRead 1)] init = Some w1 ∧
          exec ([ECall (CRead 1)] ++ ECall (CWrite 2) ::
                [ESettle 0 (Fulfilled (VData 5)); EFire 0; EFire 0; EFire 0;
                 ESettle 1 (Rejected (VData 6)); EFire 0; EFire 0]) init = Some w ∧
          callers w !! (do_call (CWrite 2) w1).1 = Some (Some (Rejected (VData 6))) ∧
          2 ∈ invoked (trace w) ∧
          ∀ hp, In (ObsInvoke 2 hp) (trace w) →
                handlers w !! hp = Some (Some (Rejected (VData 6))).
Proof.
  eexists. eexists. split; [vm_compute; reflexivity|].
  split; [vm_compute; reflexivity|]. split; [vm_compute; reflexivity|].
  eapply (caller_gets_own_result [ECall (CRead 1)] (CWrite 2)
           [ESettle 0 (Fulfilled (VData 5)); EFire 0; EFire 0; EFire 0;
            ESettle 1 (Rejected (VData 6)); EFire 0; EFire 0]);
    [|apply (bool_decide_unpack _); vm_compute; exact I|..];
    vm_compute; reflexivity.
Defined.

(** * The rules of the class comment *)

Lemma last_pushed_begun w b :
  MInv w → GInv w → last (enqueued (trace w)) = Some (HBatch b) →
  In (HBatch b) (entered (trace w)) → queue (mutex (lock w)) = [].
Proof.
  intros HM HG Hl Hin.
  destruct (queue (mutex (lock w))) as [|q0 qs] eqn:Eq; [done|].
  assert (queue (mutex (lock w)) ≠ []) as Hne by by rewrite Eq.
  destruct (queue_snoc _ Hne) as (pre & fx & Hq).
  pose proof (m_fifo w HM) as Hf. rewrite Hq, map_app in Hf. cbn in Hf.
  rewrite <- Hf, app_assoc, last_snoc in Hl. injection Hl as Hfx.
  destruct (g_fresh w HG) as [Hnd _].
  rewrite <- Hf, app_assoc, batch_ids_app, Hfx in Hnd. cbn in Hnd.
  apply NoDup_app in Hnd as (_ & Hdis & _). destruct (Hdis b).
  - rewrite batch_ids_app. apply elem_of_app. left.
    apply list_elem_of_In. by apply batch_ids_in.
  - apply list_elem_of_here.
Qed.

Lemma member_done_tail b v w :
  tailFxList (lock (on_fulfilled (batch_member_done b) (Fulfilled v) w))
  = if (remaining (lock w) - 1 =? 0)%Z
    then if decide (tailFxList (lock w) = Some b) then None
         else tailFxList (lock w)
    else tailFxList (lock w).
Proof.
  unfold on_fulfilled, batch_member_done, unhandled, release. cbn.
  destruct (remaining (lock w) - 1 =? 0)%Z; cbn; [|done].
  destruct (decide (tailFxList (lock w) = Some b)); cbn;
    by destruct (batchDone (lock w)).
Qed.

Lemma run_TInv h w :
  (∀ b, h = HBatch b → tailFxList (lock w) = Some b) → TInv (run h w).2.
Proof.
  intros Hh b Hl. rewrite run_enqueued, last_snoc in Hl. injection Hl as ->.
  left. rewrite (proj1 (run_tail_heap _ _)). by apply Hh.
Qed.

Lemma next_idle_entered_in w x :
  In x (entered (trace w)) → In x (entered (trace (next_idle w))).
Proof.
  intros Hin. unfold next_idle.
  destruct (queue (mutex (lock w))) as [|fx rest]; [done|].
  destruct (call_runnable_mutex fx (set_running true (set_queue rest w)))
    as (_ & _ & -> & _).
  apply in_or_app. by left.
Qed.

Lemma fire_member_done_TInv w i s cb b' o b :
  RInv w → reactions w !! i = Some (s, cb) → captured cb = Some b' →
  source_state s w = Some o →
  tailFxList (lock w) = Some b ∨
  (In (HBatch b) (entered (trace w)) ∧ members_in_flight w = 0) →
  tailFxList (lock (on_fulfilled (batch_member_done b') o
                      (set_reactions (delete i (reactions w)) w))) = Some b ∨
  (In (HBatch b)
      (entered (trace (on_fulfilled (batch_member_done b') o
                         (set_reactions (delete i (reactions w)) w)))) ∧
   members_in_flight (on_fulfilled (batch_member_done b') o
                        (set_reactions (delete i (reactions w)) w)) = 0).
Proof.
  intros HR Hi Hc Hs HT.
  assert (In (s, cb) (reactions w)) as Hd.
  { apply list_elem_of_In. by eapply list_elem_of_lookup_2. }
  assert (is_member_done (s, cb) = true) as Hmd
    by (apply is_member_done_captured; eauto).
  pose proof (member_done_counted w _ Hd Hmd) as Hpos.
  destruct HT as [Ht|[_ Hm]]; [|lia].
  destruct (r_captured w HR (s, cb) b' Hd Hc) as [Hlast [vp Hvp]].
  cbn in Hvp. subst s. pose proof (source_vvv_fulfilled _ _ _ Hs) as ->.
  pose proof (members_delete_true w i _ Hi Hmd) as Hm.
  set (w0 := set_reactions (delete i (reactions w)) w) in *.
  destruct (member_done_frame b' (Fulfilled VUndef) w0)
    as (_ & _ & _ & _ & _ & Hr & _ & _ & _ & _ & _ & He & _).
  unfold members_in_flight at 1. rewrite Hr, He, member_done_tail.
  fold (members_in_flight w0). cbn.
  destruct (remaining (lock w) - 1 =? 0)%Z eqn:Ez; [|by left].
  destruct (decide (tailFxList (lock w) = Some b')) as [Heq|Hne]; [right|by left].
  assert (b' = b) as -> by congruence. split.
  - by apply last_in.
  - apply Z.eqb_eq in Ez. pose proof (r_count w HR). lia.
Qed.

Lemma fire_TInv w i s cb o :
  MInv w → GInv w → RInv w → TInv w → reactions w !! i = Some (s, cb) →
  source_state s w = Some o →
  TInv (fire cb o (set_reactions (delete i (reactions w)) w)).
Proof.
  intros HM HG HR HT Hi Hs b Hl. rewrite fire_enqueued in Hl. cbn in Hl.
  specialize (HT b Hl).
  destruct cb as [p|wp|p vp|b'|b']; unfold fire.
  - rewrite run_settled_eq.
    destruct (next_idle_tail_heap
                (set_running false
                   (settle p o (set_reactions (delete i (reactions w)) w))))
      as [-> _].
    cbn. rewrite settle_lock. cbn.
    destruct HT as [Ht|[Hin Hm]]; [by left|right].
    pose proof (last_pushed_begun w b HM HG Hl Hin) as Hq.
    rewrite next_idle_nil by (cbn; by rewrite settle_lock).
    unfold members_in_flight in *. cbn. rewrite settle_reactions, settle_trace. cbn.
    rewrite (filter_delete_false _ _ _ _ Hi) by done. simpl_trace. done.
  - cbn. destruct HT as [Ht|[Hin Hm]]; [by left|right]. split; [done|].
    unfold members_in_flight in *. cbn.
    by rewrite (filter_delete_false _ _ _ _ Hi).
  - unfold fulfil_vvv. cbn. rewrite settle_lock, settle_trace. cbn.
    destruct HT as [Ht|[Hin Hm]]; [by left|right]. simpl_trace. split; [done|].
    unfold members_in_flight in *. cbn. rewrite settle_reactions. cbn.
    by rewrite (filter_delete_false _ _ _ _ Hi).
  - by eapply (fire_member_done_TInv w i s _ b' o b HR Hi).
  - rewrite joined_member_done_eq.
    by eapply (fire_member_done_TInv w i s _ b' o b HR Hi).
Qed.

Lemma read_TInv h w : RInv w → TInv (read h w).2.
Proof.
  intros HR. unfold read. cbn.
  destruct (tailFxList (lock w)) as [b0|] eqn:Ht; cbn [snd].
  - destruct (r_tail w HR b0 Ht) as [Hl _]. intros b Hb. left.
    unfold getQueueLength in *. cbn in *.
    destruct (length (queue (mutex (lock w)))); cbn in *; simpl_trace;
      rewrite Ht; congruence.
  - apply run_TInv. cbn. by intros b [= <-].
Qed.

Lemma step_TInv e w w' :
  step e w = Some w' → MInv w → GInv w → RInv w → TInv w → TInv w'.
Proof.
  intros Hstep HM HG HR HT. destruct e as [[h|h|h]|hp o|i].
  - unfold step, do_call in Hstep.
    assert (w' = (run (HUser h) w).2) as -> by congruence. by apply run_TInv.
  - unfold step, do_call in Hstep.
    assert (w' = (write h w).2) as -> by congruence.
    unfold write. by apply run_TInv.
  - unfold step, do_call in Hstep.
    assert (w' = (read h w).2) as -> by congruence. by apply read_TInv.
  - unfold step in Hstep. destruct (handlers w !! hp) as [[|]|]; try done.
    by assert (w' = set_handlers (<[hp:=Some o]> (handlers w)) w) as -> by congruence.
  - unfold step in Hstep. destruct (reactions w !! i) as [[s cb]|] eqn:Hi; [|done].
    destruct (source_state s w) as [o|] eqn:Hs; [|done].
    assert (w' = fire cb o (set_reactions (delete i (reactions w)) w)) as ->
      by congruence.
    by eapply fire_TInv.
Qed.

Lemma reading_alone_has_batch w :
  MInv w → RInv w → TInv w →
  0 < members_in_flight w → queue (mutex (lock w)) = [] →
  ∃ b, tailFxList (lock w) = Some b.
Proof.
  intros HM HR HT Hpos Hq. unfold members_in_flight in Hpos.
  destruct (List.filter is_member_done (reactions w)) as [|x l] eqn:Ef;
    [cbn in Hpos; lia|].
  assert (In x (List.filter is_member_done (reactions w))) as Hx
    by (rewrite Ef; by left).
  apply filter_In in Hx as [Hx Hmd].
  apply is_member_done_captured in Hmd as [b Hb].
  destruct (r_captured w HR x b Hx Hb) as [Hl _].
  rewrite (fifo_idle_queue w HM Hq) in Hl.
  destruct (HT b Hl) as [Ht|[_ Hm]]; [by exists b|].
  unfold members_in_flight in Hm. rewrite Ef in Hm. done.
Qed.

(** X9. The rules of the class comment of [RwLock] hold in every state a
    program that uses the lock through its interface reaches.  If the
    lock is executing reads and nothing is queued, the handler of a new
    read is called at once, inside the call, and nothing is queued.  If
    a write is in progress, a new read calls nothing and waits behind it.
    If the lock is busy, a new write calls nothing and waits at the back
    of the queue. *)
Theorem lock_is_fair_as_documented evs w h :
  lock_program evs = true →
  exec evs init = Some w →
  (0 < members_in_flight w → getQueueLength w = 0 →
     invoked (trace (read h w).2) = invoked (trace w) ++ [h] ∧
     getQueueLength (read h w).2 = 0) ∧
  ((∃ wp p, In (OnWrapper wp, RunSettled p) (reactions w)) →
     invoked (trace (read h w).2) = invoked (trace w) ∧
     waits (CRead h) w (read h w).2) ∧
  (isIdle w = false →
     invoked (trace (write h w).2) = invoked (trace w) ∧
     waits (CWrite h) w (write h w).2).
Proof.
  intros Hlp Hex.
  destruct (lock_program_ind TInv ltac:(by intros b) 
              (λ e w0 w' Hs _ HM HG HR HT, step_TInv e w0 w' Hs HM HG HR HT)
              evs w Hlp Hex) as (HT & HM & HG & HR).
  split; [|split].
  - intros Hpos Hlen.
    assert (queue (mutex (lock w)) = []) as Hq.
    { unfold getQueueLength in Hlen. by destruct (queue (mutex (lock w))). }
    destruct (reading_alone_has_batch w HM HR HT Hpos Hq) as [b Ht].
    pose proof (do_call_invoked (CRead h) w HM) as Hinv.
    unfold do_call, starts_now, getQueueLength in Hinv. rewrite Ht, Hq in Hinv.
    split; [exact Hinv|].
    unfold read, getQueueLength. cbn. rewrite Ht, Hq. cbn. by rewrite Hq.
  - intros (wp & p & Hin).
    pose proof (run_settled_in_flight w _ Hin eq_refl) as Hfl.
    assert (running (mutex (lock w)) = true) as Hrun.
    { pose proof (m_flight w HM) as Hlen.
      destruct (running (mutex (lock w))); [done|]. by destruct (in_flight w). }
    assert (starts_now (CRead h) w = false) as Hs.
    { unfold starts_now, isIdle. rewrite Hrun.
      destruct (tailFxList (lock w)) as [b|] eqn:Ht; [|done].
      unfold getQueueLength.
      destruct (queue (mutex (lock w))) as [|q0 qs] eqn:Eq; [|done].
      destruct (tail_batch_running w b HM HR Ht Eq) as (_ & _ & Hpos & _).
      destruct (r_batch w HR Hpos) as (_ & bp & _ & _ & Hb).
      by specialize (Hb _ Hfl). }
    pose proof (do_call_invoked (CRead h) w HM) as Hinv. rewrite Hs in Hinv.
    rewrite app_nil_r in Hinv. split; [exact Hinv|].
    by apply (do_call_waits (CRead h)).
  - intros Hbusy.
    pose proof (do_call_invoked (CWrite h) w HM) as Hinv.
    unfold starts_now in Hinv. rewrite Hbusy, app_nil_r in Hinv.
    split; [exact Hinv|]. by apply (do_call_waits (CWrite h)).
Qed.

Lemma lock_is_fair_as_documented_witness :
  ∃ w, exec [ECall (CRead 1)] init = Some w ∧
       0 < members_in_flight w ∧ getQueueLength w = 0 ∧
       invoked (trace (read 2 w).2) = invoked (trace w) ++ [2].
Proof.
  eexists. split; [vm_compute; reflexivity|].
  split; [vm_compute; lia|]. split; [vm_compute; reflexivity|].
  apply (lock_is_fair_as_documented [ECall (CRead 1)] _ 2
           ltac:(vm_compute; reflexivity) ltac:(vm_compute; reflexivity)).
  - vm_compute. lia.
  - vm_compute. reflexivity.
Defined.

(** * Ref *)

(** X10. A [Ref] is a mutable cell.  A new [Ref] holds the value it was built
    with and leaves the existing ones alone; [setValue] on an existing
    [Ref] returns that same [Ref], so calls can be chained, makes
    [getValue] return the value set, the last one if there were several,
    and changes no other [Ref]. *)
Theorem Ref_is_a_mutable_cell {T} (s : list (@Ref.Ref T)) this v v' :
  this < length s →
  Ref.getValue (Ref.new v s).1 (Ref.new v s).2 = Some v ∧
  Ref.getValue this (Ref.new v s).2 = Ref.getValue this s ∧
  (Ref.setValue this v s).1 = this ∧
  Ref.getValue this (Ref.setValue this v s).2 = Some v ∧
  (∀ r, r ≠ this →
        Ref.getValue r (Ref.setValue this v s).2 = Ref.getValue r s) ∧
  Ref.getValue this
    (Ref.setValue (Ref.setValue this v s).1 v' (Ref.setValue this v s).2).2
  = Some v'.
Proof.
  intros Hlt. unfold Ref.getValue, Ref.setValue, Ref.new. cbn [fst snd].
  split; [|split; [|split; [|split; [|split]]]].
  - by rewrite (lookup_app_r s), Nat.sub_diag.
  - by rewrite (lookup_app_l s).
  - done.
  - by rewrite (list_lookup_insert_eq s).
  - intros r Hr. by rewrite (list_lookup_insert_ne s).
  - rewrite (list_lookup_insert_eq (<[this:=_]> s)); [done|].
    by rewrite length_insert.
Qed.

Lemma Ref_is_a_mutable_cell_witness :
  Ref.getValue 0 (Ref.setValue 0 43%Z (Ref.new 42%Z []).2).2 = Some 43%Z.
Proof.
  apply (Ref_is_a_mutable_cell (Ref.new 42%Z []).2 0 43%Z 43%Z). cbn. lia.
Defined.
